(** * SoundSwallower: configuration store, grammar construction and
    decoder bootstrap

    A shallow embedding of the JavaScript binding ([Config], [Decoder],
    [read_featparams], [load_to_s3file], [load_model]), of the matching
    parts of the Cython binding ([Config], [Decoder.create_fsg],
    [Decoder.parse_jsgf]) and of the fatal-error macros of [err.h].

    JavaScript strings and C strings are both [string]: a character is a
    code point below 256 and the UTF-8 conversion between the two sides
    (which is injective) is left implicit.  JavaScript numbers and C
    doubles are rationals ([Q]); NaN, the infinities and rounding are
    outside the model.  A state index of a transition is a number that
    is an integer ([Z]); where it passes to a 32-bit parameter of
    compiled code it is wrapped (JavaScript) or checked (Cython).  C
    integers and pointers are [Z], 0 being the null pointer. *)

From Stdlib Require Import ZArith QArith String Ascii List Bool Lia.
From stdpp Require Import base option list gmap strings pretty sorting.
Open Scope Z_scope.

(** ** Values and exceptions *)

Inductive jsval :=
| JUndefined
| JNull
| JBool (b : bool)
| JNum (x : Q)
| JStr (s : string).

Inductive pyval :=
| PyNone
| PyBool (b : bool)
| PyInt (i : Z)
| PyFloat (x : Q)
| PyStr (s : string).

(** The exception classes that occur in the two bindings, each with its
    message. *)
Inductive exn :=
| Error (msg : string)
| ReferenceError (msg : string)
| TypeError (msg : string)
| KeyError (msg : string)
| ValueError (msg : string)
| RuntimeError (msg : string)
| AttributeError (msg : string)
| OverflowError (msg : string).

Inductive result (A : Type) :=
| Ok (a : A)
| Throw (e : exn).
Arguments Ok {A} a.
Arguments Throw {A} e.

Definition is_Ok {A} (r : result A) : bool :=
  match r with Ok _ => true | Throw _ => false end.

(** JavaScript truthiness of an integer returned by compiled code. *)
Definition truthy (n : Z) : bool := negb (n =? 0).

(** ** The configuration store ([cmd_ln_t])

    [cmd_ln.c] is not among the sources; the store is modelled after its
    interface as the bindings use it. *)

Definition ARG_REQUIRED : Z := Z.shiftl 1 0.
Definition ARG_INTEGER : Z := Z.shiftl 1 1.
Definition ARG_FLOATING : Z := Z.shiftl 1 2.
Definition ARG_STRING : Z := Z.shiftl 1 3.
Definition ARG_BOOLEAN : Z := Z.shiftl 1 4.

(** The four value kinds of a parameter. *)
Inductive arg_kind := KInteger | KFloating | KString | KBoolean.

Definition kind_bit (k : arg_kind) : Z :=
  match k with
  | KInteger => ARG_INTEGER
  | KFloating => ARG_FLOATING
  | KString => ARG_STRING
  | KBoolean => ARG_BOOLEAN
  end.

(** The value cell of a parameter, a C union of a pointer, a long and a
    double.  Reading another member than the one written last is not
    modelled: the readers below return the null value then. *)
Inductive anytype :=
| Ptr (p : option string)
| Int (i : Z)
| Fl (f : Q).

Record cmd_ln_val_t := {
  val : anytype;
  kind : arg_kind;
  required : bool
}.

Definition type (e : cmd_ln_val_t) : Z :=
  Z.lor (kind_bit (kind e)) (if required e then ARG_REQUIRED else 0).

Definition with_val (v : anytype) (e : cmd_ln_val_t) : cmd_ln_val_t :=
  {| val := v; kind := kind e; required := required e |}.

Abbreviation cmd_ln_t := (gmap string cmd_ln_val_t).

(** Modelled from the spec: the configuration store of [cmd_ln.c], typed
    get and set by string key over four value kinds; a parameter exists
    when the table has its key, the type of an unknown key is 0, and the
    setters leave a table without the key as it is. *)
Definition cmd_ln_access_r (cmdln : cmd_ln_t) (name : string) : option cmd_ln_val_t :=
  cmdln !! name.

Definition cmd_ln_exists_r (cmdln : cmd_ln_t) (name : string) : Z :=
  match cmdln !! name with Some _ => 1 | None => 0 end.

Definition cmd_ln_type_r (cmdln : cmd_ln_t) (name : string) : Z :=
  match cmdln !! name with Some e => type e | None => 0 end.

Definition cmd_ln_str_r (cmdln : cmd_ln_t) (name : string) : option string :=
  match cmdln !! name with
  | Some e => match val e with Ptr p => p | _ => None end
  | None => None
  end.

Definition cmd_ln_int_r (cmdln : cmd_ln_t) (name : string) : Z :=
  match cmdln !! name with
  | Some e => match val e with Int i => i | _ => 0 end
  | None => 0
  end.

Definition cmd_ln_float_r (cmdln : cmd_ln_t) (name : string) : Q :=
  match cmdln !! name with
  | Some e => match val e with Fl f => f | _ => 0%Q end
  | None => 0%Q
  end.

Definition cmd_ln_set_str_r (cmdln : cmd_ln_t) (name : string) (str : option string) : cmd_ln_t :=
  alter (with_val (Ptr str)) name cmdln.

Definition cmd_ln_set_int_r (cmdln : cmd_ln_t) (name : string) (iv : Z) : cmd_ln_t :=
  alter (with_val (Int iv)) name cmdln.

Definition cmd_ln_set_float_r (cmdln : cmd_ln_t) (name : string) (fv : Q) : cmd_ln_t :=
  alter (with_val (Fl fv)) name cmdln.

(** ** The host: what the bindings take from their environment

    The compiled decoder, the Emscripten runtime, Node's file system and
    the network are not among the sources.  Their answers are fields of
    a [host]; a call into the compiled decoder is answered from the
    history of the calls made so far.  A call is named as the binding
    names it ([Module._ps_init_fe]); the decoder handle, which every
    decoder call takes first, and the log-math handle are left out, and
    the pure readers ([_ps_get_logmath], [_ps_get_config],
    [_cmd_ln_float_r], [_logmath_log]) leave no entry in the history. *)

(** A recognised segment as the segment iterator presents it. *)
Record seg_t := {
  seg_word : string;
  seg_sf : Z;
  seg_ef : Z
}.

(** A rule of a parsed JSGF grammar. *)
Record jsgf_rule_t := {
  rule_name : string;
  rule_public : bool
}.

Abbreviation jsgf_t := (list jsgf_rule_t).

Inductive call :=
| _ps_init
| _ps_init_config (cmdln : cmd_ln_t)
| _ps_init_cleanup
| _ps_init_fe
| _ps_init_feat
| _ps_init_acmod_pre
| _ps_init_acmod_post
| _ps_init_dict
| _ps_init_grammar
| _ps_reinit_fe
| _ps_free
| _ps_start_utt
| _ps_end_utt
| _ps_process_float32 (pcm : list Q) (addr nsamp : Z) (no_search full_utt : bool)
| _ps_get_hyp
| _ps_seg_iter
| _ps_lookup_word (word : string)
| _ps_add_word (word pron : string) (update : bool)
| _ps_set_fsg (name : string) (fsg : Z)
| _malloc (nbytes : Z)
| _free (addr : Z)
| _s3file_init (addr : Z) (len : Z)
| _s3file_free (s3f : Z)
| _bin_mdef_read_s3file (s3f : Z)
| _set_mdef (mdef : Z)
| _tmat_init_s3file (s3f : Z) (tpfloor : Q)
| _set_tmat (tmat : Z)
| _load_gmm (means variances mixw sendump : Z)
| _fsg_model_init (name : string) (lw : Q) (n_state : Z)
| _fsg_set_states (fsg start_state final_state : Z)
| _fsg_model_word_add (fsg : Z) (word : string)
| _fsg_model_trans_add (fsg from to logp wid : Z)
| _fsg_model_null_trans_add (fsg from to logp : Z)
| _fsg_model_free (fsg : Z)
| _jsgf_parse_string (text : string)
| _jsgf_build_fsg (rule : jsgf_rule_t) (lw : Q)
| _jsgf_grammar_free
| fs_readFile (path : jsval)
| fetch (url : jsval).

(** One entry of the history: the call and the integer it returned. *)
Abbreviation event := (call * Z)%type.

Record host := {
  (** [Module.defaultModel], and [Module.model_paths] as the lookup of a
      property on it goes: a name the object has or inherits from
      [Object.prototype], with the string its value concatenates as *)
  defaultModel : option string;
  model_paths : gmap string string;
  RUNNING_ON_WEB : bool;
  (** the table [cmd_ln_parse_r(0, ps_args(), 0, 0, 0)] returns: every
      parameter with its default *)
  ps_args : cmd_ln_t;
  (** integer result of a call into compiled code, given the history *)
  native : list event -> call -> Z;
  (** string results: the hypothesis, a pronunciation *)
  native_str : list event -> call -> option string;
  (** the segments the iterator of [ps_seg_iter] walks through *)
  native_segs : list event -> list seg_t;
  (** [fs.readFile]: the contents, or the exception of a failed read *)
  readFile : jsval -> result string;
  (** [fetch] then [text()]: [ok], the status text and the body, or the
      exception of a request that fails outright *)
  fetch_response : jsval -> result (bool * string * string);
  (** [logmath_log] *)
  logmath_log : Q -> Z;
  (** whether a new entry of an automaton's word table can be
      allocated, given the table *)
  vocab_alloc : list string -> string -> bool;
  (** what [jsgf_parse_string] makes of a text *)
  jsgf_parse : string -> option jsgf_t;
  (** coercion of a value that is no number to a C double, and of a
      value that is no string to a C string (Emscripten) *)
  ToNumber_other : jsval -> Q;
  UTF8_other : jsval -> result string;
  (** JavaScript's [ToString] on a value that is no string *)
  ToString_other : jsval -> string;
  (** Cython's coercions of an argument to [long] and to [double] *)
  py_as_long : pyval -> result Z;
  py_as_double : pyval -> result Q
}.

(** ** Coercions at the boundary to compiled code *)

Section Coercions.
Variable H : host.

Definition allocateUTF8OnStack (v : jsval) : result string :=
    match v with
    | JStr s => Ok s
    | _ => UTF8_other H v
    end.

Definition ToNumber (v : jsval) : Q :=
    match v with
    | JNum x => x
    | JBool b => if b then 1%Q else 0%Q
    | JNull => 0%Q
    | _ => ToNumber_other H v
    end.

  (** A double as a 32-bit integer: truncate, then wrap. *)
Definition ToInt32 (v : jsval) : Z :=
    let x := ToNumber v in
    let t := Z.quot (Qnum x) (Z.pos (Qden x)) in
    (t + 2 ^ 31) mod 2 ^ 32 - 2 ^ 31.

Definition ToString (v : jsval) : string :=
    match v with
    | JStr s => s
    | _ => ToString_other H v
    end.
End Coercions.

(** A JavaScript number that is an integer, as an [int] parameter of
    compiled code receives it: wrapped to 32 bits, as [ToInt32] does. *)
Definition int32 (n : Z) : Z := (n + 2 ^ 31) mod 2 ^ 32 - 2 ^ 31.

(** ** [class Config] of the JavaScript binding *)

Record Config := { cmd_ln : cmd_ln_t }.

Module JsConfig.
Section Methods.
Variable H : host.

Definition has (this : Config) (key : string) : Z :=
    cmd_ln_exists_r (cmd_ln this) key.

Definition normalize_key (this : Config) (key : string) : string :=
    match key with
    | String k0 rest =>
        if Ascii.eqb k0 "_" then
          (* Ask for underscore, get underscore *)
          key
        else if Ascii.eqb k0 "-" then
          (* Ask for dash, get underscore or dash *)
          let under_key := "_" +:+ rest in
          if truthy (has this under_key) then under_key else key
        else
          (* No dash or underscore, try underscore then dash *)
          let under_key := "_" +:+ key in
          if truthy (has this under_key) then under_key
          else
            let dash_key := "-" +:+ key in
            if truthy (has this dash_key) then dash_key else key
    | EmptyString => EmptyString
    end.

Definition normalize_ckey (ckey : string) : string :=
    match ckey with
    | EmptyString => ckey
    | String k0 rest =>
        if Ascii.eqb k0 "-" || Ascii.eqb k0 "_" then rest else ckey
    end.

  (** A method returns its result and the object as it has left it. *)
Definition set (this : Config) (key : string) (v : jsval) : result jsval * Config :=
    let nkey := normalize_key this key in
    let ty := cmd_ln_type_r (cmd_ln this) nkey in
    if ty =? 0 then
      (Throw (ReferenceError ("Unknown cmd_ln parameter " +:+ key)), this)
    else if truthy (Z.land ty ARG_STRING) then
      match allocateUTF8OnStack H v with
      | Ok cval =>
          (Ok (JBool true),
           {| cmd_ln := cmd_ln_set_str_r (cmd_ln this) nkey (Some cval) |})
      | Throw e => (Throw e, this)
      end
    else if truthy (Z.land ty ARG_FLOATING) then
      (Ok (JBool true),
       {| cmd_ln := cmd_ln_set_float_r (cmd_ln this) nkey (ToNumber H v) |})
    else if truthy (Z.land ty (Z.lor ARG_INTEGER ARG_BOOLEAN)) then
      (Ok (JBool true),
       {| cmd_ln := cmd_ln_set_int_r (cmd_ln this) nkey (ToInt32 H v) |})
    else
      (Ok (JBool false), this).

Definition get (this : Config) (key : string) : result jsval :=
    let ckey := normalize_key this key in
    let ty := cmd_ln_type_r (cmd_ln this) ckey in
    if ty =? 0 then
      Throw (ReferenceError ("Unknown cmd_ln parameter " +:+ key))
    else if truthy (Z.land ty ARG_STRING) then
      match cmd_ln_str_r (cmd_ln this) ckey with
      | None => Ok JNull
      | Some s => Ok (JStr s)
      end
    else if truthy (Z.land ty ARG_FLOATING) then
      Ok (JNum (cmd_ln_float_r (cmd_ln this) ckey))
    else if truthy (Z.land ty ARG_INTEGER) then
      Ok (JNum (inject_Z (cmd_ln_int_r (cmd_ln this) ckey)))
    else if truthy (Z.land ty ARG_BOOLEAN) then
      Ok (JBool (truthy (cmd_ln_int_r (cmd_ln this) ckey)))
    else
      Throw (TypeError ("Unsupported type " +:+ pretty ty +:+ " for parameter" +:+ key)).

  (** [for (const key in dict) this.set(key, dict[key])]: the first
      [set] that throws ends the loop. *)
Fixpoint set_all (this : Config) (dict : list (string * jsval)) : result unit * Config :=
    match dict with
    | [] => (Ok tt, this)
    | (key, v) :: dict' =>
        match set this key v with
        | (Ok _, this') => set_all this' dict'
        | (Throw e, this') => (Throw e, this')
        end
    end.

Definition in_dict (key : string) (dict : list (string * jsval)) : bool :=
    existsb (fun kv => String.eqb (fst kv) key) dict.

  (** [new Config(dict)]; [dict] is [None] when the argument is
      undefined.  A constructor that throws yields no object. *)
Definition constructor (dict : option (list (string * jsval))) : result Config :=
    let this := {| cmd_ln := ps_args H |} in
    let finish dict :=
      match set_all this dict with
      | (Ok _, this') => Ok this'
      | (Throw e, _) => Throw e
      end in
    match dict with
    | None =>
        match defaultModel H with
        | Some m => finish [("hmm", JStr m)]
        | None => Ok this
        end
    | Some dict =>
        match defaultModel H with
        | Some m =>
            if in_dict "hmm" dict then finish dict
            else finish (dict ++ [("hmm", JStr m)])
        | None => finish dict
        end
    end.

  (** Get a model parameter with backoff to path inside current model.
      [hmmpath in Module.model_paths] and [Module.model_paths[hmmpath]]
      are the lookup of a property, which [model_paths] stands for. *)
Definition model_path (this : Config) (key modelfile : string) : result jsval :=
    match get this key with
    | Throw e => Throw e
    | Ok v =>
        match v with
        | JNull | JUndefined =>
            match get this "hmm" with
            | Throw e => Throw e
            | Ok hmmpath =>
                match hmmpath with
                | JNull | JUndefined =>
                    Throw (Error ("Could not get " +:+ key +:+ " from config or model directory"))
                | _ =>
                    match model_paths H !! ToString H hmmpath with
                    | Some p => Ok (JStr (p +:+ "/" +:+ modelfile))
                    | None => Ok (JStr (ToString H hmmpath +:+ "/" +:+ modelfile))
                    end
                end
            end
        | _ => Ok v
        end
    end.
End Methods.
End JsConfig.

(** ** [cdef class Config] of the Cython binding *)

Module PyConfig.
Section Methods.
Variable H : host.

Definition _normalize_key (self : Config) (key : string) : string :=
  match key with
  | String k0 rest =>
      if Ascii.eqb k0 "_" then
        (* Ask for underscore, get underscore *)
        key
      else if Ascii.eqb k0 "-" then
        (* Ask for dash, get underscore or dash *)
        let under_key := "_" +:+ rest in
        if truthy (cmd_ln_exists_r (cmd_ln self) under_key) then under_key
        else key
      else
        (* No dash or underscore, try underscore, then dash *)
        let under_key := "_" +:+ key in
        if truthy (cmd_ln_exists_r (cmd_ln self) under_key) then under_key
        else
          let dash_key := "-" +:+ key in
          if truthy (cmd_ln_exists_r (cmd_ln self) dash_key) then dash_key
          else key
  | EmptyString => key
  end.

Definition __contains__ (self : Config) (key : string) : bool :=
  truthy (cmd_ln_exists_r (cmd_ln self) (_normalize_key self key)).

Definition __getitem__ (self : Config) (key : string) : result pyval :=
  let ckey := _normalize_key self key in
  match cmd_ln_access_r (cmd_ln self) ckey with
  | None => Throw (KeyError ("Unknown key " +:+ key))
  | Some at_ =>
      if truthy (Z.land (type at_) ARG_STRING) then
        match cmd_ln_str_r (cmd_ln self) ckey with
        | None => Ok PyNone
        | Some cval => Ok (PyStr cval)
        end
      else if truthy (Z.land (type at_) ARG_INTEGER) then
        Ok (PyInt (cmd_ln_int_r (cmd_ln self) ckey))
      else if truthy (Z.land (type at_) ARG_FLOATING) then
        Ok (PyFloat (cmd_ln_float_r (cmd_ln self) ckey))
      else if truthy (Z.land (type at_) ARG_BOOLEAN) then
        Ok (PyBool (negb (cmd_ln_int_r (cmd_ln self) ckey =? 0)))
      else
        Throw (ValueError ("Unable to handle parameter type " +:+ pretty (type at_)))
  end.

(** [val.encode('utf-8')]: only a [str] has the method. *)
Definition encode (v : pyval) : result string :=
  match v with
  | PyStr s => Ok s
  | _ => Throw (AttributeError "object has no attribute 'encode'")
  end.

(** [val != 0] *)
Definition ne_zero (v : pyval) : bool :=
  match v with
  | PyNone => true
  | PyBool b => b
  | PyInt i => negb (i =? 0)
  | PyFloat x => negb (Qeq_bool x 0)
  | PyStr _ => true
  end.

Definition __setitem__ (self : Config) (key : string) (v : pyval) : result unit * Config :=
  let ckey := _normalize_key self key in
  match cmd_ln_access_r (cmd_ln self) ckey with
  | None =>
      (* FIXME: for now ... but should handle this *)
      (Throw (KeyError ("Unknown key " +:+ key)), self)
  | Some at_ =>
      if truthy (Z.land (type at_) ARG_STRING) then
        match v with
        | PyNone => (Ok tt, {| cmd_ln := cmd_ln_set_str_r (cmd_ln self) ckey None |})
        | _ =>
            match encode v with
            | Ok s => (Ok tt, {| cmd_ln := cmd_ln_set_str_r (cmd_ln self) ckey (Some s) |})
            | Throw e => (Throw e, self)
            end
        end
      else if truthy (Z.land (type at_) ARG_INTEGER) then
        match py_as_long H v with
        | Ok i => (Ok tt, {| cmd_ln := cmd_ln_set_int_r (cmd_ln self) ckey i |})
        | Throw e => (Throw e, self)
        end
      else if truthy (Z.land (type at_) ARG_FLOATING) then
        match py_as_double H v with
        | Ok x => (Ok tt, {| cmd_ln := cmd_ln_set_float_r (cmd_ln self) ckey x |})
        | Throw e => (Throw e, self)
        end
      else if truthy (Z.land (type at_) ARG_BOOLEAN) then
        (Ok tt, {| cmd_ln := cmd_ln_set_int_r (cmd_ln self) ckey (if ne_zero v then 1 else 0) |})
      else
        (Throw (ValueError ("Unable to handle parameter type " +:+ pretty (type at_))), self)
  end.
End Methods.
End PyConfig.

(** ** Grammar automata ([fsg_model_t]) *)

(** A transition; [wid] is absent on a null (epsilon) transition. *)
Record fsg_link_t := {
  from_state : Z;
  to_state : Z;
  logs2prob : Z;
  wid : option Z
}.

Record fsg_model_t := {
  fsg_name : string;
  fsg_lw : Q;
  n_state : Z;
  start_state : Z;
  final_state : Z;
  trans : list fsg_link_t;
  vocab : list string
}.

(** Position of a word in a word table, or -1. *)
Fixpoint fsg_model_word_id (vocab : list string) (word : string) : Z :=
  match vocab with
  | [] => -1
  | w :: rest =>
      if String.eqb w word then 0
      else
        let i := fsg_model_word_id rest word in
        if i =? -1 then -1 else i + 1
  end.

(** Modelled from the spec: the automaton operations of [fsg_model.c],
    which is not among the sources.  [create] allocates an automaton
    with empty transitions and word table; [set_states] records the
    distinguished endpoints; [add_word] returns the existing id if the
    text is already present, otherwise assigns the next sequential id and
    appends; [add_transition] and [add_null_transition] append one
    transition.  The result -1 of [add_word], which both bindings test
    for, stands for the allocation failure of the spec's error list. *)
Definition create (name : string) (lw : Q) (n : Z) : fsg_model_t :=
  {| fsg_name := name; fsg_lw := lw; n_state := n;
     start_state := 0; final_state := 0; trans := []; vocab := [] |}.

Definition set_states (s f : Z) (g : fsg_model_t) : fsg_model_t :=
  {| fsg_name := fsg_name g; fsg_lw := fsg_lw g; n_state := n_state g;
     start_state := s; final_state := f; trans := trans g; vocab := vocab g |}.

Definition with_vocab (v : list string) (g : fsg_model_t) : fsg_model_t :=
  {| fsg_name := fsg_name g; fsg_lw := fsg_lw g; n_state := n_state g;
     start_state := start_state g; final_state := final_state g;
     trans := trans g; vocab := v |}.

Definition add_link (l : fsg_link_t) (g : fsg_model_t) : fsg_model_t :=
  {| fsg_name := fsg_name g; fsg_lw := fsg_lw g; n_state := n_state g;
     start_state := start_state g; final_state := final_state g;
     trans := trans g ++ [l]; vocab := vocab g |}.

Definition add_word (H : host) (word : string) (g : fsg_model_t) : fsg_model_t * Z :=
  let id := fsg_model_word_id (vocab g) word in
  if negb (id =? -1) then (g, id)
  else if vocab_alloc H (vocab g) word then
    (with_vocab (vocab g ++ [word]) g, Z.of_nat (length (vocab g)))
  else (g, -1).

Definition add_transition (src dst logp w : Z) (g : fsg_model_t) : fsg_model_t :=
  add_link {| from_state := src; to_state := dst; logs2prob := logp; wid := Some w |} g.

Definition add_null_transition (src dst logp : Z) (g : fsg_model_t) : fsg_model_t :=
  add_link {| from_state := src; to_state := dst; logs2prob := logp; wid := None |} g.

(** ** The world outside the binding objects, and the monad of methods *)

(** The history of calls and the automata the binding holds a
    reference to: handle [h] is slot [h - 1], a released slot is empty. *)
Record World := {
  trace : list event;
  fsg_heap : list (option fsg_model_t)
}.

Definition fsg_at (w : World) (h : Z) : option fsg_model_t :=
  if h <=? 0 then None
  else match fsg_heap w !! Z.to_nat (h - 1) with
       | Some slot => slot
       | None => None
       end.

Definition log (ev : event) (w : World) : World :=
  {| trace := trace w ++ [ev]; fsg_heap := fsg_heap w |}.

Definition with_heap (hp : list (option fsg_model_t)) (w : World) : World :=
  {| trace := trace w; fsg_heap := hp |}.

(** State and exceptions: a computation returns a value or throws, and
    leaves the state as it was at that point. *)
Definition M (S A : Type) : Type := S -> result A * S.

Definition ret {S A} (a : A) : M S A := fun s => (Ok a, s).

Definition throw {S A} (e : exn) : M S A := fun s => (Throw e, s).

Definition bind {S A B} (m : M S A) (k : A -> M S B) : M S B :=
  fun s =>
    match m s with
    | (Ok a, s') => k a s'
    | (Throw e, s') => (Throw e, s')
    end.

Definition try_catch {S A} (m : M S A) (handler : exn -> M S A) : M S A :=
  fun s =>
    match m s with
    | (Ok a, s') => (Ok a, s')
    | (Throw e, s') => handler e s'
    end.

Definition lift {S A} (r : result A) : M S A := fun s => (r, s).

Declare Scope monad_scope.
Delimit Scope monad_scope with monad.
Notation "x <- m ;; k" := (bind m (fun x => k))
  (at level 100, m at next level, right associativity) : monad_scope.
Notation "m ;; k" := (bind m (fun _ => k))
  (at level 100, right associativity) : monad_scope.
Open Scope monad_scope.

Section Native.
Variable H : host.

(** A call into compiled code: answered from the history, and entered
    into it. *)
Definition ncall (c : call) : M World Z :=
  fun w => let r := native H (trace w) c in (Ok r, log (c, r) w).

Definition fsg_model_init (name : string) (lw : Q) (n : Z) : M World Z :=
  fun w =>
    let h := Z.of_nat (length (fsg_heap w)) + 1 in
    (Ok h, log (_fsg_model_init name lw n, h)
             (with_heap (fsg_heap w ++ [Some (create name lw n)]) w)).

(** Apply an operation to the automaton behind a handle; a handle that
    is not live leaves the heap alone. *)
Definition update_fsg (h : Z) (f : fsg_model_t -> fsg_model_t) (w : World) : World :=
  match fsg_at w h with
  | Some g => with_heap (<[Z.to_nat (h - 1) := Some (f g)]> (fsg_heap w)) w
  | None => w
  end.

Definition fsg_set_states (h s f : Z) : M World unit :=
  fun w => (Ok tt, log (_fsg_set_states h s f, 0) (update_fsg h (set_states s f) w)).

Definition fsg_model_word_add (h : Z) (word : string) : M World Z :=
  fun w =>
    match fsg_at w h with
    | Some g =>
        let (g', id) := add_word H word g in
        (Ok id, log (_fsg_model_word_add h word, id) (update_fsg h (fun _ => g') w))
    | None => (Ok (-1), log (_fsg_model_word_add h word, -1) w)
    end.

Definition fsg_model_trans_add (h src dst logp w_id : Z) : M World unit :=
  fun w => (Ok tt, log (_fsg_model_trans_add h src dst logp w_id, 0)
                     (update_fsg h (add_transition src dst logp w_id) w)).

Definition fsg_model_null_trans_add (h src dst logp : Z) : M World unit :=
  fun w => (Ok tt, log (_fsg_model_null_trans_add h src dst logp, 0)
                     (update_fsg h (add_null_transition src dst logp) w)).

Definition fsg_model_free (h : Z) : M World unit :=
  fun w =>
    (Ok tt, log (_fsg_model_free h, 0)
              (match fsg_at w h with
               | Some _ => with_heap (<[Z.to_nat (h - 1) := None]> (fsg_heap w)) w
               | None => w
               end)).

(** Modelled from the spec: rule lookup of [jsgf.c], which is not among
    the sources; a rule is found by its name, and the public rule is the
    first rule marked public. *)
Definition jsgf_get_rule (jsgf : jsgf_t) (name : string) : option jsgf_rule_t :=
  List.find (fun r => String.eqb (rule_name r) name) jsgf.

Definition jsgf_get_public_rule (jsgf : jsgf_t) : option jsgf_rule_t :=
  List.find rule_public jsgf.
End Native.

(** ** [read_featparams]: key and value pairs of a feat.params file *)

(** [\s] and the line terminators, among the code points below 256. *)
Definition is_space (c : ascii) : bool :=
  let n := nat_of_ascii c in
  ((9 <=? n) && (n <=? 13))%nat || (n =? 32)%nat || (n =? 160)%nat.

Definition is_line_terminator (c : ascii) : bool :=
  let n := nat_of_ascii c in
  (n =? 10)%nat || (n =? 13)%nat.

(** The matches of [/^.*$/mg]: the stretches between line terminators. *)
Fixpoint lines_from (cur : list ascii) (l : list ascii) : list (list ascii) :=
  match l with
  | [] => [rev cur]
  | c :: r =>
      if is_line_terminator c then rev cur :: lines_from [] r
      else lines_from (c :: cur) r
  end.

Fixpoint trim_start (l : list ascii) : list ascii :=
  match l with
  | c :: r => if is_space c then trim_start r else l
  | [] => []
  end.

Definition trim (l : list ascii) : list ascii :=
  rev (trim_start (rev (trim_start l))).

(** Split at the first character satisfying [p]. *)
Fixpoint break_at (p : ascii -> bool) (l : list ascii) : list ascii * list ascii :=
  match l with
  | [] => ([], [])
  | c :: r =>
      if p c then ([], l)
      else let (a, b) := break_at p r in (c :: a, b)
  end.

Definition is_dquote (c : ascii) : bool := (nat_of_ascii c =? 34)%nat.
Definition is_squote (c : ascii) : bool := Ascii.eqb c "'".

(** One match of [arg_re] at the head of [l], trying its alternatives in
    order: a stretch between two double quotes, one character other
    than a single quote between two single quotes, a longest run of
    non-blank characters.  The result is the token (the group that
    matched) and what follows the match. *)
Definition match_arg (l : list ascii) : option (list ascii * list ascii) :=
  let bare :=
    match l with
    | c :: _ => if is_space c then None else Some (break_at is_space l)
    | [] => None
    end in
  match l with
  | c :: r =>
      if is_dquote c then
        match break_at is_dquote r with
        | (tok, _ :: rest) => Some (tok, rest)
        | (_, []) => bare
        end
      else if is_squote c then
        match r with
        | x :: q :: rest =>
            if negb (is_squote x) && is_squote q then Some ([x], rest) else bare
        | _ => bare
        end
      else bare
  | [] => None
  end.

(** [line.matchAll(arg_re)]: a match is never empty, so the length of
    the line bounds the number of steps. *)
Fixpoint matchAll_from (fuel : nat) (l : list ascii) : list string :=
  match fuel with
  | O => []
  | S fuel' =>
      match l with
      | [] => []
      | _ :: r =>
          match match_arg l with
          | Some (tok, rest) => string_of_list_ascii tok :: matchAll_from fuel' rest
          | None => matchAll_from fuel' r
          end
      end
  end.

Definition matchAll_args (line : list ascii) : list string :=
  matchAll_from (length line) line.

(** The loop over the tokens of one line; [key] is the pending key. *)
Fixpoint args_loop (tokens : list string) (key : option string)
  : option string * list (string * string) :=
  match tokens with
  | [] => (key, [])
  | token :: rest =>
      if String.eqb token "#" then (key, [])
      else
        match key with
        | Some k =>
            let (key', ys) := args_loop rest None in
            (key', (k, token) :: ys)
        | None => args_loop rest (Some token)
        end
  end.

Fixpoint lines_loop (lines : list (list ascii)) (key : option string)
  : option string * list (string * string) :=
  match lines with
  | [] => (key, [])
  | line :: rest =>
      let (key1, ys1) := args_loop (matchAll_args (trim line)) key in
      let (key2, ys2) := lines_loop rest key1 in
      (key2, ys1 ++ ys2)
  end.

(** What a generator hands to its consumer: the values it yields, then
    how it ends. *)
Record generated (A : Type) := {
  yields : list A;
  finish : result unit
}.
Arguments yields {A} g.
Arguments finish {A} g.

Section Files.
Variable H : host.

Definition read_featparams (featparams : jsval) : M World (generated (string * string)) :=
  fun w =>
    let read : result string * World :=
      if RUNNING_ON_WEB H then
        match fetch_response H featparams with
        | Ok (ok, statusText, text) =>
            if ok then (Ok text, log (fetch featparams, 1) w)
            else (Throw (Error ("Failed to fetch " +:+ ToString H featparams
                                +:+ " :" +:+ statusText)),
                  log (fetch featparams, 0) w)
        | Throw e => (Throw e, log (fetch featparams, 0) w)
        end
      else
        match readFile H featparams with
        | Ok text => (Ok text, log (fs_readFile featparams, 1) w)
        | Throw e => (Throw e, log (fs_readFile featparams, 0) w)
        end in
    match read with
    | (Throw e, w') => (Ok {| yields := []; finish := Throw e |}, w')
    | (Ok fpdata, w') =>
        let (key, ys) := lines_loop (lines_from [] (list_ascii_of_string fpdata)) None in
        (Ok {| yields := ys;
               finish := match key with
                         | Some _ => Throw (Error ("Odd number of arguments in "
                                                   +:+ ToString H featparams))
                         | None => Ok tt
                         end |}, w')
    end.

Definition load_to_s3file (path : jsval) : M World Z :=
  fun w =>
    match readFile H path with
    | Throw e => (Throw e, log (fs_readFile path, 0) w)
    | Ok blob =>
        let len := Z.of_nat (String.length blob) in
        (blob_addr <- ncall H (_malloc len) ;;
         if blob_addr =? 0 then
           throw (Error ("Failed to allocate " +:+ pretty len +:+ " bytes for "
                         +:+ ToString H path))
         else ncall H (_s3file_init blob_addr len))
          (log (fs_readFile path, 1) w)
    end.
End Files.

(** ** [class Decoder] of the JavaScript binding *)

Record Decoder := {
  config : Config;
  initialized : bool;
  ps : Z
}.

(** What the caller may pass where a configuration is expected: nothing,
    a [Config] (an object with a [cmd_ln] property) or a plain object of
    keys and values. *)
Inductive config_arg :=
| NoConfig
| AConfig (c : Config)
| ADict (dict : list (string * jsval)).

(** An entry of a transition list: [from] and [to], and the optional
    [prob] and [word]. *)
Record transition := {
  t_from : Z;
  t_to : Z;
  t_prob : option Q;
  t_word : option string
}.

(** What [create_fsg] and [parse_jsgf] return: the number 0, or an
    object holding the handle of the new automaton. *)
Inductive grammar :=
| Zero
| Grammar (fsg : Z).

(** An item of the word segmentation: [word], [start] and [end]. *)
Record seg_item := {
  si_word : string;
  si_start : Q;
  si_end : Q
}.

Module JsDecoder.
Section Methods.
Variable H : host.

Abbreviation JS := (M (Decoder * World)).

Definition in_world {A} (m : M World A) : JS A :=
  fun s => let (r, w') := m (snd s) in (r, (fst s, w')).

Definition this : JS Decoder := fun s => (Ok (fst s), s).

Definition set_config (c : Config) : JS unit :=
  fun s => (Ok tt, ({| config := c; initialized := initialized (fst s); ps := ps (fst s) |}, snd s)).

Definition set_initialized (b : bool) : JS unit :=
  fun s => (Ok tt, ({| config := config (fst s); initialized := b; ps := ps (fst s) |}, snd s)).

Definition set_ps (p : Z) : JS unit :=
  fun s => (Ok tt, ({| config := config (fst s); initialized := initialized (fst s); ps := p |}, snd s)).

(** [new Module.Config(...arguments)] *)
Definition new_Config (arg : config_arg) : result Config :=
  match arg with
  | NoConfig => JsConfig.constructor H None
  | AConfig c => Ok c
  | ADict dict => JsConfig.constructor H (Some dict)
  end.

(** [new Decoder(config)]: the new object, unless the constructor
    throws. *)
Definition constructor (arg : config_arg) : M World Decoder :=
  cfg <- lift (new_Config arg) ;;
  p <- ncall H _ps_init ;;
  if p =? 0 then throw (Error "Failed to construct Decoder")
  else ret {| config := cfg; initialized := false; ps := p |}.

(** Read feature parameters from acoustic model. *)
Fixpoint apply_featparams (pairs : list (string * string)) : JS unit :=
  match pairs with
  | [] => ret tt
  | kv :: rest =>
      d <- this ;;
      (if truthy (JsConfig.has (config d) (fst kv)) then
         (* Sometimes it doesn't *)
         match JsConfig.set H (config d) (fst kv) (JStr (snd kv)) with
         | (Ok _, c') => set_config c'
         | (Throw e, c') => set_config c' ;; throw e
         end
       else ret tt) ;;
      apply_featparams rest
  end.

Definition init_featparams : JS unit :=
  d <- this ;;
  featparams <- lift (JsConfig.model_path H (config d) "featparams" "feat.params") ;;
  gen <- in_world (read_featparams H featparams) ;;
  apply_featparams (yields gen) ;;
  lift (finish gen).

(** Initialize decoder configuration. *)
Definition init_config : JS unit :=
  init_featparams ;;
  d <- this ;;
  rv <- in_world (ncall H (_ps_init_config (cmd_ln (config d)))) ;;
  if rv <? 0 then throw (Error "Failed to initialize basic configuration")
  else
    rv <- in_world (ncall H _ps_init_cleanup) ;;
    if rv <? 0 then throw (Error "Failed to clean up decoder internals")
    else ret tt.

(** Create front-end from configuration. *)
Definition init_fe : JS unit :=
  rv <- in_world (ncall H _ps_init_fe) ;;
  if rv =? 0 then throw (Error "Failed to initialize frontend") else ret tt.

(** Create dynamic feature module from configuration. *)
Definition init_feat : JS unit :=
  rv <- in_world (ncall H _ps_init_feat) ;;
  if rv =? 0 then throw (Error "Failed to initialize feature module") else ret tt.

(** Create acoustic model from configuration. *)
Definition init_acmod : JS unit :=
  rv <- in_world (ncall H _ps_init_acmod_pre) ;;
  if rv =? 0 then throw (Error "Failed to initialize acoustic model") else ret tt.

(** Load binary model definition file *)
Definition load_mdef (mdef_path : jsval) : JS unit :=
  s3f <- in_world (load_to_s3file H mdef_path) ;;
  mdef <- in_world (ncall H (_bin_mdef_read_s3file s3f)) ;;
  in_world (ncall H (_s3file_free s3f)) ;;
  if mdef =? 0 then throw (Error "Failed to read mdef")
  else (in_world (ncall H (_set_mdef mdef)) ;; ret tt).

(** Load transition matrices *)
Definition load_tmat (tmat_path : jsval) : JS unit :=
  s3f <- in_world (load_to_s3file H tmat_path) ;;
  d <- this ;;
  tpfloor <- lift (JsConfig.get (config d) "tmatfloor") ;;
  tmat <- in_world (ncall H (_tmat_init_s3file s3f (ToNumber H tpfloor))) ;;
  in_world (ncall H (_s3file_free s3f)) ;;
  if tmat =? 0 then throw (Error "Failed to read tmat")
  else (in_world (ncall H (_set_tmat tmat)) ;; ret tt).

(** Load Gaussian mixture models *)
Definition load_gmm (means_path variances_path sendump_path mixw_path : jsval) : JS unit :=
  means <- in_world (load_to_s3file H means_path) ;;
  variances <- in_world (load_to_s3file H variances_path) ;;
  (* Prefer sendump if available. *)
  sm <- try_catch
          (sendump <- in_world (load_to_s3file H sendump_path) ;;
           ret (sendump, 0))
          (fun e =>
             mixw <- in_world (load_to_s3file H mixw_path) ;;
             ret (0, mixw)) ;;
  rv <- in_world (ncall H (_load_gmm means variances (snd sm) (fst sm))) ;;
  if rv <? 0 then throw (Error "Failed to load GMM parameters") else ret tt.

(** Load acoustic model files *)
Definition load_acmod_files : JS unit :=
  d <- this ;;
  mdef <- lift (JsConfig.model_path H (config d) "mdef" "mdef.bin") ;;
  load_mdef mdef ;;
  d <- this ;;
  tmat <- lift (JsConfig.model_path H (config d) "tmat" "transition_matrices") ;;
  load_tmat tmat ;;
  d <- this ;;
  means <- lift (JsConfig.model_path H (config d) "mean" "means") ;;
  variances <- lift (JsConfig.model_path H (config d) "var" "variances") ;;
  sendump <- lift (JsConfig.model_path H (config d) "sendump" "sendump") ;;
  mixw <- lift (JsConfig.model_path H (config d) "mixw" "mixture_weights") ;;
  load_gmm means variances sendump mixw ;;
  rv <- in_world (ncall H _ps_init_acmod_post) ;;
  if rv <? 0 then throw (Error "Failed to initialize acoustic scoring") else ret tt.

(** Load dictionary from configuration. *)
Definition init_dict : JS unit :=
  rv <- in_world (ncall H _ps_init_dict) ;;
  if rv =? 0 then throw (Error "Failed to initialize dictionaries") else ret tt.

(** Load grammar from configuration. *)
Definition init_grammar : JS unit :=
  rv <- in_world (ncall H _ps_init_grammar) ;;
  if rv <? 0 then throw (Error "Failed to initialize grammar") else ret tt.

(** (Re-)initialize the decoder.  The store behind a [Config] is held
    by value here: [this.config.delete()], which releases the store of
    the configuration about to be replaced, has no counterpart, and a
    [Config] whose store has been released (the decoder's own when it is
    passed back to [initialize], the old one after a construction that
    throws) is outside the model. *)
Definition initialize (arg : config_arg) : JS unit :=
  d <- this ;;
  if ps d =? 0 then throw (Error "Decoder was somehow not constructed (ps==0)")
  else
    match arg with
    | NoConfig => ret tt
    | AConfig c => set_config c
    | ADict _ => cfg <- lift (new_Config arg) ;; set_config cfg
    end ;;
    init_config ;;
    init_fe ;;
    init_feat ;;
    init_acmod ;;
    load_acmod_files ;;
    init_dict ;;
    init_grammar ;;
    set_initialized true.

(** Throw an error if decoder is not initialized. *)
Definition assert_initialized : JS unit :=
  d <- this ;;
  if negb (initialized d) then throw (Error "Decoder not yet initialized")
  else ret tt.

(** A call that returns a C string, null or not. *)
Definition ncall_str (c : call) : M World (option string) :=
  fun w =>
    let r := native_str H (trace w) c in
    (Ok r, log (c, match r with Some _ => 1 | None => 0 end) w).

(** Re-initialize only the audio feature extraction. *)
Definition reinitialize_audio : JS unit :=
  assert_initialized ;;
  in_world (ncall H _ps_reinit_fe) ;;
  ret tt.

(** Release the Emscripten memory associated with a Decoder.  The
    release of the store of [this.config] has no counterpart, as in
    [initialize]. *)
Definition delete : JS unit :=
  d <- this ;;
  (if truthy (ps d) then in_world (ncall H _ps_free) ;; ret tt else ret tt) ;;
  set_ps 0.

(** Start processing input. *)
Definition start : JS unit :=
  assert_initialized ;;
  rv <- in_world (ncall H _ps_start_utt) ;;
  if rv <? 0 then throw (Error "Failed to start utterance processing") else ret tt.

(** Finish processing input. *)
Definition stop : JS unit :=
  assert_initialized ;;
  rv <- in_world (ncall H _ps_end_utt) ;;
  if rv <? 0 then throw (Error "Failed to stop utterance processing") else ret tt.

(** Process a block of audio data, a [Float32Array]. *)
Definition process (pcm : list Q) (no_search full_utt : bool) : JS Z :=
  assert_initialized ;;
  let pcm_bytes := Z.of_nat (length pcm) * 4 in
  pcm_addr <- in_world (ncall H (_malloc pcm_bytes)) ;;
  rv <- in_world (ncall H (_ps_process_float32 pcm pcm_addr (pcm_bytes / 4)
                             no_search full_utt)) ;;
  in_world (ncall H (_free pcm_addr)) ;;
  if rv <? 0 then throw (Error "Utterance processing failed") else ret rv.

(** Get the currently recognized text. *)
Definition get_hyp : JS string :=
  assert_initialized ;;
  hyp <- in_world (ncall_str _ps_get_hyp) ;;
  ret (match hyp with Some s => s | None => EmptyString end).

(** Get the current recognition result as a word segmentation.  The
    native configuration [_ps_get_config] returns is the store of
    [this.config], which initialisation handed to the decoder; the
    walk of the iterator is the list of its segments. *)
Definition get_hypseg : JS (list seg_item) :=
  assert_initialized ;;
  segs <- in_world (fun w =>
            let l := native_segs H (trace w) in
            (Ok l, log (_ps_seg_iter, Z.of_nat (length l)) w)) ;;
  d <- this ;;
  let frate := cmd_ln_int_r (cmd_ln (config d)) "-frate" in
  ret (map (fun sg =>
              {| si_word := seg_word sg;
                 si_start := (inject_Z (seg_sf sg) / inject_Z frate)%Q;
                 si_end := (inject_Z (seg_ef sg) / inject_Z frate)%Q |}) segs).

(** Look up a word in the pronunciation dictionary. *)
Definition lookup_word (wd : string) : JS jsval :=
  assert_initialized ;;
  cpron <- in_world (ncall_str (_ps_lookup_word wd)) ;;
  ret (match cpron with None => JNull | Some s => JStr s end).

(** Add a word to the pronunciation dictionary. *)
Definition add_word (wd pron : string) (update : bool) : JS Z :=
  assert_initialized ;;
  w_id <- in_world (ncall H (_ps_add_word wd pron update)) ;;
  if w_id <? 0 then
    throw (Error ("Failed to add word " +:+ wd +:+ " with pronunciation " +:+
                  pron +:+ " to the dictionary."))
  else ret w_id.

(** The second loop of [create_fsg]. *)
Fixpoint add_transitions (fsg : Z) (transitions : list transition) : M World grammar :=
  match transitions with
  | [] => ret (Grammar fsg)
  | t :: rest =>
      let logprob :=
        match t_prob t with
        | Some p => logmath_log H p
        | None => 0
        end in
      match t_word t with
      | Some wd =>
          w_id <- fsg_model_word_add H fsg wd ;;
          if w_id =? -1 then
            (fsg_model_free fsg ;; ret Zero)
          else
            (fsg_model_trans_add fsg (int32 (t_from t)) (int32 (t_to t)) logprob w_id ;;
             add_transitions fsg rest)
      | None =>
          fsg_model_null_trans_add fsg (int32 (t_from t)) (int32 (t_to t)) logprob ;;
          add_transitions fsg rest
      end
  end.

(** Create a finite-state grammar from a list of transitions.  The
    state count is computed on numbers; the count and the state indices
    become 32-bit integers where they are passed to compiled code.  As
    in [get_hypseg], the configuration of the native decoder is the
    store of [this.config]. *)
Definition create_fsg (name : string) (start_state final_state : Z)
    (transitions : list transition) : JS grammar :=
  assert_initialized ;;
  d <- this ;;
  let lw := cmd_ln_float_r (cmd_ln (config d)) "-lw" in
  let n_state :=
    fold_left (fun n t => Z.max n (Z.max (t_from t) (t_to t))) transitions 0 in
  let n_state := n_state + 1 in
  fsg <- in_world (fsg_model_init name lw (int32 n_state)) ;;
  in_world (fsg_set_states fsg (int32 start_state) (int32 final_state)) ;;
  in_world (add_transitions fsg transitions).

Definition jsgf_parse_string (text : string) : M World (option jsgf_t) :=
  fun w =>
    let r := jsgf_parse H text in
    (Ok r, log (_jsgf_parse_string text, match r with Some _ => 1 | None => 0 end) w).

(** Create a grammar from JSGF.  The configuration of the native
    decoder is the store of [this.config], as in [create_fsg]. *)
Definition parse_jsgf (jsgf_string : string) (toprule : option string) : JS grammar :=
  assert_initialized ;;
  d <- this ;;
  let lw := cmd_ln_float_r (cmd_ln (config d)) "-lw" in
  parsed <- in_world (jsgf_parse_string jsgf_string) ;;
  match parsed with
  | None => throw (Error "Failed to parse JSGF")
  | Some jsgf =>
      rule <- match toprule with
              | Some tr =>
                  match jsgf_get_rule jsgf tr with
                  | None => throw (Error ("Failed to find top rule " +:+ tr))
                  | Some r => ret r
                  end
              | None =>
                  match jsgf_get_public_rule jsgf with
                  | None => throw (Error "No public rules found in JSGF")
                  | Some r => ret r
                  end
              end ;;
      fsg <- in_world (ncall H (_jsgf_build_fsg rule lw)) ;;
      in_world (ncall H _jsgf_grammar_free) ;;
      ret (Grammar fsg)
  end.

(** Set the grammar for recognition. *)
Definition set_fsg (g : Z) : JS unit :=
  assert_initialized ;;
  rv <- in_world (ncall H (_ps_set_fsg "_default" g)) ;;
  if negb (rv =? 0) then throw (Error "Failed to set FSG in decoder") else ret tt.
End Methods.
End JsDecoder.

(** ** [cdef class Decoder] of the Cython binding: grammars *)

(** A transition tuple: source, destination, probability and, in a
    tuple of four, the word. *)
Record py_transition := {
  p_source : Z;
  p_dest : Z;
  p_prob : Q;
  p_word : option string
}.

Module PyDecoder.
Section Methods.
Variable H : host.

(** The chain of the source and destination states of all transitions. *)
Definition chain_states (transitions : list py_transition) : list Z :=
  concat (map (fun t => [p_source t; p_dest t]) transitions).

(** [max] of a sequence, which must not be empty. *)
Definition py_max (l : list Z) : result Z :=
  match l with
  | [] => Throw (ValueError "max() arg is an empty sequence")
  | x :: rest => Ok (fold_left Z.max rest x)
  end.

(** Cython's conversion of a Python integer to a C [int], which the
    state count, the two distinguished states and the states of a
    transition undergo where they pass to the C side: a value outside
    the 32-bit range raises [OverflowError].  The declarations of the C
    functions ([_soundswallower.pxd]) are not among the sources: the
    parameters are taken to be declared [int], and the message is the
    one of a platform whose [long] has 64 bits, where a value that does
    not fit a [long] is refused by Python itself. *)
Definition as_int (v : Z) : result Z :=
  if (- 2 ^ 31 <=? v) && (v <? 2 ^ 31) then Ok v
  else if (- 2 ^ 63 <=? v) && (v <? 2 ^ 63) then
    Throw (OverflowError "value too large to convert to int")
  else Throw (OverflowError "Python int too large to convert to C long").

(** The assignments to [start_state] and to [final_state] of the
    automaton. *)
Definition assign_start (fsg s : Z) : M World unit :=
  fun w => (Ok tt, update_fsg fsg (fun g => set_states s (final_state g) g) w).

Definition assign_final (fsg f : Z) : M World unit :=
  fun w => (Ok tt, update_fsg fsg (fun g => set_states (start_state g) f g) w).

Fixpoint add_transitions (fsg : Z) (transitions : list py_transition) : M World unit :=
  match transitions with
  | [] => ret tt
  | t :: rest =>
      match p_word t with
      | Some wd =>
          w_id <- fsg_model_word_add H fsg wd ;;
          if w_id =? -1 then
            throw (RuntimeError ("Failed to add word to FSG: " +:+ wd))
          else
            (source <- lift (as_int (p_source t)) ;;
             dest <- lift (as_int (p_dest t)) ;;
             fsg_model_trans_add fsg source dest (logmath_log H (p_prob t)) w_id ;;
             add_transitions fsg rest)
      | None =>
          source <- lift (as_int (p_source t)) ;;
          dest <- lift (as_int (p_dest t)) ;;
          fsg_model_null_trans_add fsg source dest (logmath_log H (p_prob t)) ;;
          add_transitions fsg rest
      end
  end.

(** Returns the [_FsgModel], that is the handle it wraps. *)
Definition create_fsg (self : Config) (name : string) (start_state final_state : Z)
    (transitions : list py_transition) : M World Z :=
  let lw := cmd_ln_float_r (cmd_ln self) "-lw" in
  m <- lift (py_max (chain_states transitions)) ;;
  let n_state := m + 1 in
  n <- lift (as_int n_state) ;;
  fsg <- fsg_model_init name lw n ;;
  s <- lift (as_int start_state) ;;
  assign_start fsg s ;;
  f <- lift (as_int final_state) ;;
  assign_final fsg f ;;
  add_transitions fsg transitions ;;
  ret fsg.

Definition parse_jsgf (self : Config) (jsgf_string : string) (toprule : option string)
  : M World Z :=
  parsed <- JsDecoder.jsgf_parse_string H jsgf_string ;;
  match parsed with
  | None => throw (RuntimeError "Failed to parse JSGF")
  | Some jsgf =>
      rule <- match toprule with
              | Some tr =>
                  match jsgf_get_rule jsgf tr with
                  | None =>
                      ncall H _jsgf_grammar_free ;;
                      throw (RuntimeError ("Failed to find top rule " +:+ tr))
                  | Some r => ret r
                  end
              | None =>
                  match jsgf_get_public_rule jsgf with
                  | None =>
                      ncall H _jsgf_grammar_free ;;
                      throw (RuntimeError "No public rules found in JSGF")
                  | Some r => ret r
                  end
              end ;;
      let lw := cmd_ln_float_r (cmd_ln self) "-lw" in
      fsg <- ncall H (_jsgf_build_fsg rule lw) ;;
      ncall H _jsgf_grammar_free ;;
      ret fsg
  end.
End Methods.
End PyDecoder.

(** ** The stages of initialisation, in their declared order *)

Inductive stage :=
| ConfigResolved
| FrontEndReady
| FeatureModuleReady
| AcousticPreInit
| ModelDefLoaded
| TransitionMatrixLoaded
| GaussianParamsLoaded
| AcousticPostInit
| DictionaryReady
| GrammarReady.

Definition declared_order : list stage :=
  [ConfigResolved; FrontEndReady; FeatureModuleReady; AcousticPreInit;
   ModelDefLoaded; TransitionMatrixLoaded; GaussianParamsLoaded;
   AcousticPostInit; DictionaryReady; GrammarReady].

Section Sequencer.
Variable H : host.

(** The code of each stage.  Four stages are the four parts of
    [load_acmod_files], each with the path lookups that precede its
    load. *)
Definition stage_body (st : stage) : M (Decoder * World) unit :=
  match st with
  | ConfigResolved => JsDecoder.init_config H
  | FrontEndReady => JsDecoder.init_fe H
  | FeatureModuleReady => JsDecoder.init_feat H
  | AcousticPreInit => JsDecoder.init_acmod H
  | ModelDefLoaded =>
      d <- JsDecoder.this ;;
      mdef <- lift (JsConfig.model_path H (config d) "mdef" "mdef.bin") ;;
      JsDecoder.load_mdef H mdef
  | TransitionMatrixLoaded =>
      d <- JsDecoder.this ;;
      tmat <- lift (JsConfig.model_path H (config d) "tmat" "transition_matrices") ;;
      JsDecoder.load_tmat H tmat
  | GaussianParamsLoaded =>
      d <- JsDecoder.this ;;
      means <- lift (JsConfig.model_path H (config d) "mean" "means") ;;
      variances <- lift (JsConfig.model_path H (config d) "var" "variances") ;;
      sendump <- lift (JsConfig.model_path H (config d) "sendump" "sendump") ;;
      mixw <- lift (JsConfig.model_path H (config d) "mixw" "mixture_weights") ;;
      JsDecoder.load_gmm H means variances sendump mixw
  | AcousticPostInit =>
      rv <- JsDecoder.in_world (ncall H _ps_init_acmod_post) ;;
      if rv <? 0 then throw (Error "Failed to initialize acoustic scoring") else ret tt
  | DictionaryReady => JsDecoder.init_dict H
  | GrammarReady => JsDecoder.init_grammar H
  end.

(** The sequencer as the specification words it: the stages run one
    after the other, each from the state its predecessor has left, and
    the first stage that fails ends the run.  The result lists the
    stages that have completed. *)
Fixpoint run_stages (l : list stage) (s : Decoder * World)
  : list stage * (result unit * (Decoder * World)) :=
  match l with
  | [] => ([], (Ok tt, s))
  | st :: rest =>
      match stage_body st s with
      | (Ok _, s') =>
          let (done, out) := run_stages rest s' in (st :: done, out)
      | (Throw e, s') => ([], (Throw e, s'))
      end
  end.

(** The part of [initialize] that precedes the stages: the check of the
    handle and the replacement of the configuration (without the release
    of the one replaced, as in [JsDecoder.initialize]). *)
Definition prelude (arg : config_arg) : M (Decoder * World) unit :=
  d <- JsDecoder.this ;;
  if ps d =? 0 then throw (Error "Decoder was somehow not constructed (ps==0)")
  else
    match arg with
    | NoConfig => ret tt
    | AConfig c => JsDecoder.set_config c
    | ADict _ => cfg <- lift (JsDecoder.new_Config H arg) ;; JsDecoder.set_config cfg
    end.

(** The stage a call into the decoder belongs to; allocation and file
    access belong to none in particular. *)
Definition stage_of_call (c : call) : option stage :=
  match c with
  | _ps_init_config _ | _ps_init_cleanup => Some ConfigResolved
  | _ps_init_fe => Some FrontEndReady
  | _ps_init_feat => Some FeatureModuleReady
  | _ps_init_acmod_pre => Some AcousticPreInit
  | _bin_mdef_read_s3file _ | _set_mdef _ => Some ModelDefLoaded
  | _tmat_init_s3file _ _ | _set_tmat _ => Some TransitionMatrixLoaded
  | _load_gmm _ _ _ _ => Some GaussianParamsLoaded
  | _ps_init_acmod_post => Some AcousticPostInit
  | _ps_init_dict => Some DictionaryReady
  | _ps_init_grammar => Some GrammarReady
  | _ => None
  end.
End Sequencer.

(** ** The operations of a decoder, for sequences of calls *)

Inductive op :=
| OpInitialize (arg : config_arg)
| OpReinitializeAudio
| OpDelete
| OpStart
| OpStop
| OpProcess (pcm : list Q) (no_search full_utt : bool)
| OpGetHyp
| OpGetHypseg
| OpLookupWord (wd : string)
| OpAddWord (wd pron : string) (update : bool)
| OpCreateFsg (name : string) (start_state final_state : Z) (transitions : list transition)
| OpParseJsgf (jsgf_string : string) (toprule : option string)
| OpSetFsg (g : Z).

Section Calls.
Variable H : host.

(** Forget the value a method returns. *)
Definition void {S A} (m : M S A) : M S unit := _ <- m ;; ret tt.

Definition run_op (o : op) : M (Decoder * World) unit :=
  match o with
  | OpInitialize arg => JsDecoder.initialize H arg
  | OpReinitializeAudio => JsDecoder.reinitialize_audio H
  | OpDelete => JsDecoder.delete H
  | OpStart => JsDecoder.start H
  | OpStop => JsDecoder.stop H
  | OpProcess pcm no_search full_utt => void (JsDecoder.process H pcm no_search full_utt)
  | OpGetHyp => void (JsDecoder.get_hyp H)
  | OpGetHypseg => void (JsDecoder.get_hypseg H)
  | OpLookupWord wd => void (JsDecoder.lookup_word H wd)
  | OpAddWord wd pron update => void (JsDecoder.add_word H wd pron update)
  | OpCreateFsg name s f ts => void (JsDecoder.create_fsg H name s f ts)
  | OpParseJsgf text toprule => void (JsDecoder.parse_jsgf H text toprule)
  | OpSetFsg g => void (JsDecoder.set_fsg H g)
  end.

(** A caller's sequence of calls: every call runs, whether or not an
    earlier one has thrown; the outcomes are collected. *)
Fixpoint run_ops (l : list op) (s : Decoder * World)
  : list (result unit) * (Decoder * World) :=
  match l with
  | [] => ([], s)
  | o :: rest =>
      let (r, s') := run_op o s in
      let (rs, s'') := run_ops rest s' in
      (r :: rs, s'')
  end.
End Calls.

(** ** The fatal-error macros of [err.h] *)

Inductive err_lvl_t :=
| ERR_DEBUG
| ERR_INFO
| ERR_WARN
| ERR_ERROR
| ERR_FATAL
| ERR_MAX.

Definition lvl_rank (l : err_lvl_t) : Z :=
  match l with
  | ERR_DEBUG => 0
  | ERR_INFO => 1
  | ERR_WARN => 2
  | ERR_ERROR => 3
  | ERR_FATAL => 4
  | ERR_MAX => 5
  end.

(** An entry of the diagnostic stream. *)
Record diagnostic := {
  d_lvl : err_lvl_t;
  d_path : option string;
  d_ln : Z;
  d_text : string;
  d_system : bool
}.

(** The hosting process: the minimum logging level and the stream. *)
Record process := {
  loglevel : err_lvl_t;
  stream : list diagnostic
}.

(** A C statement either returns to what follows it or ends the
    process with a status. *)
Inductive outcome (A : Type) :=
| Returns (a : A)
| Exits (status : Z).
Arguments Returns {A} a.
Arguments Exits {A} status.

Definition C (A : Type) : Type := process -> outcome A * process.

Definition seq {A B} (m : C A) (k : A -> C B) : C B :=
  fun p =>
    match m p with
    | (Returns a, p') => k a p'
    | (Exits st, p') => (Exits st, p')
    end.

Definition ret_ {A} (a : A) : C A := fun p => (Returns a, p).

(** [exit] of the C library, and the value of [EXIT_FAILURE] on the
    platforms the library is built for. *)
Definition exit {A} (status : Z) : C A := fun p => (Exits status, p).
Definition EXIT_FAILURE : Z := 1.

(** Modelled from the spec: [err_msg] and [err_msg_system] of [err.c],
    which is not among the sources; an entry of the process-wide
    diagnostic stream is written unless its level is below the minimum
    logging level. *)
Definition emit (d : diagnostic) : C unit :=
  fun p =>
    (Returns tt,
     if lvl_rank (d_lvl d) <? lvl_rank (loglevel p) then p
     else {| loglevel := loglevel p; stream := stream p ++ [d] |}).

Definition err_msg (lvl : err_lvl_t) (path : option string) (ln : Z) (text : string) : C unit :=
  emit {| d_lvl := lvl; d_path := path; d_ln := ln; d_text := text; d_system := false |}.

Definition err_msg_system (lvl : err_lvl_t) (path : option string) (ln : Z) (text : string) : C unit :=
  emit {| d_lvl := lvl; d_path := path; d_ln := ln; d_text := text; d_system := true |}.

(** The macros; [file] and [line] are [__FILE__] and [__LINE__] where
    the macro is expanded. *)
Definition E_FATAL {A} (file : string) (line : Z) (text : string) : C A :=
  seq (err_msg ERR_FATAL (Some file) line text) (fun _ => exit EXIT_FAILURE).

Definition E_FATAL_SYSTEM {A} (file : string) (line : Z) (text : string) : C A :=
  seq (err_msg_system ERR_FATAL (Some file) line text) (fun _ => exit EXIT_FAILURE).

Definition E_SYSCALL (stmt : Z) (file : string) (line : Z) (text : string) : C unit :=
  if truthy stmt then E_FATAL_SYSTEM file line text else ret_ tt.

Definition E_ERROR (file : string) (line : Z) (text : string) : C unit :=
  err_msg ERR_ERROR (Some file) line text.

Definition E_ERROR_SYSTEM (file : string) (line : Z) (text : string) : C unit :=
  err_msg_system ERR_ERROR (Some file) line text.

Definition E_WARN (file : string) (line : Z) (text : string) : C unit :=
  err_msg ERR_WARN (Some file) line text.

Definition E_INFO (file : string) (line : Z) (text : string) : C unit :=
  err_msg ERR_INFO (Some file) line text.

Definition E_INFOCONT (text : string) : C unit :=
  err_msg ERR_INFO None 0 text.

(** ** Iteration over the parameters of a configuration *)

Module JsConfigKeys.

(** The generator [*[Symbol.iterator]()], consumed to its end.  [itor]
    is what is left of the walk of [_cmd_ln_hash_iter] through the names
    of the table, and [seen] the set of the keys yielded so far.  One
    unit of [fuel] is one turn of the [while] loop; the result is the
    keys yielded, in order, and whether the loop has ended.  A turn that
    takes the [continue] leaves the iterator where it is. *)
Fixpoint iterator (fuel : nat) (itor : list string) (seen : gset string)
  : list string * bool :=
  match fuel with
  | O => ([], false)
  | S fuel' =>
      match itor with
      | [] => ([], true)
      | ckey :: next =>
          let key := JsConfig.normalize_ckey ckey in
          if bool_decide (key ∈ seen) then iterator fuel' itor seen
          else
            let (ys, ended) := iterator fuel' next ({[key]} ∪ seen) in
            (key :: ys, ended)
      end
  end.

End JsConfigKeys.

Module PyConfigKeys.

(** [_normalize_ckey]: the function ends without a [return] for a name
    that has no prefix, so that its result is [None] then. *)
Definition _normalize_ckey (ckey : string) : option string :=
  match ckey with
  | EmptyString => Some ckey
  | String k0 rest =>
      if Ascii.eqb k0 "-" || Ascii.eqb k0 "_" then Some rest else None
  end.

(** [__iter__] collects the keys in a set, of which it returns an
    iterator; [ht] is the walk of [hash_table_iter] through the names
    of the table. *)
Definition __iter__ (ht : list string) : gset (option string) :=
  fold_left (fun keys ckey => {[_normalize_ckey ckey]} ∪ keys) ht ∅.

(** [sum(1 for _ in self)] *)
Definition __len__ (ht : list string) : nat := size (__iter__ ht).

(** [exists] is [key in self]. *)
Definition exists_ (self : Config) (key : string) : bool :=
  PyConfig.__contains__ self key.

End PyConfigKeys.

(** ** The constructor of the Cython [Config] *)

Module PyConfigInit.
Section Methods.
(** Python's [str] and the parser of [cmd_ln.c], which returns the
    table it has built or a null pointer. *)
Variable str : pyval -> string.
Variable cmd_ln_parse_r : list (option string) -> option cmd_ln_t.

(** The loop over the keyword arguments, appending to [args]. *)
Fixpoint append_kwargs (args : list (option string)) (kwargs : list (string * pyval))
  : list (option string) :=
  match kwargs with
  | [] => args
  | (k, v) :: rest =>
      let k :=
        match k with
        | String k0 _ => if negb (Ascii.eqb k0 "-") then "-" +:+ k else k
        | EmptyString => k
        end in
      let args := args ++ [Some k] in
      let args :=
        match v with
        | PyNone => args ++ [None]
        | _ => args ++ [Some (str v)]
        end in
      append_kwargs args rest
  end.

(** [__cinit__]: the pointer it stores in [self.cmd_ln]. *)
Definition __cinit__ (args : list pyval) (kwargs : list (string * pyval)) : option cmd_ln_t :=
  match args, kwargs with
  | [], [] => cmd_ln_parse_r []
  | _, _ =>
      let args := map (fun k => Some (str k)) args in
      let args := append_kwargs args kwargs in
      cmd_ln_parse_r args
  end.
End Methods.
End PyConfigInit.

(** ** [load_model]: a model in Emscripten's file system *)

(** The requests [load_model] makes to the file system of the runtime,
    with the arguments it passes. *)
Inductive fs_op :=
| FS_createPath (parent path : string) (canRead canWrite : bool)
| FS_createLazyFile (parent name url : string) (canRead canWrite : bool)
| FS_createPreloadedFile (parent name url : string) (canRead canWrite : bool).

(** The host with another table of model paths. *)
Definition with_model_paths (mp : gmap string string) (H : host) : host :=
  {| defaultModel := defaultModel H;
     model_paths := mp;
     RUNNING_ON_WEB := RUNNING_ON_WEB H;
     ps_args := ps_args H;
     native := native H;
     native_str := native_str H;
     native_segs := native_segs H;
     readFile := readFile H;
     fetch_response := fetch_response H;
     logmath_log := logmath_log H;
     vocab_alloc := vocab_alloc H;
     jsgf_parse := jsgf_parse H;
     ToNumber_other := ToNumber_other H;
     UTF8_other := UTF8_other H;
     ToString_other := ToString_other H;
     py_as_long := py_as_long H;
     py_as_double := py_as_double H |}.

Section LoadModel.
Variable H : host.
(** Node's [fs.statSync(p, { throwIfNoEntry: false })], as the truth
    value the code tests, and Node's [path.join]. *)
Variable statSync : string -> bool.
Variable join : string -> string -> string.

(** [files.push(entry)] under a condition. *)
Definition push_if (cond : bool) (entry : string * string * string)
    (files : list (string * string * string)) : list (string * string * string) :=
  if cond then files ++ [entry] else files.

(** The result is the host with the model path recorded in
    [Module.model_paths], and the requests made, in order; what the
    runtime makes of a request is outside the model.  The assignment of
    a string to the property [__proto__] of an object is ignored; under
    any other name it makes or replaces a property of the object. *)
Definition load_model (model_name model_path : string) (dict_path : option string)
  : host * list fs_op :=
  let H' :=
    if String.eqb model_name "__proto__" then H
    else with_model_paths (<[model_name := model_path]> (model_paths H)) H in
  let dest_model_dir := "/" +:+ model_name in
  let folders := [("/", model_name)] in
  let files :=
    [(dest_model_dir, "means", model_path +:+ "/means");
     (dest_model_dir, "transition_matrices", model_path +:+ "/transition_matrices");
     (dest_model_dir, "variances", model_path +:+ "/variances");
     (dest_model_dir, "noisedict", model_path +:+ "/noisedict")] in
  (* Lazy-load on the Web, pre-load on Node *)
  let files :=
    if RUNNING_ON_WEB H then
      files ++
      [(dest_model_dir, "mdef", model_path +:+ "/mdef");
       (dest_model_dir, "mdef.txt", model_path +:+ "/mdef.txt");
       (dest_model_dir, "mdef.bin", model_path +:+ "/mdef.bin");
       (dest_model_dir, "sendump", model_path +:+ "/sendump");
       (dest_model_dir, "phoneset.txt", model_path +:+ "/phoneset.txt");
       (dest_model_dir, "mixture_weights", model_path +:+ "/mixture_weights")]
    else
      (* Can't pre-load a file that doesn't exist *)
      let sendump_path := join model_path "sendump" in
      let files := push_if (statSync sendump_path)
                     (dest_model_dir, "sendump", sendump_path) files in
      let mixw_path := join model_path "mixture_weights" in
      let files := push_if (statSync mixw_path)
                     (dest_model_dir, "mixture_weights", mixw_path) files in
      let mdef_path := join model_path "mdef.bin" in
      let files := push_if (statSync mdef_path)
                     (dest_model_dir, "mdef.bin", mdef_path) files in
      let mdef_path := join model_path "mdef.txt" in
      let files := push_if (statSync mdef_path)
                     (dest_model_dir, "mdef.txt", mdef_path) files in
      let mdef_path := join model_path "mdef" in
      let files := push_if (statSync mdef_path)
                     (dest_model_dir, "mdef", mdef_path) files in
      let phoneset_path := join model_path "phoneset.txt" in
      let files := push_if (statSync mdef_path)
                     (dest_model_dir, "phoneset.txt", mdef_path) files in
      files in
  let files :=
    match dict_path with
    | Some dict_path => files ++ [(dest_model_dir, "dict.txt", dict_path)]
    | None =>
        if RUNNING_ON_WEB H then
          files ++ [(dest_model_dir, "dict.txt", model_path +:+ "/dict.txt")]
        else
          let dict_path := join model_path "dict.txt" in
          push_if (statSync dict_path) (dest_model_dir, "dict.txt", dict_path) files
    end in
  (H',
   map (fun folder => FS_createPath (fst folder) (snd folder) true true) folders
   ++ map (fun file =>
             match file with
             | (parent, name, url) =>
                 if RUNNING_ON_WEB H then FS_createLazyFile parent name url true true
                 else FS_createPreloadedFile parent name url true true
             end) files).
End LoadModel.

(** ** Notions the statements below are phrased in *)

(** The names under which a key as the caller writes it may be looked
    up: an underscore key only as it is, a dash key as underscore or
    dash, a key without prefix as underscore, dash, or as it is. *)
Definition spellings (key : string) : list string :=
  match key with
  | String k0 rest =>
      if Ascii.eqb k0 "_" then [key]
      else if Ascii.eqb k0 "-" then ["_" +:+ rest; key]
      else ["_" +:+ key; "-" +:+ key; key]
  | EmptyString => [key]
  end.

(** A key is a known parameter when the store has one of its spellings. *)
Definition known (c : Config) (key : string) : bool :=
  existsb (fun k => truthy (cmd_ln_exists_r (cmd_ln c) k)) (spellings key).

(** A key without prefix: not empty, and its first character neither
    underscore nor dash. *)
Definition plain (b : string) : bool :=
  match b with
  | String k0 _ => negb (Ascii.eqb k0 "_") && negb (Ascii.eqb k0 "-")
  | EmptyString => false
  end.

(** What [get] returns for a parameter of a kind after [set] has
    written [v] to it. *)
Definition stored_as (H : host) (k : arg_kind) (v : jsval) : result jsval :=
  match k with
  | KString =>
      match allocateUTF8OnStack H v with
      | Ok s => Ok (JStr s)
      | Throw e => Throw e
      end
  | KFloating => Ok (JNum (ToNumber H v))
  | KInteger => Ok (JNum (inject_Z (ToInt32 H v)))
  | KBoolean => Ok (JBool (truthy (ToInt32 H v)))
  end.

(** A small store and small hosts for the examples; every call into
    the decoder returns 1. *)
Definition str_param (d : option string) : cmd_ln_val_t :=
  {| val := Ptr d; kind := KString; required := false |}.
Definition float_param (d : Q) : cmd_ln_val_t :=
  {| val := Fl d; kind := KFloating; required := false |}.
Definition int_param (d : Z) : cmd_ln_val_t :=
  {| val := Int d; kind := KInteger; required := false |}.
Definition bool_param (d : bool) : cmd_ln_val_t :=
  {| val := Int (if d then 1 else 0); kind := KBoolean; required := false |}.

Definition demo_args : cmd_ln_t :=
  list_to_map
    [("-hmm", str_param None); ("-featparams", str_param None);
     ("-mdef", str_param None); ("-tmat", str_param None);
     ("-mean", str_param None); ("-var", str_param None);
     ("-sendump", str_param None); ("-mixw", str_param None);
     ("-tmatfloor", float_param (1 # 10000)); ("-lw", float_param (13 # 2));
     ("-frate", int_param 100); ("-remove_noise", bool_param true);
     ("_nfft", int_param 512)].

Definition demo_rules : jsgf_t :=
  [{| rule_name := "<g.digit>"; rule_public := false |};
   {| rule_name := "<g.order>"; rule_public := true |}].

(** The number a string of decimal digits converts to.  The examples
    convert no other string to a number (it would give NaN). *)
Fixpoint digits_value (acc : Z) (l : list ascii) : option Z :=
  match l with
  | [] => Some acc
  | c :: r =>
      let n := nat_of_ascii c in
      if ((48 <=? n) && (n <=? 57))%nat
      then digits_value (10 * acc + Z.of_nat (n - 48)) r
      else None
  end.

Definition decimal (s : string) : Q :=
  match digits_value 0 (list_ascii_of_string s) with
  | Some z => inject_Z z
  | None => 0%Q
  end.

(** What the lookup of a property finds on an object literal that has
    no property of its own: the names of [Object.prototype], each with
    the string its value concatenates as (a built-in function as V8
    prints it). *)
Definition builtin (name : string) : string * string :=
  (name, "function " +:+ name +:+ "() { [native code] }").

Definition Object_prototype : gmap string string :=
  list_to_map
    [("constructor", "function Object() { [native code] }");
     ("__proto__", "[object Object]");
     builtin "__defineGetter__"; builtin "__defineSetter__";
     builtin "__lookupGetter__"; builtin "__lookupSetter__";
     builtin "hasOwnProperty"; builtin "isPrototypeOf";
     builtin "propertyIsEnumerable"; builtin "toLocaleString";
     builtin "toString"; builtin "valueOf"].

(** The hosts of the examples differ in the files they hold and in
    whether a word table can grow. *)
Definition host_with (files : jsval -> result string)
    (alloc : list string -> string -> bool) : host :=
  {| defaultModel := Some "en-us";
     model_paths := Object_prototype;
     RUNNING_ON_WEB := false;
     ps_args := demo_args;
     native := fun _ _ => 1;
     native_str := fun _ _ => None;
     native_segs := fun _ => [];
     readFile := files;
     fetch_response := fun _ => Throw (TypeError "fetch failed");
     logmath_log := fun p => if Qeq_bool p 1 then 0 else -1;
     vocab_alloc := alloc;
     jsgf_parse := fun _ => Some demo_rules;
     ToNumber_other := fun v => match v with JStr s => decimal s | _ => 0%Q end;
     UTF8_other := fun _ => Ok EmptyString;
     ToString_other := fun _ => "?";
     py_as_long := fun v => match v with
                            | PyInt i => Ok i
                            | _ => Throw (TypeError "an integer is required")
                            end;
     py_as_double := fun v => match v with
                              | PyFloat x => Ok x
                              | _ => Throw (TypeError "a float is required")
                              end |}.

Definition no_files : jsval -> result string :=
  fun _ => Throw (Error "ENOENT: no such file or directory").

(** The parameter file of the example model. *)
Definition demo_featparams : string := "-lw 7
-upperf 6800 # not a parameter of the store
-frate 50".

(** A model directory: a parameter file and the model files, with or
    without the compact Gaussian file. *)
Definition model_files (with_sendump : bool) : jsval -> result string :=
  fun path =>
    match path with
    | JStr "en-us/feat.params" => Ok demo_featparams
    | JStr "en-us/sendump" =>
        if with_sendump then Ok "s3" else Throw (Error "ENOENT: no such file or directory")
    | JStr _ => Ok "s3"
    | _ => Throw (Error "ENOENT: no such file or directory")
    end.

Definition demo_host : host := host_with no_files (fun _ _ => true).

(** A host whose word tables hold one word only. *)
Definition tight_host : host := host_with no_files (fun v _ => (length v <? 1)%nat).

Definition model_host : host := host_with (model_files true) (fun _ _ => true).

Definition raw_only_host : host := host_with (model_files false) (fun _ _ => true).

Definition demo_config : Config := {| cmd_ln := demo_args |}.

(** The example store with the default model as its [hmm], and a
    decoder constructed on it. *)
Definition model_config : Config :=
  {| cmd_ln := cmd_ln_set_str_r demo_args "-hmm" (Some "en-us") |}.

Definition empty_world : World := {| trace := []; fsg_heap := [] |}.

(** ** Auxiliary notions of the proofs and data of the examples *)

(** The member of the union that [set] writes for a value, by the kind
    of the parameter. *)
Definition written (H : host) (k : arg_kind) (v : jsval) (a : anytype) : Prop :=
  match k with
  | KString => exists s, allocateUTF8OnStack H v = Ok s /\ a = Ptr (Some s)
  | KFloating => a = Fl (ToNumber H v)
  | KInteger | KBoolean => a = Int (ToInt32 H v)
  end.

(** The pure content of the loop of [init_featparams]: a pair is
    written when the store has its key as written. *)
Definition overlay (H : host) (c : Config) (pairs : list (string * string)) : Config :=
  fold_left
    (fun c kv =>
       if truthy (JsConfig.has c (fst kv))
       then snd (JsConfig.set H c (fst kv) (JStr (snd kv)))
       else c)
    pairs c.

Definition with_config (c : Config) (d : Decoder) : Decoder :=
  {| config := c; initialized := initialized d; ps := ps d |}.

(** The keys and values the constructor of [Config] writes over the
    defaults: those of the caller and, unless the caller gives [hmm], the
    default model. *)
Definition given (H : host) (dict : option (list (string * jsval))) : list (string * jsval) :=
  match dict, defaultModel H with
  | None, Some m => [("hmm", JStr m)]
  | None, None => []
  | Some dict, Some m =>
      if JsConfig.in_dict "hmm" dict then dict else dict ++ [("hmm", JStr m)]
  | Some dict, None => dict
  end.

(** A transition tuple as the loops of both bindings pass it on:
    source, destination (32-bit integers by then), log-probability and
    the optional word. *)
Definition tuple : Type := Z * Z * Z * option string.

Definition js_tuple (H : host) (t : transition) : tuple :=
  (int32 (t_from t), int32 (t_to t),
   match t_prob t with Some p => logmath_log H p | None => 0 end,
   t_word t).

Definition py_tuple (H : host) (t : py_transition) : tuple :=
  (p_source t, p_dest t, logmath_log H (p_prob t), p_word t).

Definition tuple_word (x : tuple) : option string := snd x.

(** The word table after [add_word] of a text: the text is appended
    unless the table has it. *)
Definition table_add (v : list string) (wd : string) : list string :=
  if fsg_model_word_id v wd =? -1 then v ++ [wd] else v.

(** The transition a tuple becomes, its word looked up in a word table. *)
Definition link_in (v : list string) (x : tuple) : fsg_link_t :=
  match x with
  | (src, dst, logp, wd) =>
      {| from_state := src; to_state := dst; logs2prob := logp;
         wid := option_map (fsg_model_word_id v) wd |}
  end.

(** One step of either loop on the automaton itself, when the word
    table can grow. *)
Definition add_tuple (g : fsg_model_t) (x : tuple) : fsg_model_t :=
  match x with
  | (src, dst, logp, Some wd) =>
      let v := table_add (vocab g) wd in
      add_transition src dst logp (fsg_model_word_id v wd) (with_vocab v g)
  | (src, dst, logp, None) => add_null_transition src dst logp g
  end.

(** [m] is the maximum of a list of state indices. *)
Definition is_max (m : Z) (l : list Z) : Prop :=
  In m l /\ Forall (fun x => x <= m) l.

Definition js_states (ts : list transition) : list Z :=
  concat (map (fun t => [t_from t; t_to t]) ts).

(** The automaton compiled from a list of tuples with start state [s]
    and final state [f]: the state count is one plus the maximum of the
    state indices the tuples refer to, the word table is what [add_word]
    of every present word, in order, makes of the empty table, and the
    transitions are the tuples, each with its word looked up in that
    table. *)
Definition compiled (xs : list tuple) (states : list Z) (s f : Z) (g : fsg_model_t) : Prop :=
  (exists m, is_max m states /\ n_state g = m + 1)
  /\ start_state g = s
  /\ final_state g = f
  /\ vocab g = fold_left table_add (omap tuple_word xs) []
  /\ trans g = map (link_in (vocab g)) xs.

Definition ready_decoder : Decoder :=
  {| config := demo_config; initialized := true; ps := 1 |}.

Definition model_decoder : Decoder :=
  {| config := model_config; initialized := false; ps := 1 |}.

Definition ab_transitions : list transition :=
  [{| t_from := 0; t_to := 1; t_prob := Some 1%Q; t_word := Some "a" |};
   {| t_from := 1; t_to := 2; t_prob := Some 1%Q; t_word := Some "b" |}].

Definition ab_tuples : list py_transition :=
  [{| p_source := 0; p_dest := 1; p_prob := 1%Q; p_word := Some "a" |};
   {| p_source := 1; p_dest := 2; p_prob := 1%Q; p_word := Some "b" |}].

(** The automaton the example of the specification must yield. *)
Definition ab_automaton (g : fsg_model_t) : Prop :=
  n_state g = 3
  /\ start_state g = 0
  /\ final_state g = 2
  /\ vocab g = ["a"; "b"]
  /\ fsg_model_word_id (vocab g) "a" = 0
  /\ fsg_model_word_id (vocab g) "b" = 1
  /\ trans g = [{| from_state := 0; to_state := 1; logs2prob := 0; wid := Some 0 |};
                {| from_state := 1; to_state := 2; logs2prob := 0; wid := Some 1 |}].

(** The world after a textual grammar has been parsed, the automaton of
    a rule has been built and the parsed grammar has been released. *)
Definition built (H : host) (lw : Q) (r : jsgf_rule_t) (w1 : World) : World :=
  let w2 := log (_jsgf_build_fsg r lw, native H (trace w1) (_jsgf_build_fsg r lw)) w1 in
  log (_jsgf_grammar_free, native H (trace w2) _jsgf_grammar_free) w2.

(** Stages that complete one after the other, each from the state its
    predecessor has left. *)
Inductive chain (H : host) : list stage -> Decoder * World -> Decoder * World -> Prop :=
| chain_nil s : chain H [] s s
| chain_cons st l s s' s'' :
    stage_body H st s = (Ok tt, s') ->
    chain H l s' s'' ->
    chain H (st :: l) s s''.

Definition mark_initialized (s : Decoder * World) : Decoder * World :=
  ({| config := config (fst s); initialized := true; ps := ps (fst s) |}, snd s).

(** The stages of the decoder calls in a stretch of the history, and the
    place of a stage in the declared order. *)
Definition stages_of (evs : list event) : list stage :=
  omap (fun ev => stage_of_call (fst ev)) evs.

Definition rank (st : stage) : nat :=
  match st with
  | ConfigResolved => 0
  | FrontEndReady => 1
  | FeatureModuleReady => 2
  | AcousticPreInit => 3
  | ModelDefLoaded => 4
  | TransitionMatrixLoaded => 5
  | GaussianParamsLoaded => 6
  | AcousticPostInit => 7
  | DictionaryReady => 8
  | GrammarReady => 9
  end.

(** The decoder calls of a stretch of the history are in stage order. *)
Definition in_stage_order (evs : list event) : Prop :=
  StronglySorted (fun a b => (rank a <= rank b)%nat) (stages_of evs).

(** A method that leaves the flag of the decoder as it is. *)
Definition keeps_flag {A} (m : M (Decoder * World) A) : Prop :=
  forall s, initialized (fst (snd (m s))) = initialized (fst s).

Definition quiet_process : process := {| loglevel := ERR_INFO; stream := [] |}.

(** ** Further notions of the statements *)

(** The tokens of a line that precede a token [#]. *)
Fixpoint before_hash (tokens : list string) : list string :=
  match tokens with
  | [] => []
  | t :: rest => if String.eqb t "#" then [] else t :: before_hash rest
  end.

(** Tokens taken two by two, the first of a pair being the key; [key]
    is a key still waiting for its value. *)
Fixpoint pair_up (key : option string) (tokens : list string)
  : option string * list (string * string) :=
  match tokens with
  | [] => (key, [])
  | t :: rest =>
      match key with
      | Some k => let (key', ys) := pair_up None rest in (key', (k, t) :: ys)
      | None => pair_up (Some t) rest
      end
  end.

(** The tokens of a text that are outside comments, line by line. *)
Definition effective_tokens (fpdata : string) : list string :=
  concat (map (fun line => before_hash (matchAll_args (trim line)))
              (lines_from [] (list_ascii_of_string fpdata))).

(** The pairs of a parameter file with the text [fpdata]. *)
Definition file_pairs (fpdata : string) : list (string * string) :=
  snd (pair_up None (effective_tokens fpdata)).

(** The parameter file [featparams] can be read on the host, and its
    text is [fpdata]: under Node by [fs.readFile], on the Web by a
    request that is answered [ok]. *)
Definition reads_as (H : host) (featparams : jsval) (fpdata : string) : Prop :=
  if RUNNING_ON_WEB H
  then exists statusText, fetch_response H featparams = Ok (true, statusText, fpdata)
  else readFile H featparams = Ok fpdata.

(** A state index the 32-bit parameters of the decoder hold as it is,
    and one that leaves room for the state count above it. *)
Definition fits_int (n : Z) : Prop := - 2 ^ 31 <= n < 2 ^ 31.

Definition state_index (n : Z) : Prop := 0 <= n < 2 ^ 31 - 1.

(** What [__getitem__] returns for a parameter of a kind after
    [__setitem__] has written [v] to it, or the exception of a value
    that cannot be written. *)
Definition py_stored_as (H : host) (k : arg_kind) (v : pyval) : result pyval :=
  match k with
  | KString =>
      match v with
      | PyNone => Ok PyNone
      | _ => match PyConfig.encode v with
             | Ok s => Ok (PyStr s)
             | Throw e => Throw e
             end
      end
  | KInteger =>
      match py_as_long H v with
      | Ok i => Ok (PyInt i)
      | Throw e => Throw e
      end
  | KFloating =>
      match py_as_double H v with
      | Ok x => Ok (PyFloat x)
      | Throw e => Throw e
      end
  | KBoolean => Ok (PyBool (PyConfig.ne_zero v))
  end.

(** A token that stands for itself on a line: not empty, without a
    blank, and not beginning with a quote. *)
Definition bare_token (t : string) : bool :=
  match list_ascii_of_string t with
  | [] => false
  | c :: _ =>
      negb (is_dquote c) && negb (is_squote c)
      && forallb (fun x => negb (is_space x)) (list_ascii_of_string t)
  end.

(** The file a request creates: its directory, its name and where its
    contents come from. *)
Definition requested_file (o : fs_op) : option (string * string * string) :=
  match o with
  | FS_createPath _ _ _ _ => None
  | FS_createLazyFile parent name url _ _ => Some (parent, name, url)
  | FS_createPreloadedFile parent name url _ _ => Some (parent, name, url)
  end.

(** The request for a file as [load_model] makes it on a host. *)
Definition file_request (H : host) (parent name url : string) : fs_op :=
  if RUNNING_ON_WEB H then FS_createLazyFile parent name url true true
  else FS_createPreloadedFile parent name url true true.


(** A method that leaves the handle of the decoder as it is. *)
Definition keeps_handle {A} (m : M (Decoder * World) A) : Prop :=
  forall s, ps (fst (snd (m s))) = ps (fst s).

(** The operation is a call of [delete]. *)
Definition is_delete (o : op) : bool :=
  match o with OpDelete => true | _ => false end.

(** Positional arguments that stand for keyword arguments: each name,
    with a dash before it unless it has one, and then its value. *)
Definition as_arguments (kwargs : list (string * pyval)) : list pyval :=
  flat_map (fun kv =>
              [PyStr (match fst kv with
                      | String k0 _ =>
                          if negb (Ascii.eqb k0 "-") then "-" +:+ fst kv else fst kv
                      | EmptyString => fst kv
                      end);
               snd kv]) kwargs.

(** The files of a list are in a directory, and their names are among
    those of a list of names, in that order. *)
Definition files_within (dir : string) (names : list string)
    (files : list (string * string * string)) : Prop :=
  sublist (map (fun f => snd (fst f)) files) names
  /\ Forall (fun f => fst (fst f) = dir) files.

(** A method that leaves the configuration of the decoder as it is. *)
Definition keeps_config {A} (m : M (Decoder * World) A) : Prop :=
  forall s, config (fst (snd (m s))) = config (fst s).

(** * Properties *)

(** ** The configuration store *)

Lemma type_ne_0 (e : cmd_ln_val_t) : (type e =? 0) = false.
Proof. destruct e as [v [] []]; reflexivity. Qed.

Lemma exists_lookup (c : cmd_ln_t) (k : string) :
  truthy (cmd_ln_exists_r c k) = true <-> is_Some (c !! k).
Proof.
  unfold cmd_ln_exists_r. destruct (c !! k) as [e|]; cbn; split; intros HH;
    try reflexivity; try discriminate; eauto.
  destruct HH as [x Hx]; discriminate.
Qed.

Lemma not_exists_lookup (c : cmd_ln_t) (k : string) :
  truthy (cmd_ln_exists_r c k) = false <-> c !! k = None.
Proof.
  unfold cmd_ln_exists_r. destruct (c !! k) as [e|]; cbn; split; intros HH;
    try reflexivity; discriminate.
Qed.

Lemma type_r_0 (c : cmd_ln_t) (k : string) :
  (cmd_ln_type_r c k =? 0) = true <-> c !! k = None.
Proof.
  unfold cmd_ln_type_r. destruct (c !! k) as [e|].
  - rewrite type_ne_0. split; discriminate.
  - split; reflexivity.
Qed.

(** The key [normalize_key] settles on is one of the spellings, the
    first the store has, and the key as written when it has none. *)
Lemma js_normalize_key_unknown (c : Config) (key : string) :
  known c key = false -> cmd_ln c !! JsConfig.normalize_key c key = None.
Proof.
  unfold known, spellings, JsConfig.normalize_key, JsConfig.has.
  destruct key as [|k0 rest]; cbn [existsb].
  - rewrite orb_false_r. apply not_exists_lookup.
  - destruct (Ascii.eqb k0 "_"); [|destruct (Ascii.eqb k0 "-")]; cbn [existsb];
      rewrite ?orb_false_r, ?orb_false_iff; intros HH.
    + now apply not_exists_lookup.
    + destruct HH as [H1 H2]. rewrite H1. now apply not_exists_lookup.
    + destruct HH as [H1 [H2 H3]]. rewrite H1, H2. now apply not_exists_lookup.
Qed.

Lemma py_normalize_key_eq (c : Config) (key : string) :
  PyConfig._normalize_key c key = JsConfig.normalize_key c key.
Proof. destruct key; reflexivity. Qed.

(** The tests of the type word pick out the kind. *)
Lemma type_tests (e : cmd_ln_val_t) :
  truthy (Z.land (type e) ARG_STRING) = match kind e with KString => true | _ => false end
  /\ truthy (Z.land (type e) ARG_FLOATING) = match kind e with KFloating => true | _ => false end
  /\ truthy (Z.land (type e) ARG_INTEGER) = match kind e with KInteger => true | _ => false end
  /\ truthy (Z.land (type e) ARG_BOOLEAN) = match kind e with KBoolean => true | _ => false end
  /\ truthy (Z.land (type e) (Z.lor ARG_INTEGER ARG_BOOLEAN))
     = match kind e with KInteger | KBoolean => true | _ => false end.
Proof. destruct e as [v [] []]; repeat split; reflexivity. Qed.

Lemma exists_alter (f : cmd_ln_val_t -> cmd_ln_val_t) (c : cmd_ln_t) (n k : string) :
  cmd_ln_exists_r (alter f n c) k = cmd_ln_exists_r c k.
Proof.
  unfold cmd_ln_exists_r. rewrite lookup_alter. case_decide as Hd.
  - subst. destruct (c !! k); reflexivity.
  - reflexivity.
Qed.

(** [normalize_key] looks at the names of the store only. *)
Lemma normalize_key_names (c c' : Config) (key : string) :
  (forall k, cmd_ln_exists_r (cmd_ln c') k = cmd_ln_exists_r (cmd_ln c) k) ->
  JsConfig.normalize_key c' key = JsConfig.normalize_key c key.
Proof.
  intros Hn. unfold JsConfig.normalize_key, JsConfig.has.
  destruct key as [|k0 rest]; [reflexivity|]. now rewrite !Hn.
Qed.

(** What a [set] that returns has done: it has found the entry of the
    normalised key and has replaced its value. *)
Lemma set_returns (H : host) (c c' : Config) (key : string) (v : jsval) (r : jsval) :
  JsConfig.set H c key v = (Ok r, c') ->
  exists e a,
    cmd_ln c !! JsConfig.normalize_key c key = Some e
    /\ c' = {| cmd_ln := alter (with_val a) (JsConfig.normalize_key c key) (cmd_ln c) |}
    /\ r = JBool true
    /\ written H (kind e) v a.
Proof.
  unfold JsConfig.set, cmd_ln_type_r.
  destruct (cmd_ln c !! JsConfig.normalize_key c key) as [e|] eqn:He; [|discriminate].
  rewrite type_ne_0. destruct e as [v0 k rq]. destruct k, rq; cbn.
  all: try (destruct (allocateUTF8OnStack H v) as [s|ex] eqn:Hs; [|discriminate]).
  all: intros [= <- <-]; eexists; eexists; (split; [reflexivity|]);
    unfold cmd_ln_set_str_r, cmd_ln_set_int_r, cmd_ln_set_float_r;
    (split; [reflexivity|]); (split; [reflexivity|]); cbn; eauto.
Qed.

Lemma get_after_alter (H : host) (c : Config) (n key : string) (e : cmd_ln_val_t) (a : anytype) (v : jsval) :
  cmd_ln c !! n = Some e ->
  JsConfig.normalize_key c key = n ->
  written H (kind e) v a ->
  JsConfig.get {| cmd_ln := alter (with_val a) n (cmd_ln c) |} key = stored_as H (kind e) v.
Proof.
  intros He Hn Ha. unfold JsConfig.get.
  rewrite (normalize_key_names c) by (intros k; apply exists_alter).
  rewrite Hn. unfold cmd_ln_type_r, cmd_ln_str_r, cmd_ln_float_r, cmd_ln_int_r. cbn [cmd_ln].
  rewrite lookup_alter_eq, He. cbn [fmap option_fmap option_map].
  rewrite type_ne_0.
  destruct (type_tests (with_val a e)) as (T1 & T2 & T3 & T4 & _).
  rewrite T1, T2, T3, T4. unfold stored_as, written in *.
  destruct e as [v0 k rq]. cbn [kind with_val val] in *.
  destruct k; [subst a; reflexivity | subst a; reflexivity | | subst a; reflexivity].
  destruct Ha as [s [Hs ->]]. rewrite Hs. reflexivity.
Qed.

(** C7, as the claim has it, fails on the Cython binding: the key
    [nosuch] is no parameter of the store, and [__getitem__] raises
    [KeyError] for it, not [ReferenceError]. *)
Lemma unknown_key_python_not_ReferenceError :
  known demo_config "nosuch" = false
  /\ PyConfig.__getitem__ demo_config "nosuch" = Throw (KeyError "Unknown key nosuch")
  /\ ~ (exists msg, PyConfig.__getitem__ demo_config "nosuch" = Throw (ReferenceError msg)).
Proof.
  split; [reflexivity|]. split; [reflexivity|].
  intros [msg Hm]. vm_compute in Hm. discriminate.
Qed.

(** C7 (amended): for every key that is not a known parameter of the
    store, setting and getting it fail, with [ReferenceError] in the
    JavaScript binding and with [KeyError] in the Cython binding, and the
    store is left as it was. *)
Theorem unknown_key_rejected (H : host) (c : Config) (key : string) (v : jsval) (pv : pyval) :
  known c key = false ->
  JsConfig.set H c key v
    = (Throw (ReferenceError ("Unknown cmd_ln parameter " +:+ key)), c)
  /\ JsConfig.get c key = Throw (ReferenceError ("Unknown cmd_ln parameter " +:+ key))
  /\ PyConfig.__setitem__ H c key pv = (Throw (KeyError ("Unknown key " +:+ key)), c)
  /\ PyConfig.__getitem__ c key = Throw (KeyError ("Unknown key " +:+ key)).
Proof.
  intros Hk. apply js_normalize_key_unknown in Hk.
  assert (Ht : (cmd_ln_type_r (cmd_ln c) (JsConfig.normalize_key c key) =? 0) = true)
    by now apply type_r_0.
  repeat split.
  - unfold JsConfig.set. now rewrite Ht.
  - unfold JsConfig.get. now rewrite Ht.
  - unfold PyConfig.__setitem__, cmd_ln_access_r.
    now rewrite py_normalize_key_eq, Hk.
  - unfold PyConfig.__getitem__, cmd_ln_access_r.
    now rewrite py_normalize_key_eq, Hk.
Qed.

Lemma unknown_key_rejected_witness :
  JsConfig.get demo_config "nosuch"
  = Throw (ReferenceError "Unknown cmd_ln parameter nosuch").
Proof.
  apply (unknown_key_rejected demo_host demo_config "nosuch" JNull PyNone).
  reflexivity.
Defined.



Lemma get_after_set (H : host) (c c' : Config) (k1 k2 : string) (v r : jsval) (e : cmd_ln_val_t) :
  JsConfig.normalize_key c k1 = JsConfig.normalize_key c k2 ->
  cmd_ln c !! JsConfig.normalize_key c k1 = Some e ->
  JsConfig.set H c k1 v = (Ok r, c') ->
  JsConfig.get c' k2 = stored_as H (kind e) v.
Proof.
  intros Hn He Hs. apply set_returns in Hs as (e' & a & He' & -> & _ & Hw).
  rewrite He in He'. injection He' as <-.
  now apply get_after_alter.
Qed.



(** ** Overlay of the model's parameter file *)

Lemma set_names (H : host) (c c' : Config) (key : string) (v : jsval) (r : result jsval) :
  JsConfig.set H c key v = (r, c') ->
  forall k, cmd_ln_exists_r (cmd_ln c') k = cmd_ln_exists_r (cmd_ln c) k.
Proof.
  destruct r as [r|e].
  - intros Hs. apply set_returns in Hs as (e & a & _ & -> & _). intros k. apply exists_alter.
  - unfold JsConfig.set.
    repeat match goal with
           | |- context [if ?b then _ else _] => destruct b
           | |- context [match allocateUTF8OnStack H v with _ => _ end] =>
               destruct (allocateUTF8OnStack H v)
           end; intros Heq; inversion Heq; subst; reflexivity.
Qed.

(** A key the store has as written resolves to an entry. *)
Lemma has_resolves (c : Config) (key : string) :
  truthy (JsConfig.has c key) = true ->
  is_Some (cmd_ln c !! JsConfig.normalize_key c key).
Proof.
  unfold JsConfig.has. intros Hk. apply exists_lookup.
  unfold JsConfig.normalize_key, JsConfig.has. destruct key as [|k0 rest].
  - exact Hk.
  - destruct (Ascii.eqb k0 "_"); [exact Hk|].
    destruct (Ascii.eqb k0 "-").
    + destruct (truthy (cmd_ln_exists_r (cmd_ln c) ("_" +:+ rest))) eqn:E; [exact E|exact Hk].
    + destruct (truthy (cmd_ln_exists_r (cmd_ln c) ("_" +:+ String k0 rest))) eqn:E; [exact E|].
      destruct (truthy (cmd_ln_exists_r (cmd_ln c) ("-" +:+ String k0 rest))) eqn:E'; [exact E'|exact Hk].
Qed.

(** Writing a string to a key that resolves never throws. *)
Lemma set_string_ok (H : host) (c : Config) (key s : string) :
  is_Some (cmd_ln c !! JsConfig.normalize_key c key) ->
  exists c', JsConfig.set H c key (JStr s) = (Ok (JBool true), c').
Proof.
  intros [e He]. unfold JsConfig.set, cmd_ln_type_r. rewrite He, type_ne_0.
  cbn [allocateUTF8OnStack].
  repeat match goal with
         | |- context [if ?b then _ else _] => destruct b eqn:?
         end; eauto.
  exfalso. destruct (type_tests e) as (T1 & T2 & _ & _ & T5).
  destruct (kind e); congruence.
Qed.


(** The loop never throws and touches nothing but the store. *)
Lemma apply_featparams_overlay (H : host) (pairs : list (string * string)) (d : Decoder) (w : World) :
  JsDecoder.apply_featparams H pairs (d, w)
  = (Ok tt, (with_config (overlay H (config d) pairs) d, w)).
Proof.
  revert d. induction pairs as [|kv pairs IH]; intros d.
  - destruct d; reflexivity.
  - cbn [JsDecoder.apply_featparams]. unfold bind at 1. cbn [JsDecoder.this fst].
    unfold bind at 1. unfold overlay. cbn [fold_left].
    destruct (truthy (JsConfig.has (config d) (fst kv))) eqn:Hh.
    + destruct (set_string_ok H (config d) (fst kv) (snd kv) (has_resolves _ _ Hh)) as [c' Hc].
      rewrite Hc. cbn [snd]. unfold JsDecoder.set_config at 1. cbn [fst snd].
      rewrite IH. reflexivity.
    + unfold ret at 1. rewrite IH. destruct d; reflexivity.
Qed.


Lemma set_other_entries (H : host) (c c' : Config) (key : string) (v : jsval) (r : result jsval) (n : string) :
  JsConfig.set H c key v = (r, c') ->
  n <> JsConfig.normalize_key c key ->
  cmd_ln c' !! n = cmd_ln c !! n.
Proof.
  destruct r as [r|e].
  - intros Hs Hn. apply set_returns in Hs as (e & a & _ & -> & _).
    cbn [cmd_ln]. now rewrite lookup_alter_ne by congruence.
  - unfold JsConfig.set.
    repeat match goal with
           | |- context [if ?b then _ else _] => destruct b
           | |- context [match allocateUTF8OnStack H v with _ => _ end] =>
               destruct (allocateUTF8OnStack H v)
           end; intros Heq; inversion Heq; subst; reflexivity.
Qed.

(** [get] reads the names of the store and the entry the key resolves
    to, and nothing else. *)
Lemma get_same_entry (c c' : Config) (key : string) :
  (forall k, cmd_ln_exists_r (cmd_ln c') k = cmd_ln_exists_r (cmd_ln c) k) ->
  cmd_ln c' !! JsConfig.normalize_key c key = cmd_ln c !! JsConfig.normalize_key c key ->
  JsConfig.get c' key = JsConfig.get c key.
Proof.
  intros Hn He. unfold JsConfig.get. rewrite (normalize_key_names c c' key Hn).
  unfold cmd_ln_type_r, cmd_ln_str_r, cmd_ln_float_r, cmd_ln_int_r.
  now rewrite He.
Qed.



(** The kind of every entry is that of the defaults. *)
Lemma set_kinds (H : host) (c c' : Config) (key : string) (v : jsval) (r : result jsval) (n : string) :
  JsConfig.set H c key v = (r, c') ->
  kind <$> (cmd_ln c' !! n) = kind <$> (cmd_ln c !! n).
Proof.
  destruct r as [r|e].
  - intros Hs. apply set_returns in Hs as (e & a & _ & -> & _).
    cbn [cmd_ln]. rewrite lookup_alter. case_decide as Hd; [|reflexivity].
    rewrite <- Hd. destruct (cmd_ln c !! JsConfig.normalize_key c key); reflexivity.
  - unfold JsConfig.set.
    repeat match goal with
           | |- context [if ?b then _ else _] => destruct b
           | |- context [match allocateUTF8OnStack H v with _ => _ end] =>
               destruct (allocateUTF8OnStack H v)
           end; intros Heq; inversion Heq; subst; reflexivity.
Qed.



Lemma init_featparams_outcome (H : host) (d : Decoder) (w w' : World) (fp : jsval)
    (gen : generated (string * string)) :
  JsConfig.model_path H (config d) "featparams" "feat.params" = Ok fp ->
  read_featparams H fp w = (Ok gen, w') ->
  JsDecoder.init_featparams H (d, w)
  = (finish gen, (with_config (overlay H (config d) (yields gen)) d, w')).
Proof.
  intros Hp Hr. unfold JsDecoder.init_featparams.
  unfold bind at 1. cbn [JsDecoder.this fst].
  unfold bind at 1. unfold lift at 1. rewrite Hp.
  unfold bind at 1. unfold JsDecoder.in_world at 1. cbn [fst snd]. rewrite Hr.
  unfold bind at 1. rewrite apply_featparams_overlay. reflexivity.
Qed.

(** [read_featparams] itself never throws: how the reading ends is part
    of what it generates. *)
Lemma read_featparams_generates (H : host) (fp : jsval) (w : World) :
  exists gen w', read_featparams H fp w = (Ok gen, w').
Proof.
  unfold read_featparams.
  destruct (RUNNING_ON_WEB H).
  - destruct (fetch_response H fp) as [[[ok st] text]|e]; [destruct ok|]; cbn.
    + destruct (lines_loop _ _); eauto.
    + eauto.
    + eauto.
  - destruct (readFile H fp) as [text|e]; cbn.
    + destruct (lines_loop _ _); eauto.
    + eauto.
Qed.

Lemma args_loop_pair_up (tokens : list string) :
  forall key, args_loop tokens key = pair_up key (before_hash tokens).
Proof.
  induction tokens as [|t rest IH]; intros key; [reflexivity|].
  cbn [args_loop before_hash]. destruct (String.eqb t "#"); [reflexivity|].
  cbn [pair_up]. destruct key as [k|]; now rewrite IH.
Qed.

Lemma pair_up_app (l1 l2 : list string) :
  forall key,
    pair_up key (l1 ++ l2)
    = let (k1, ys1) := pair_up key l1 in
      let (k2, ys2) := pair_up k1 l2 in
      (k2, ys1 ++ ys2).
Proof.
  induction l1 as [|t l1 IH]; intros key; cbn [app pair_up].
  - now destruct (pair_up key l2).
  - destruct key as [k|].
    + rewrite IH. destruct (pair_up None l1) as [k1 ys1].
      now destruct (pair_up k1 l2).
    + apply IH.
Qed.

Lemma lines_loop_pair_up (lines : list (list ascii)) :
  forall key,
    lines_loop lines key
    = pair_up key (concat (map (fun line => before_hash (matchAll_args (trim line))) lines)).
Proof.
  induction lines as [|line rest IH]; intros key; [reflexivity|].
  cbn [lines_loop map concat]. rewrite pair_up_app, args_loop_pair_up.
  destruct (pair_up key (before_hash (matchAll_args (trim line)))) as [k1 ys1].
  now rewrite IH.
Qed.

Lemma pair_up_count (tokens : list string) :
  forall key : option string,
    let n := (match key with Some _ => 1 | None => 0 end + length tokens)%nat in
    length (snd (pair_up key tokens)) = Nat.div2 n
    /\ match fst (pair_up key tokens) with Some _ => true | None => false end = Nat.odd n.
Proof.
  induction tokens as [|t rest IH]; intros [k|]; cbn zeta; cbn [pair_up length];
    try (split; reflexivity).
  - destruct (IH None) as [Hlen Hkey]. cbn zeta in Hlen, Hkey. cbn [Nat.add] in Hlen, Hkey.
    destruct (pair_up None rest) as [k' ys]. cbn [fst snd length] in *.
    rewrite Hlen, Hkey. split; reflexivity.
  - destruct (IH (Some t)) as [Hlen Hkey]. cbn zeta in Hlen, Hkey. exact (conj Hlen Hkey).
Qed.

(** What [read_featparams] generates from a file that can be read. *)
Lemma read_featparams_readable (H : host) (featparams : jsval) (w : World) (fpdata : string) :
  reads_as H featparams fpdata ->
  let tokens := effective_tokens fpdata in
  exists gen w',
    read_featparams H featparams w = (Ok gen, w')
    /\ yields gen = snd (pair_up None tokens)
    /\ length (yields gen) = Nat.div2 (length tokens)
    /\ finish gen
       = if Nat.odd (length tokens)
         then Throw (Error ("Odd number of arguments in " +:+ ToString H featparams))
         else Ok tt.
Proof.
  intros Hread tokens. unfold reads_as in Hread.
  pose proof (lines_loop_pair_up (lines_from [] (list_ascii_of_string fpdata)) None) as Hloop.
  fold (effective_tokens fpdata) in Hloop. fold tokens in Hloop.
  destruct (pair_up_count tokens None) as [Hlen Hkey]. cbn zeta in Hlen, Hkey.
  cbn [Nat.add] in Hlen, Hkey.
  assert (Hgen : forall w1 : World,
    (let (key, ys) := lines_loop (lines_from [] (list_ascii_of_string fpdata)) None in
     (Ok {| yields := ys;
            finish := match key with
                      | Some _ => Throw (Error ("Odd number of arguments in "
                                                +:+ ToString H featparams))
                      | None => Ok tt
                      end |}, w1))
    = (Ok {| yields := snd (pair_up None tokens);
             finish := if Nat.odd (length tokens)
                       then Throw (Error ("Odd number of arguments in "
                                          +:+ ToString H featparams))
                       else Ok tt |}, w1)).
  { intros w1. rewrite Hloop. destruct (pair_up None tokens) as [key ys].
    cbn [fst snd] in *. rewrite <- Hkey. now destruct key. }
  unfold read_featparams. destruct (RUNNING_ON_WEB H).
  - destruct Hread as [statusText Hread]. rewrite Hread, Hgen.
    eexists. eexists. split; [reflexivity|]. cbn [yields finish]. auto.
  - rewrite Hread, Hgen. eexists. eexists. split; [reflexivity|]. cbn [yields finish]. auto.
Qed.

(** [init_featparams] on a parameter file that can be read: the pairs of
    the file are overlaid, and the outcome is that of the reading. *)
Lemma init_featparams_readable (H : host) (d : Decoder) (w : World) (fp : jsval)
    (fpdata : string) :
  JsConfig.model_path H (config d) "featparams" "feat.params" = Ok fp ->
  reads_as H fp fpdata ->
  exists w',
    JsDecoder.init_featparams H (d, w)
    = (if Nat.odd (length (effective_tokens fpdata))
       then Throw (Error ("Odd number of arguments in " +:+ ToString H fp))
       else Ok tt,
       (with_config (overlay H (config d) (file_pairs fpdata)) d, w')).
Proof.
  intros Hp Hread.
  destruct (read_featparams_readable H fp w fpdata Hread) as (gen & w' & Hr & Hy & _ & Hf).
  exists w'. rewrite (init_featparams_outcome H d w w' fp gen Hp Hr).
  unfold file_pairs. now rewrite Hy, Hf.
Qed.

(** ** Caller parameters over defaults *)

Lemma constructor_set_all (H : host) (dict : option (list (string * jsval))) (c : Config) :
  JsConfig.constructor H dict = Ok c ->
  JsConfig.set_all H {| cmd_ln := ps_args H |} (given H dict) = (Ok tt, c).
Proof.
  unfold JsConfig.constructor, given.
  destruct dict as [dict|]; destruct (defaultModel H) as [m|];
    try destruct (JsConfig.in_dict "hmm" dict);
    try (destruct (JsConfig.set_all _ _ _) as [[[]|e] c'] eqn:Hs; intros [= <-]; reflexivity).
  intros [= <-]. reflexivity.
Qed.

Lemma set_all_names (H : host) (dict : list (string * jsval)) (c c' : Config) (r : result unit) :
  JsConfig.set_all H c dict = (r, c') ->
  forall k, cmd_ln_exists_r (cmd_ln c') k = cmd_ln_exists_r (cmd_ln c) k.
Proof.
  revert c. induction dict as [|[key v] dict IH]; intros c; cbn [JsConfig.set_all].
  - intros [= _ <-]. reflexivity.
  - destruct (JsConfig.set H c key v) as [[r1|e1] c1] eqn:Hs.
    + intros Ha k. rewrite (IH _ Ha). eapply set_names; eauto.
    + intros [= _ <-]. eapply set_names; eauto.
Qed.

(** A parameter that none of the written keys resolves to keeps its
    default. *)
Lemma set_all_untouched (H : host) (dict : list (string * jsval)) (c c' : Config)
    (r : result unit) (n : string) :
  JsConfig.set_all H c dict = (r, c') ->
  Forall (fun kv => JsConfig.normalize_key c (fst kv) <> n) dict ->
  cmd_ln c' !! n = cmd_ln c !! n.
Proof.
  revert c. induction dict as [|[key v] dict IH]; intros c; cbn [JsConfig.set_all].
  - intros [= _ <-]. reflexivity.
  - intros Ha Hf. inversion Hf as [|? ? Hk Hrest]; subst. cbn [fst] in Hk.
    destruct (JsConfig.set H c key v) as [[r1|e1] c1] eqn:Hs.
    + rewrite (IH c1 Ha).
      * eapply set_other_entries; eauto.
      * eapply Forall_impl; [exact Hrest|]. cbn beta. intros kv Hi.
        rewrite (normalize_key_names c c1); [exact Hi|]. eapply set_names; eauto.
    + injection Ha as _ <-. eapply set_other_entries; eauto.
Qed.

(** The last value written to a parameter is the one it has. *)
Lemma set_all_wins (H : host) (d1 d2 : list (string * jsval)) (c c' : Config)
    (key : string) (v : jsval) (e : cmd_ln_val_t) :
  JsConfig.set_all H c (d1 ++ (key, v) :: d2) = (Ok tt, c') ->
  cmd_ln c !! JsConfig.normalize_key c key = Some e ->
  Forall (fun kv => JsConfig.normalize_key c (fst kv) <> JsConfig.normalize_key c key) d2 ->
  JsConfig.get c' key = stored_as H (kind e) v.
Proof.
  revert c e. induction d1 as [|[k1 v1] d1 IH]; intros c e; cbn [app JsConfig.set_all].
  - destruct (JsConfig.set H c key v) as [[r1|e1] c1] eqn:Hs; [|discriminate].
    intros Ha He Hf.
    assert (Hn1 : forall k, cmd_ln_exists_r (cmd_ln c1) k = cmd_ln_exists_r (cmd_ln c) k)
      by (eapply set_names; eauto).
    rewrite <- (get_after_set H c c1 key key v r1 e eq_refl He Hs).
    apply get_same_entry.
    + intros k. rewrite (set_all_names _ _ _ _ _ Ha). reflexivity.
    + rewrite (normalize_key_names c c1) by exact Hn1.
      eapply set_all_untouched; [exact Ha|].
      eapply Forall_impl; [exact Hf|]. cbn beta. intros kv Hi.
      now rewrite (normalize_key_names c c1) by exact Hn1.
  - destruct (JsConfig.set H c k1 v1) as [[r1|e1] c1] eqn:Hs; [|discriminate].
    intros Ha He Hf.
    assert (Hn1 : forall k, cmd_ln_exists_r (cmd_ln c1) k = cmd_ln_exists_r (cmd_ln c) k)
      by (eapply set_names; eauto).
    pose proof (set_kinds H c c1 k1 v1 _ (JsConfig.normalize_key c key) Hs) as Hkd.
    rewrite He in Hkd.
    destruct (cmd_ln c1 !! JsConfig.normalize_key c key) as [e'|] eqn:He'; [|discriminate].
    injection Hkd as Hkd. rewrite <- Hkd.
    apply (IH c1 e' Ha).
    + rewrite (normalize_key_names c c1) by exact Hn1. exact He'.
    + eapply Forall_impl; [exact Hf|]. cbn beta. intros kv Hi.
      now rewrite !(normalize_key_names c c1) by exact Hn1.
Qed.






(** ** Explicit-list compilation *)

Lemma word_id_range (v : list string) (wd : string) :
  fsg_model_word_id v wd = -1
  \/ (0 <= fsg_model_word_id v wd < Z.of_nat (length v)
      /\ v !! Z.to_nat (fsg_model_word_id v wd) = Some wd).
Proof.
  induction v as [|x v IH]; cbn [fsg_model_word_id]; [now left|].
  destruct (String.eqb_spec x wd) as [->|Hne].
  - right. cbn. split; [lia|reflexivity].
  - destruct IH as [->|[Hr Hl]]; [now left|].
    right. destruct (Z.eqb_spec (fsg_model_word_id v wd) (-1)) as [E|E]; [lia|].
    split; [cbn [length]; lia|].
    replace (Z.to_nat (fsg_model_word_id v wd + 1)) with (S (Z.to_nat (fsg_model_word_id v wd))) by lia.
    exact Hl.
Qed.

Lemma word_id_absent (v : list string) (wd : string) :
  fsg_model_word_id v wd = -1 <-> ~ In wd v.
Proof.
  split.
  - induction v as [|x v IH]; cbn [fsg_model_word_id In]; [tauto|].
    destruct (String.eqb_spec x wd) as [->|Hne]; [discriminate|].
    destruct (word_id_range v wd) as [E|[Hr _]].
    + intros _ [Hx|Hx]; [congruence|]. now apply IH.
    + destruct (Z.eqb_spec (fsg_model_word_id v wd) (-1)); lia.
  - intros Hn. destruct (word_id_range v wd) as [E|[_ Hl]]; [exact E|].
    exfalso. apply Hn. apply list_elem_of_In, list_elem_of_lookup. eauto.
Qed.

Lemma word_id_app (v l : list string) (wd : string) :
  fsg_model_word_id v wd <> -1 ->
  fsg_model_word_id (v ++ l) wd = fsg_model_word_id v wd.
Proof.
  induction v as [|x v IH]; cbn [fsg_model_word_id app]; [congruence|].
  destruct (String.eqb x wd); [reflexivity|].
  destruct (Z.eqb_spec (fsg_model_word_id v wd) (-1)) as [E|E]; [congruence|].
  intros _. rewrite (IH E).
  destruct (Z.eqb_spec (fsg_model_word_id v wd) (-1)); [contradiction|reflexivity].
Qed.

Lemma word_id_new (v : list string) (wd : string) :
  fsg_model_word_id v wd = -1 ->
  fsg_model_word_id (v ++ [wd]) wd = Z.of_nat (length v).
Proof.
  induction v as [|x v IH]; cbn [fsg_model_word_id app length].
  - now rewrite String.eqb_refl.
  - destruct (String.eqb x wd); [discriminate|].
    destruct (Z.eqb_spec (fsg_model_word_id v wd) (-1)) as [E|E].
    + intros _. rewrite (IH E).
      destruct (Z.eqb_spec (Z.of_nat (length v)) (-1)); lia.
    + intros Hc. exfalso. destruct (word_id_range v wd) as [?|[? _]]; lia.
Qed.

Lemma table_add_found (v : list string) (wd : string) :
  fsg_model_word_id (table_add v wd) wd <> -1.
Proof.
  unfold table_add. destruct (Z.eqb_spec (fsg_model_word_id v wd) (-1)) as [E|E]; [|exact E].
  rewrite (word_id_new _ _ E). lia.
Qed.

Lemma table_add_extends (v : list string) (wd : string) :
  exists l, table_add v wd = v ++ l.
Proof.
  unfold table_add. destruct (fsg_model_word_id v wd =? -1).
  - now exists [wd].
  - exists []. now rewrite app_nil_r.
Qed.

Lemma table_fold_extends (ws v : list string) :
  exists l, fold_left table_add ws v = v ++ l.
Proof.
  revert v. induction ws as [|wd ws IH]; intros v; cbn [fold_left].
  - exists []. now rewrite app_nil_r.
  - destruct (table_add_extends v wd) as [l1 E1]. destruct (IH (table_add v wd)) as [l2 E2].
    exists (l1 ++ l2). rewrite E2, E1. now rewrite app_assoc.
Qed.

Lemma table_add_NoDup (v : list string) (wd : string) :
  List.NoDup v -> List.NoDup (table_add v wd).
Proof.
  intros Hn. unfold table_add.
  destruct (Z.eqb_spec (fsg_model_word_id v wd) (-1)) as [E|E]; [|exact Hn].
  apply word_id_absent in E.
  apply NoDup_ListNoDup. apply NoDup_app. repeat split.
  - now apply NoDup_ListNoDup.
  - intros x Hx Hx'. apply list_elem_of_In in Hx. apply list_elem_of_In in Hx'.
    destruct Hx' as [<-|[]]. contradiction.
  - apply NoDup_ListNoDup. repeat constructor. intros [].
Qed.

Lemma table_add_In (v : list string) (wd x : string) :
  In x (table_add v wd) <-> In x v \/ x = wd.
Proof.
  unfold table_add.
  destruct (Z.eqb_spec (fsg_model_word_id v wd) (-1)) as [E|E].
  - rewrite in_app_iff. cbn. intuition congruence.
  - split; [tauto|]. intros [Hx| ->]; [exact Hx|].
    destruct (word_id_range v wd) as [?|[_ Hl]]; [contradiction|].
    apply list_elem_of_In, list_elem_of_lookup. eauto.
Qed.

Lemma table_fold_NoDup (ws v : list string) :
  List.NoDup v -> List.NoDup (fold_left table_add ws v).
Proof.
  revert v. induction ws as [|wd ws IH]; intros v Hn; cbn [fold_left]; [exact Hn|].
  apply IH, table_add_NoDup, Hn.
Qed.

Lemma table_fold_In (ws v : list string) (x : string) :
  In x (fold_left table_add ws v) <-> In x v \/ In x ws.
Proof.
  revert v. induction ws as [|wd ws IH]; intros v; cbn [fold_left In]; [tauto|].
  rewrite IH, table_add_In. intuition congruence.
Qed.

(** The loops as a fold over the automaton: fields other than the
    transitions and the word table stay, the word table is the fold of
    [table_add] over the words, and each tuple has become one
    transition, its word looked up in the final table. *)
Lemma fold_add_tuple (xs : list tuple) (g : fsg_model_t) :
  let g' := fold_left add_tuple xs g in
  fsg_name g' = fsg_name g /\ fsg_lw g' = fsg_lw g /\ n_state g' = n_state g
  /\ start_state g' = start_state g /\ final_state g' = final_state g
  /\ vocab g' = fold_left table_add (omap tuple_word xs) (vocab g)
  /\ trans g' = trans g ++ map (link_in (vocab g')) xs.
Proof.
  revert g. induction xs as [|x xs IH]; intros g; cbn zeta.
  - cbn. rewrite app_nil_r. tauto.
  - cbn [fold_left].
    destruct (IH (add_tuple g x)) as (I1 & I2 & I3 & I4 & I5 & I6 & I7). cbn zeta in *.
    set (g' := fold_left add_tuple xs (add_tuple g x)) in *.
    destruct x as [[[src dst] logp] [wd|]]; cbn [add_tuple] in *.
    + cbn in I1, I2, I3, I4, I5, I6, I7. cbn [omap tuple_word snd fold_left map link_in option_map].
      do 5 (split; [assumption|]). split; [exact I6|].
      rewrite I7, <- app_assoc. cbn [app]. do 3 f_equal.
      rewrite I6. destruct (table_fold_extends (omap tuple_word xs) (table_add (vocab g) wd)) as [l ->].
      rewrite word_id_app; [reflexivity|apply table_add_found].
    + cbn in I1, I2, I3, I4, I5, I6, I7. cbn [omap tuple_word snd fold_left map link_in option_map].
      do 5 (split; [assumption|]). split; [exact I6|].
      rewrite I7, <- app_assoc. reflexivity.
Qed.

(** *** The heap of automata *)

Lemma fsg_at_log (ev : event) (w : World) (h : Z) : fsg_at (log ev w) h = fsg_at w h.
Proof. reflexivity. Qed.

Lemma fsg_at_update (h : Z) (f : fsg_model_t -> fsg_model_t) (w : World) (g : fsg_model_t) :
  fsg_at w h = Some g -> fsg_at (update_fsg h f w) h = Some (f g).
Proof.
  intros Hg. unfold update_fsg. rewrite Hg. unfold fsg_at in *. cbn [fsg_heap with_heap].
  destruct (h <=? 0); [discriminate|].
  destruct (fsg_heap w !! Z.to_nat (h - 1)) as [slot|] eqn:Hl; [|discriminate].
  rewrite list_lookup_insert_eq; [reflexivity|]. eapply lookup_lt_Some; eauto.
Qed.

Lemma fsg_at_release (h : Z) (w : World) (g : fsg_model_t) :
  fsg_at w h = Some g ->
  fsg_at (with_heap (<[Z.to_nat (h - 1) := None]> (fsg_heap w)) w) h = None.
Proof.
  intros Hg. unfold fsg_at in *. cbn [fsg_heap with_heap].
  destruct (h <=? 0); [reflexivity|].
  destruct (fsg_heap w !! Z.to_nat (h - 1)) as [slot|] eqn:Hl; [|discriminate].
  rewrite list_lookup_insert_eq; [reflexivity|]. eapply lookup_lt_Some; eauto.
Qed.

Lemma trace_update (h : Z) (f : fsg_model_t -> fsg_model_t) (w : World) :
  trace (update_fsg h f w) = trace w.
Proof. unfold update_fsg. destruct (fsg_at w h); reflexivity. Qed.

Lemma fsg_at_fresh (w : World) (g : fsg_model_t) :
  fsg_at (with_heap (fsg_heap w ++ [Some g]) w) (Z.of_nat (length (fsg_heap w)) + 1) = Some g.
Proof.
  unfold fsg_at. cbn [fsg_heap with_heap].
  destruct (Z.leb_spec (Z.of_nat (length (fsg_heap w)) + 1) 0); [lia|].
  replace (Z.to_nat (Z.of_nat (length (fsg_heap w)) + 1 - 1)) with (length (fsg_heap w)) by lia.
  rewrite lookup_app_r by lia. now rewrite Nat.sub_diag.
Qed.

(** *** One step of [add_word] *)

Lemma add_word_cases (H : host) (wd : string) (g : fsg_model_t) :
  (snd (add_word H wd g) <> -1
   /\ fst (add_word H wd g) = with_vocab (table_add (vocab g) wd) g
   /\ snd (add_word H wd g) = fsg_model_word_id (table_add (vocab g) wd) wd)
  \/ (snd (add_word H wd g) = -1
      /\ fst (add_word H wd g) = g
      /\ vocab_alloc H (vocab g) wd = false).
Proof.
  unfold add_word, table_add.
  destruct (Z.eqb_spec (fsg_model_word_id (vocab g) wd) (-1)) as [E|E]; cbn [negb].
  - destruct (vocab_alloc H (vocab g) wd) eqn:Ha; cbn [fst snd].
    + left. rewrite (word_id_new _ _ E). split; [lia|]. split; reflexivity.
    + right. repeat split.
  - left. cbn [fst snd]. split; [exact E|]. split; [|reflexivity].
    destruct g; reflexivity.
Qed.

Lemma word_add_step (H : host) (h : Z) (wd : string) (w : World) (g : fsg_model_t) :
  fsg_at w h = Some g ->
  fsg_model_word_add H h wd w
  = (Ok (snd (add_word H wd g)),
     log (_fsg_model_word_add h wd, snd (add_word H wd g))
       (update_fsg h (fun _ => fst (add_word H wd g)) w)).
Proof.
  intros Hg. unfold fsg_model_word_add. rewrite Hg.
  destruct (add_word H wd g); reflexivity.
Qed.

(** *** The loop of the JavaScript binding, whatever the allocator does *)

Lemma js_add_transitions_run (H : host) (h : Z) (ts : list transition) :
  forall (w : World) (g : fsg_model_t),
    fsg_at w h = Some g ->
    exists r w' evs,
      JsDecoder.add_transitions H h ts w = (Ok r, w')
      /\ trace w' = trace w ++ evs
      /\ ((r = Zero
           /\ fsg_at w' h = None
           /\ (exists wd, In (_fsg_model_word_add h wd, -1) evs)
           /\ (exists evs0, evs = evs0 ++ [(_fsg_model_free h, 0)])
           /\ (exists v wd, vocab_alloc H v wd = false))
          \/ (r = Grammar h
              /\ (forall wd, ~ In (_fsg_model_word_add h wd, -1) evs)
              /\ (forall wd, In (Some wd) (map t_word ts) ->
                             exists id, In (_fsg_model_word_add h wd, id) evs)
              /\ fsg_at w' h = Some (fold_left add_tuple (map (js_tuple H) ts) g))).
Proof.
  induction ts as [|t ts IH]; intros w g Hg.
  - exists (Grammar h), w, []. cbn. rewrite app_nil_r.
    split; [reflexivity|]. split; [reflexivity|]. right.
    split; [reflexivity|]. split; [auto|]. split; [intros wd []|exact Hg].
  - cbn [JsDecoder.add_transitions map fold_left].
    change (js_tuple H t)
      with (int32 (t_from t), int32 (t_to t),
            match t_prob t with Some p => logmath_log H p | None => 0 end, t_word t).
    set (logprob := match t_prob t with Some p => logmath_log H p | None => 0 end).
    destruct (t_word t) as [wd|] eqn:Hw.
    + unfold bind at 1. rewrite (word_add_step H h wd w g Hg).
      destruct (add_word_cases H wd g) as [(Hid & Hg' & Hid')|(Hid & Hg' & Ha)].
      * destruct (Z.eqb_spec (snd (add_word H wd g)) (-1)) as [E|_]; [contradiction|].
        unfold bind at 1. unfold fsg_model_trans_add at 1.
        set (w1 := log _ (update_fsg h (add_transition _ _ _ _) _)).
        assert (Hg1 : fsg_at w1 h
                      = Some (add_tuple g (int32 (t_from t), int32 (t_to t), logprob, Some wd))).
        { unfold w1. rewrite fsg_at_log.
          erewrite fsg_at_update;
            [|rewrite fsg_at_log; erewrite fsg_at_update; [reflexivity|exact Hg]].
          cbn [add_tuple]. now rewrite Hg', Hid'. }
        destruct (IH w1 _ Hg1) as (r & w' & evs & Hrun & Htr & Hcase).
        exists r, w',
          ((_fsg_model_word_add h wd, snd (add_word H wd g))
             :: (_fsg_model_trans_add h (int32 (t_from t)) (int32 (t_to t)) logprob
                   (snd (add_word H wd g)), 0)
             :: evs).
        split; [exact Hrun|]. split.
        { rewrite Htr. unfold w1. cbn [trace log]. rewrite !trace_update. cbn [trace log].
          rewrite trace_update. now rewrite <- !app_assoc. }
        destruct Hcase as [(-> & Hn & [wd' Hin] & [evs0 ->] & Hal)|(-> & Hno & Hev & Hfin)].
        -- left. split; [reflexivity|]. split; [exact Hn|].
           split; [exists wd'; right; right; exact Hin|].
           split; [|exact Hal].
           eexists. rewrite !app_comm_cons. reflexivity.
        -- right. split; [reflexivity|]. split; [|split; [|exact Hfin]].
           ++ intros wd' [Hx|[Hx|Hx]]; [congruence|discriminate|]. now apply (Hno wd').
           ++ intros wd' [Hx|Hx].
              ** injection Hx as <-. eexists. left. reflexivity.
              ** destruct (Hev wd' Hx) as [id Hid0]. exists id. right. right. exact Hid0.
      * rewrite Hid, Z.eqb_refl. unfold bind at 1. unfold fsg_model_free at 1.
        set (w1 := log _ (update_fsg h _ w)). cbv beta.
        assert (Hg1 : fsg_at w1 h = Some g).
        { unfold w1. rewrite fsg_at_log. erewrite fsg_at_update; [|exact Hg]. now rewrite Hg'. }
        rewrite Hg1. unfold ret.
        eexists Zero, _, [(_fsg_model_word_add h wd, -1); (_fsg_model_free h, 0)].
        split; [reflexivity|]. split.
        { cbn [trace log with_heap]. unfold w1. cbn [trace log]. rewrite trace_update.
          now rewrite <- app_assoc. }
        left. split; [reflexivity|]. split.
        { rewrite fsg_at_log. eapply fsg_at_release; eauto. }
        split; [exists wd; now left|]. split; [now exists [(_fsg_model_word_add h wd, -1)]|].
        eauto.
    + unfold bind at 1. unfold fsg_model_null_trans_add at 1.
      set (w1 := log _ (update_fsg h _ w)).
      assert (Hg1 : fsg_at w1 h
                    = Some (add_tuple g (int32 (t_from t), int32 (t_to t), logprob, None))).
      { unfold w1. rewrite fsg_at_log. erewrite fsg_at_update; [reflexivity|exact Hg]. }
      destruct (IH w1 _ Hg1) as (r & w' & evs & Hrun & Htr & Hcase).
      exists r, w',
        ((_fsg_model_null_trans_add h (int32 (t_from t)) (int32 (t_to t)) logprob, 0) :: evs).
      split; [exact Hrun|]. split.
      { rewrite Htr. unfold w1. cbn [trace log]. rewrite trace_update. now rewrite <- app_assoc. }
      destruct Hcase as [(-> & Hn & [wd' Hin] & [evs0 ->] & Hal)|(-> & Hno & Hev & Hfin)].
      * left. split; [reflexivity|]. split; [exact Hn|].
        split; [exists wd'; right; exact Hin|]. split; [|exact Hal].
        eexists. rewrite app_comm_cons. reflexivity.
      * right. split; [reflexivity|]. split; [|split; [|exact Hfin]].
        -- intros wd' [Hx|Hx]; [discriminate|]. now apply (Hno wd').
        -- intros wd' [Hx|Hx]; [congruence|].
           destruct (Hev wd' Hx) as [id Hid0]. exists id. right. exact Hid0.
Qed.

(** *** Integers at the boundary to compiled code *)

Lemma int32_fits (n : Z) : fits_int n -> int32 n = n.
Proof.
  unfold fits_int, int32. intros Hn.
  rewrite Z.mod_small by lia. lia.
Qed.

Lemma as_int_fits (v : Z) : fits_int v -> PyDecoder.as_int v = Ok v.
Proof.
  unfold fits_int, PyDecoder.as_int. intros [Hl Hu].
  destruct (Z.leb_spec (- 2 ^ 31) v); [|lia].
  destruct (Z.ltb_spec v (2 ^ 31)); [reflexivity|lia].
Qed.

Lemma state_index_fits (n : Z) : state_index n -> fits_int n.
Proof. unfold state_index, fits_int. lia. Qed.

Lemma bind_lift_ok {S A B} (a : A) (k : A -> M S B) (s : S) :
  bind (lift (Ok a)) k s = k a s.
Proof. reflexivity. Qed.

(** *** The loop of the Cython binding, when the word table can grow *)

Lemma py_add_transitions_run (H : host) (h : Z) (ts : list py_transition) :
  (forall v wd, vocab_alloc H v wd = true) ->
  Forall (fun t => fits_int (p_source t) /\ fits_int (p_dest t)) ts ->
  forall (w : World) (g : fsg_model_t),
    fsg_at w h = Some g ->
    exists w' evs,
      PyDecoder.add_transitions H h ts w = (Ok tt, w')
      /\ trace w' = trace w ++ evs
      /\ (forall wd, In (Some wd) (map p_word ts) ->
                     exists id, In (_fsg_model_word_add h wd, id) evs)
      /\ fsg_at w' h = Some (fold_left add_tuple (map (py_tuple H) ts) g).
Proof.
  intros Halloc Hfits. induction ts as [|t ts IH]; intros w g Hg.
  - exists w, []. cbn. rewrite app_nil_r.
    split; [reflexivity|]. split; [reflexivity|]. split; [intros wd []|exact Hg].
  - apply Forall_cons in Hfits as [[Hsrc Hdst] Hfits]. specialize (IH Hfits).
    cbn [PyDecoder.add_transitions map fold_left].
    rewrite (as_int_fits _ Hsrc), (as_int_fits _ Hdst).
    change (py_tuple H t) with (p_source t, p_dest t, logmath_log H (p_prob t), p_word t).
    set (logprob := logmath_log H (p_prob t)).
    destruct (p_word t) as [wd|] eqn:Hw.
    + unfold bind at 1. rewrite (word_add_step H h wd w g Hg).
      destruct (add_word_cases H wd g) as [(Hid & Hg' & Hid')|(Hid & Hg' & Ha)];
        [|rewrite Halloc in Ha; discriminate].
      destruct (Z.eqb_spec (snd (add_word H wd g)) (-1)) as [E|_]; [contradiction|].
      rewrite !bind_lift_ok.
      unfold bind at 1. unfold fsg_model_trans_add at 1.
      set (w1 := log _ (update_fsg h (add_transition _ _ _ _) _)).
      assert (Hg1 : fsg_at w1 h = Some (add_tuple g (p_source t, p_dest t, logprob, Some wd))).
      { unfold w1. rewrite fsg_at_log.
        erewrite fsg_at_update;
          [|rewrite fsg_at_log; erewrite fsg_at_update; [reflexivity|exact Hg]].
        cbn [add_tuple]. now rewrite Hg', Hid'. }
      destruct (IH w1 _ Hg1) as (w' & evs & Hrun & Htr & Hev & Hfin).
      exists w',
        ((_fsg_model_word_add h wd, snd (add_word H wd g))
           :: (_fsg_model_trans_add h (p_source t) (p_dest t) logprob (snd (add_word H wd g)), 0)
           :: evs).
      split; [exact Hrun|]. split.
      { rewrite Htr. unfold w1. cbn [trace log]. rewrite !trace_update. cbn [trace log].
        rewrite trace_update. now rewrite <- !app_assoc. }
      split; [|exact Hfin].
      intros wd' [Hx|Hx].
      * injection Hx as <-. eexists. left. reflexivity.
      * destruct (Hev wd' Hx) as [id Hid0]. exists id. right. right. exact Hid0.
    + rewrite !bind_lift_ok.
      unfold bind at 1. unfold fsg_model_null_trans_add at 1.
      set (w1 := log _ (update_fsg h _ w)).
      assert (Hg1 : fsg_at w1 h = Some (add_tuple g (p_source t, p_dest t, logprob, None))).
      { unfold w1. rewrite fsg_at_log. erewrite fsg_at_update; [reflexivity|exact Hg]. }
      destruct (IH w1 _ Hg1) as (w' & evs & Hrun & Htr & Hev & Hfin).
      exists w', ((_fsg_model_null_trans_add h (p_source t) (p_dest t) logprob, 0) :: evs).
      split; [exact Hrun|]. split.
      { rewrite Htr. unfold w1. cbn [trace log]. rewrite trace_update. now rewrite <- app_assoc. }
      split; [|exact Hfin].
      intros wd' [Hx|Hx]; [congruence|].
      destruct (Hev wd' Hx) as [id Hid0]. exists id. right. exact Hid0.
Qed.

(** *** The state count *)

Lemma fold_max_bounds (l : list Z) (a : Z) :
  let m := fold_left Z.max l a in
  (m = a \/ In m l) /\ a <= m /\ Forall (fun x => x <= m) l.
Proof.
  revert a. induction l as [|x l IH]; intros a; cbn zeta; cbn [fold_left].
  - split; [now left|]. split; [lia|constructor].
  - destruct (IH (Z.max a x)) as (Hm & Ha & Hf). cbn zeta in *.
    split; [|split; [lia|constructor; [lia|exact Hf]]].
    destruct Hm as [Hm|Hm]; [|right; now right].
    destruct (Z.max_spec a x) as [[_ E]|[_ E]].
    + right. left. rewrite Hm. symmetry. exact E.
    + left. rewrite Hm. exact E.
Qed.

Lemma js_n_state_fold (ts : list transition) (a : Z) :
  fold_left (fun n t => Z.max n (Z.max (t_from t) (t_to t))) ts a
  = fold_left Z.max (js_states ts) a.
Proof.
  revert a. induction ts as [|t ts IH]; intros a; [reflexivity|].
  cbn [fold_left]. unfold js_states. cbn [map concat app fold_left].
  rewrite IH. unfold js_states. f_equal. lia.
Qed.

Lemma js_n_state_max (ts : list transition) :
  ts <> [] ->
  Forall (fun t => 0 <= t_from t /\ 0 <= t_to t) ts ->
  is_max (fold_left (fun n t => Z.max n (Z.max (t_from t) (t_to t))) ts 0) (js_states ts).
Proof.
  intros Hne Hpos. rewrite js_n_state_fold.
  destruct (fold_max_bounds (js_states ts) 0) as (Hm & Ha & Hf). cbn zeta in *.
  split; [|exact Hf].
  destruct Hm as [Hm|Hm]; [|exact Hm].
  rewrite Hm. destruct ts as [|t ts]; [contradiction|].
  inversion Hpos as [|? ? [Hp1 Hp2] _]; subst.
  assert (Hle : t_from t <= 0).
  { rewrite Hm in Hf. unfold js_states in Hf. cbn in Hf.
    inversion Hf; subst; assumption. }
  unfold js_states. cbn. left. lia.
Qed.

Lemma py_max_is_max (l : list Z) (m : Z) : PyDecoder.py_max l = Ok m -> is_max m l.
Proof.
  destruct l as [|x l]; [discriminate|]. cbn. intros [= <-].
  destruct (fold_max_bounds l x) as (Hm & Ha & Hf). cbn zeta in *.
  split; [|constructor; assumption].
  destruct Hm as [Hm|Hm]; [left; symmetry; exact Hm|right; exact Hm].
Qed.

(** *** What explicit-list compilation yields *)

Lemma compiled_fold (xs : list tuple) (states : list Z) (name : string) (lw : Q) (m s f : Z) :
  is_max m states ->
  compiled xs states s f
    (fold_left add_tuple xs (set_states s f (create name lw (m + 1)))).
Proof.
  intros Hm.
  destruct (fold_add_tuple xs (set_states s f (create name lw (m + 1))))
    as (_ & _ & F3 & F4 & F5 & F6 & F7). cbn zeta in *.
  unfold compiled. rewrite F3, F4, F5, F6. rewrite F7 at 1. rewrite F6.
  cbn [n_state start_state final_state vocab trans set_states create app].
  repeat split; eauto.
Qed.

(** Consequences of [compiled]: no word twice in the table, the table
    holds the present words and no others, and there is one transition
    per tuple, with the tuple's states and log-probability, labelled
    with the id of the tuple's word when there is one and null
    otherwise. *)
Lemma compiled_shape (xs : list tuple) (states : list Z) (s f : Z) (g : fsg_model_t) :
  compiled xs states s f g ->
  List.NoDup (vocab g)
  /\ (forall wd, In wd (vocab g) <-> In (Some wd) (map tuple_word xs))
  /\ length (trans g) = length xs
  /\ (forall i src dst logp wd,
        xs !! i = Some (src, dst, logp, wd) ->
        exists l, trans g !! i = Some l
                  /\ from_state l = src /\ to_state l = dst /\ logs2prob l = logp
                  /\ match wd with
                     | None => wid l = None
                     | Some text =>
                         exists id, wid l = Some id /\ 0 <= id
                                    /\ vocab g !! Z.to_nat id = Some text
                     end).
Proof.
  intros (_ & _ & _ & Hv & Ht). split; [|split; [|split]].
  - rewrite Hv. apply table_fold_NoDup. constructor.
  - intros wd. rewrite Hv, table_fold_In. cbn [In].
    split.
    + intros [[]|Hin]. apply list_elem_of_In in Hin.
      apply list_elem_of_omap in Hin as (x & Hx & Hw).
      apply in_map_iff. exists x. split; [exact Hw|]. now apply list_elem_of_In.
    + intros Hin. right. apply in_map_iff in Hin as (x & Hw & Hx).
      apply list_elem_of_In, list_elem_of_omap. exists x.
      split; [now apply list_elem_of_In|exact Hw].
  - rewrite Ht. apply length_map.
  - intros i src dst logp wd Hi. rewrite Ht.
    change (map (link_in (vocab g)) xs) with (link_in (vocab g) <$> xs).
    rewrite list_lookup_fmap. unfold tuple in *. rewrite Hi.
    cbn [fmap option_fmap option_map].
    eexists. split; [reflexivity|]. cbn [link_in from_state to_state logs2prob wid].
    repeat (split; [reflexivity|]).
    destruct wd as [text|]; [|reflexivity]. cbn [option_map].
    eexists. split; [reflexivity|].
    assert (Hin : In text (vocab g)).
    { rewrite Hv, table_fold_In. right. apply list_elem_of_In, list_elem_of_omap.
      exists (src, dst, logp, Some text). split; [|reflexivity].
      apply list_elem_of_lookup. eauto. }
    destruct (word_id_range (vocab g) text) as [E|[Hr Hl]].
    + apply word_id_absent in E. contradiction.
    + split; [lia|exact Hl].
Qed.

(** The state indices of a list of transitions, one by one. *)
Lemma js_states_all (P : Z -> Prop) (ts : list transition) :
  Forall (fun t => P (t_from t) /\ P (t_to t)) ts -> Forall P (js_states ts).
Proof.
  induction ts as [|t ts IH]; intros Hall; [apply Forall_nil; exact I|].
  apply Forall_cons in Hall as [[Hf Ht] Hall].
  unfold js_states. cbn [map concat app].
  apply Forall_cons. split; [exact Hf|]. apply Forall_cons. split; [exact Ht|].
  apply IH. exact Hall.
Qed.

Lemma chain_states_all (P : Z -> Prop) (ts : list py_transition) :
  Forall (fun t => P (p_source t) /\ P (p_dest t)) ts -> Forall P (PyDecoder.chain_states ts).
Proof.
  induction ts as [|t ts IH]; intros Hall; [apply Forall_nil; exact I|].
  apply Forall_cons in Hall as [[Hf Ht] Hall].
  unfold PyDecoder.chain_states. cbn [map concat app].
  apply Forall_cons. split; [exact Hf|]. apply Forall_cons. split; [exact Ht|].
  apply IH. exact Hall.
Qed.

(** The maximum of state indices is one of them. *)
Lemma is_max_among (P : Z -> Prop) (m : Z) (l : list Z) : is_max m l -> Forall P l -> P m.
Proof.
  intros [Hin _] Hall. rewrite List.Forall_forall in Hall. exact (Hall m Hin).
Qed.

Lemma js_create_fsg_run (H : host) (d : Decoder) (w : World) (name : string) (s f : Z)
    (ts : list transition) :
  initialized d = true ->
  let lw := cmd_ln_float_r (cmd_ln (config d)) "-lw" in
  let n := int32 (fold_left (fun n t => Z.max n (Z.max (t_from t) (t_to t))) ts 0 + 1) in
  let h := Z.of_nat (length (fsg_heap w)) + 1 in
  exists w0,
    trace w0 = trace w ++ [(_fsg_model_init name lw n, h);
                           (_fsg_set_states h (int32 s) (int32 f), 0)]
    /\ fsg_at w0 h = Some (set_states (int32 s) (int32 f) (create name lw n))
    /\ JsDecoder.create_fsg H name s f ts (d, w)
       = (fst (JsDecoder.add_transitions H h ts w0),
          (d, snd (JsDecoder.add_transitions H h ts w0))).
Proof.
  intros Hi lw n h.
  set (wa := log (_fsg_model_init name lw n, h)
               (with_heap (fsg_heap w ++ [Some (create name lw n)]) w)).
  assert (Ha : fsg_at wa h = Some (create name lw n)) by apply fsg_at_fresh.
  exists (log (_fsg_set_states h (int32 s) (int32 f), 0)
            (update_fsg h (set_states (int32 s) (int32 f)) wa)).
  split; [|split].
  - cbn [trace log]. rewrite trace_update. unfold wa. cbn [trace log with_heap].
    now rewrite <- app_assoc.
  - rewrite fsg_at_log. now apply fsg_at_update.
  - unfold JsDecoder.create_fsg, JsDecoder.assert_initialized.
    unfold bind, JsDecoder.this, JsDecoder.in_world, throw, ret. cbn [fst snd].
    rewrite Hi. cbn [negb fst snd]. unfold fsg_model_init, fsg_set_states. cbn [fst snd].
    fold lw. fold n. fold h. fold wa.
    destruct (JsDecoder.add_transitions H h ts _); reflexivity.
Qed.

Lemma py_create_fsg_run (H : host) (self : Config) (w : World) (name : string) (s f : Z)
    (ts : list py_transition) :
  (forall v wd, vocab_alloc H v wd = true) ->
  ts <> [] ->
  Forall (fun t => state_index (p_source t) /\ state_index (p_dest t)) ts ->
  fits_int s -> fits_int f ->
  exists h w' evs g,
    PyDecoder.create_fsg H self name s f ts w = (Ok h, w')
    /\ trace w' = trace w ++ evs
    /\ fsg_at w' h = Some g
    /\ compiled (map (py_tuple H) ts) (PyDecoder.chain_states ts) s f g
    /\ (forall wd, In (Some wd) (map p_word ts) ->
                   exists id, In (_fsg_model_word_add h wd, id) evs).
Proof.
  intros Halloc Hne Hidx Hs Hf.
  destruct (PyDecoder.py_max (PyDecoder.chain_states ts)) as [m|e] eqn:Hmax.
  2:{ destruct ts as [|t ts]; [contradiction|discriminate]. }
  assert (Hm : state_index m).
  { eapply is_max_among; [apply py_max_is_max; exact Hmax|].
    apply chain_states_all. exact Hidx. }
  assert (Hn : fits_int (m + 1)) by (unfold state_index, fits_int in *; lia).
  assert (Hfits : Forall (fun t => fits_int (p_source t) /\ fits_int (p_dest t)) ts).
  { eapply Forall_impl; [exact Hidx|]. cbn beta. intros t [H1 H2].
    split; now apply state_index_fits. }
  set (lw := cmd_ln_float_r (cmd_ln self) "-lw").
  set (h := Z.of_nat (length (fsg_heap w)) + 1).
  set (wa := log (_fsg_model_init name lw (m + 1), h)
               (with_heap (fsg_heap w ++ [Some (create name lw (m + 1))]) w)).
  assert (Ha : fsg_at wa h = Some (create name lw (m + 1))) by apply fsg_at_fresh.
  set (w0 := update_fsg h (fun g => set_states (start_state g) f g)
               (update_fsg h (fun g => set_states s (final_state g) g) wa)).
  assert (H0 : fsg_at w0 h = Some (set_states s f (create name lw (m + 1)))).
  { unfold w0. erewrite fsg_at_update; [|apply fsg_at_update; exact Ha]. reflexivity. }
  destruct (py_add_transitions_run H h ts Halloc Hfits w0 _ H0)
    as (w' & evs & Hrun & Htr & Hev & Hfin).
  exists h, w', ((_fsg_model_init name lw (m + 1), h) :: evs),
    (fold_left add_tuple (map (py_tuple H) ts) (set_states s f (create name lw (m + 1)))).
  split; [|split; [|split; [exact Hfin|split]]].
  - unfold PyDecoder.create_fsg. rewrite Hmax, bind_lift_ok. cbv beta zeta.
    rewrite (as_int_fits _ Hn), (as_int_fits _ Hs), (as_int_fits _ Hf).
    rewrite bind_lift_ok.
    unfold bind at 1. unfold fsg_model_init at 1. fold lw. fold h. fold wa.
    rewrite bind_lift_ok.
    unfold bind at 1. unfold PyDecoder.assign_start at 1.
    rewrite bind_lift_ok.
    unfold bind at 1. unfold PyDecoder.assign_final at 1. fold w0.
    unfold bind at 1. rewrite Hrun. reflexivity.
  - rewrite Htr. unfold w0. rewrite !trace_update. unfold wa. cbn [trace log with_heap].
    now rewrite <- app_assoc.
  - apply compiled_fold. now apply py_max_is_max.
  - intros wd Hin. destruct (Hev wd Hin) as [id Hid]. exists id. now right.
Qed.

(** A tuple of the JavaScript binding whose states are state indices is
    passed on as it is. *)
Lemma js_tuple_exact (H : host) (t : transition) :
  state_index (t_from t) -> state_index (t_to t) ->
  js_tuple H t
  = (t_from t, t_to t,
     match t_prob t with Some p => logmath_log H p | None => 0 end, t_word t).
Proof.
  intros Hf Ht. unfold js_tuple.
  now rewrite !int32_fits by now apply state_index_fits.
Qed.

Lemma js_create_fsg_ok (H : host) (d : Decoder) (w : World) (name : string) (s f : Z)
    (ts : list transition) :
  (forall v wd, vocab_alloc H v wd = true) ->
  initialized d = true ->
  ts <> [] ->
  Forall (fun t => state_index (t_from t) /\ state_index (t_to t)) ts ->
  fits_int s -> fits_int f ->
  exists h w' evs g,
    JsDecoder.create_fsg H name s f ts (d, w) = (Ok (Grammar h), (d, w'))
    /\ trace w' = trace w ++ evs
    /\ fsg_at w' h = Some g
    /\ compiled (map (js_tuple H) ts) (js_states ts) s f g
    /\ (forall wd, In (Some wd) (map t_word ts) ->
                   exists id, In (_fsg_model_word_add h wd, id) evs).
Proof.
  intros Halloc Hi Hne Hidx Hs Hf.
  destruct (js_create_fsg_run H d w name s f ts Hi) as (w0 & Htr0 & H0 & Hrun).
  cbn zeta in *.
  assert (Hpos : Forall (fun t => 0 <= t_from t /\ 0 <= t_to t) ts).
  { eapply Forall_impl; [exact Hidx|]. cbn beta. unfold state_index. intros t [H1 H2]. lia. }
  pose proof (js_n_state_max ts Hne Hpos) as Hmax.
  set (m := fold_left (fun n t => Z.max n (Z.max (t_from t) (t_to t))) ts 0) in *.
  assert (Hm : state_index m).
  { eapply is_max_among; [exact Hmax|]. apply js_states_all. exact Hidx. }
  assert (Hn : int32 (m + 1) = m + 1).
  { apply int32_fits. unfold state_index, fits_int in *. lia. }
  rewrite Hn, (int32_fits _ Hs), (int32_fits _ Hf) in H0.
  destruct (js_add_transitions_run H _ ts w0 _ H0) as (r & w' & evs & Hloop & Htr & Hcase).
  rewrite Hloop in Hrun. cbn [fst snd] in Hrun.
  destruct Hcase as [(_ & _ & _ & _ & (v & wd & Hv))|(-> & _ & Hev & Hfin)].
  { rewrite Halloc in Hv. discriminate. }
  eexists _, w', (_ ++ evs), _.
  split; [exact Hrun|]. split; [rewrite Htr, Htr0, <- app_assoc; reflexivity|].
  split; [exact Hfin|]. split.
  - apply compiled_fold. exact Hmax.
  - intros wd Hin. destruct (Hev wd Hin) as [id Hid]. exists id.
    apply in_or_app. now right.
Qed.

Lemma compiled_ab (xs : list tuple) (states : list Z) (g : fsg_model_t) :
  xs = [(0, 1, 0, Some "a"); (1, 2, 0, Some "b")] ->
  states = [0; 1; 1; 2] ->
  compiled xs states 0 2 g ->
  ab_automaton g.
Proof.
  intros -> -> ((m & [Hin Hf] & Hn) & Hs & Hfi & Hv & Ht).
  assert (Hm : m = 2).
  { rewrite !Forall_cons in Hf. destruct Hf as (_ & _ & _ & H2 & _). cbn in Hin. lia. }
  subst m. cbn in Hv. unfold ab_automaton. rewrite Ht, Hv.
  repeat split; assumption.
Qed.

(** C3: explicit-list compilation, in both bindings, on a host whose
    word tables can grow: from a list of transition tuples that is not
    empty, with state indices that are not negative and leave room for
    the state count in a 32-bit integer (the bindings pass the indices
    and the count to the decoder as such), and with start and final
    states that fit in one, the automaton has one plus the maximum state
    index as its state count, [add_word] is called for every present
    word, and there is exactly one transition per tuple, with the states
    of the tuple, labelled when the tuple has a word and null otherwise.
    The transitions (0,1,1.0,a), (1,2,1.0,b) with start 0 and final 2
    yield 3 states, two labelled transitions of log-probability 0 and
    the word table a -> 0, b -> 1. *)
Theorem explicit_list_compilation (H : host) :
  (forall v wd, vocab_alloc H v wd = true) ->
  logmath_log H 1 = 0 ->
  (forall d w name s f ts,
      initialized d = true -> ts <> [] ->
      Forall (fun t => state_index (t_from t) /\ state_index (t_to t)) ts ->
      fits_int s -> fits_int f ->
      exists h w' evs g,
        JsDecoder.create_fsg H name s f ts (d, w) = (Ok (Grammar h), (d, w'))
        /\ trace w' = trace w ++ evs
        /\ fsg_at w' h = Some g
        /\ compiled (map (js_tuple H) ts) (js_states ts) s f g
        /\ Forall (fun t =>
                     js_tuple H t
                     = (t_from t, t_to t,
                        match t_prob t with Some p => logmath_log H p | None => 0 end,
                        t_word t)) ts
        /\ (forall wd, In (Some wd) (map t_word ts) ->
                       exists id, In (_fsg_model_word_add h wd, id) evs))
  /\ (forall self w name s f ts,
        ts <> [] ->
        Forall (fun t => state_index (p_source t) /\ state_index (p_dest t)) ts ->
        fits_int s -> fits_int f ->
        exists h w' evs g,
          PyDecoder.create_fsg H self name s f ts w = (Ok h, w')
          /\ trace w' = trace w ++ evs
          /\ fsg_at w' h = Some g
          /\ compiled (map (py_tuple H) ts) (PyDecoder.chain_states ts) s f g
          /\ (forall wd, In (Some wd) (map p_word ts) ->
                         exists id, In (_fsg_model_word_add h wd, id) evs))
  /\ (forall xs states s f g,
        compiled xs states s f g ->
        List.NoDup (vocab g)
        /\ (forall wd, In wd (vocab g) <-> In (Some wd) (map tuple_word xs))
        /\ length (trans g) = length xs
        /\ (forall i src dst logp wd,
              xs !! i = Some (src, dst, logp, wd) ->
              exists l, trans g !! i = Some l
                        /\ from_state l = src /\ to_state l = dst /\ logs2prob l = logp
                        /\ match wd with
                           | None => wid l = None
                           | Some text =>
                               exists id, wid l = Some id /\ 0 <= id
                                          /\ vocab g !! Z.to_nat id = Some text
                           end))
  /\ (forall d w name,
        initialized d = true ->
        exists h w' g,
          JsDecoder.create_fsg H name 0 2 ab_transitions (d, w) = (Ok (Grammar h), (d, w'))
          /\ fsg_at w' h = Some g /\ ab_automaton g)
  /\ (forall self w name,
        exists h w' g,
          PyDecoder.create_fsg H self name 0 2 ab_tuples w = (Ok h, w')
          /\ fsg_at w' h = Some g /\ ab_automaton g).
Proof.
  intros Halloc Hlog.
  assert (Hzero : fits_int 0) by (unfold fits_int; lia).
  assert (Htwo : fits_int 2) by (unfold fits_int; lia).
  split; [|split; [|split; [|split]]].
  - intros d w name s f ts Hi Hne Hidx Hs Hf.
    destruct (js_create_fsg_ok H d w name s f ts Halloc Hi Hne Hidx Hs Hf)
      as (h & w' & evs & g & Hrun & Htr & Hg & Hc & Hev).
    exists h, w', evs, g. repeat (split; [assumption|]). split; [|exact Hev].
    eapply Forall_impl; [exact Hidx|]. cbn beta. intros t [H1 H2].
    now apply js_tuple_exact.
  - intros self w name s f ts Hne Hidx Hs Hf. now apply py_create_fsg_run.
  - apply compiled_shape.
  - intros d w name Hi.
    destruct (js_create_fsg_ok H d w name 0 2 ab_transitions Halloc Hi)
      as (h & w' & evs & g & Hrun & _ & Hg & Hc & _); try assumption.
    { discriminate. }
    { repeat (apply Forall_cons; split; [unfold state_index; cbn; lia|]).
      apply Forall_nil. exact I. }
    exists h, w', g. split; [exact Hrun|]. split; [exact Hg|].
    eapply compiled_ab; [| |exact Hc].
    + cbn. unfold js_tuple. cbn. now rewrite Hlog.
    + reflexivity.
  - intros self w name.
    destruct (py_create_fsg_run H self w name 0 2 ab_tuples Halloc)
      as (h & w' & evs & g & Hrun & _ & Hg & Hc & _); try assumption.
    { discriminate. }
    { repeat (apply Forall_cons; split; [unfold state_index; cbn; lia|]).
      apply Forall_nil. exact I. }
    exists h, w', g. split; [exact Hrun|]. split; [exact Hg|].
    eapply compiled_ab; [| |exact Hc].
    + cbn. unfold py_tuple. cbn. now rewrite Hlog.
    + reflexivity.
Qed.

Lemma explicit_list_compilation_witness :
  exists h w' g,
    JsDecoder.create_fsg demo_host "ab" 0 2 ab_transitions (ready_decoder, empty_world)
    = (Ok (Grammar h), (ready_decoder, w'))
    /\ fsg_at w' h = Some g /\ ab_automaton g.
Proof.
  apply (explicit_list_compilation demo_host).
  - intros v wd. reflexivity.
  - reflexivity.
  - reflexivity.
Defined.

(** C9: a call of [create_fsg] on an initialised decoder never throws;
    when a word-add of the call returns -1, it has released the automaton
    it was building and returns the number 0; it returns 0 in that case
    only, and an automaton it returns is complete: it holds a transition
    for every tuple of the list. *)
Theorem create_fsg_word_add_failure (H : host) (d : Decoder) (w : World) (name : string)
    (s f : Z) (ts : list transition) :
  initialized d = true ->
  let h := Z.of_nat (length (fsg_heap w)) + 1 in
  exists r w' evs,
    JsDecoder.create_fsg H name s f ts (d, w) = (Ok r, (d, w'))
    /\ trace w' = trace w ++ evs
    /\ ((exists wd, In (_fsg_model_word_add h wd, -1) evs) ->
        r = Zero
        /\ fsg_at w' h = None
        /\ exists evs0, evs = evs0 ++ [(_fsg_model_free h, 0)])
    /\ (r = Zero -> exists wd, In (_fsg_model_word_add h wd, -1) evs)
    /\ (forall fsg, r = Grammar fsg ->
          fsg = h
          /\ exists g, fsg_at w' h = Some g
                       /\ length (trans g) = length ts
                       /\ trans g = map (link_in (vocab g)) (map (js_tuple H) ts)).
Proof.
  intros Hi h.
  destruct (js_create_fsg_run H d w name s f ts Hi) as (w0 & Htr0 & H0 & Hrun).
  cbn zeta in *. fold h in Htr0, H0, Hrun.
  destruct (js_add_transitions_run H h ts w0 _ H0) as (r & w' & evs & Hloop & Htr & Hcase).
  rewrite Hloop in Hrun. cbn [fst snd] in Hrun.
  eexists r, w', (_ ++ evs).
  split; [exact Hrun|]. split; [rewrite Htr, Htr0, <- app_assoc; reflexivity|].
  destruct Hcase as [(-> & Hn & [wd Hin] & [evs0 ->] & _)|(-> & Hno & _ & Hfin)].
  - split; [|split].
    + intros _. split; [reflexivity|]. split; [exact Hn|].
      eexists. rewrite app_assoc. reflexivity.
    + intros _. exists wd. apply in_or_app. now right.
    + intros fsg [=].
  - split; [|split].
    + intros [wd Hin]. exfalso. apply in_app_or in Hin as [Hin|Hin].
      * cbn in Hin. destruct Hin as [Hx|[Hx|[]]]; discriminate.
      * now apply (Hno wd).
    + intros [=].
    + intros fsg [= <-]. split; [reflexivity|]. eexists. split; [exact Hfin|].
      match type of Hfin with
      | _ = Some (fold_left add_tuple ?xs ?g0) =>
          destruct (fold_add_tuple xs g0) as (_ & _ & _ & _ & _ & _ & F7)
      end.
      cbn zeta in F7. cbn [trans set_states create app] in F7.
      split; [|exact F7]. rewrite F7, !length_map. reflexivity.
Qed.

Lemma create_fsg_word_add_failure_witness :
  exists r w' evs,
    JsDecoder.create_fsg tight_host "ab" 0 2 ab_transitions (ready_decoder, empty_world)
    = (Ok r, (ready_decoder, w'))
    /\ trace w' = trace empty_world ++ evs
    /\ ((exists wd, In (_fsg_model_word_add 1 wd, -1) evs) ->
        r = Zero
        /\ fsg_at w' 1 = None
        /\ exists evs0, evs = evs0 ++ [(_fsg_model_free 1, 0)])
    /\ (r = Zero -> exists wd, In (_fsg_model_word_add 1 wd, -1) evs)
    /\ (forall fsg, r = Grammar fsg ->
          fsg = 1
          /\ exists g, fsg_at w' 1 = Some g
                       /\ length (trans g) = length ab_transitions
                       /\ trans g = map (link_in (vocab g)) (map (js_tuple tight_host) ab_transitions)).
Proof.
  apply (create_fsg_word_add_failure tight_host ready_decoder empty_world "ab" 0 2 ab_transitions).
  reflexivity.
Defined.

(** ** Resolution of the target rule of a textual grammar *)

Lemma find_first {A} (p : A -> bool) (l1 l2 : list A) (r : A) :
  p r = true -> (forall x, In x l1 -> p x = false) ->
  List.find p (l1 ++ r :: l2) = Some r.
Proof.
  intros Hr. induction l1 as [|x l1 IH]; intros Hn; cbn [app List.find].
  - now rewrite Hr.
  - rewrite (Hn x) by now left. apply IH. intros y Hy. apply Hn. now right.
Qed.

Lemma find_nowhere {A} (p : A -> bool) (l : list A) :
  (forall x, In x l -> p x = false) -> List.find p l = None.
Proof.
  induction l as [|x l IH]; intros Hn; cbn [List.find]; [reflexivity|].
  rewrite (Hn x) by now left. apply IH. intros y Hy. apply Hn. now right.
Qed.

Lemma js_parse_jsgf_run (H : host) (d : Decoder) (w : World) (text : string)
    (rules : jsgf_t) (toprule : option string) :
  initialized d = true ->
  jsgf_parse H text = Some rules ->
  let lw := cmd_ln_float_r (cmd_ln (config d)) "-lw" in
  let w1 := log (_jsgf_parse_string text, 1) w in
  JsDecoder.parse_jsgf H text toprule (d, w)
  = match toprule with
    | Some tr =>
        match jsgf_get_rule rules tr with
        | None => (Throw (Error ("Failed to find top rule " +:+ tr)), (d, w1))
        | Some r => (Ok (Grammar (native H (trace w1) (_jsgf_build_fsg r lw))),
                     (d, built H lw r w1))
        end
    | None =>
        match jsgf_get_public_rule rules with
        | None => (Throw (Error "No public rules found in JSGF"), (d, w1))
        | Some r => (Ok (Grammar (native H (trace w1) (_jsgf_build_fsg r lw))),
                     (d, built H lw r w1))
        end
    end.
Proof.
  intros Hi Hp lw w1.
  unfold JsDecoder.parse_jsgf, JsDecoder.assert_initialized.
  unfold bind at 1. unfold bind at 1. unfold JsDecoder.this at 1. cbn [fst snd].
  rewrite Hi. cbn [negb]. unfold ret at 1.
  unfold bind at 1. unfold JsDecoder.this at 1. cbn [fst snd].
  unfold bind at 1. unfold JsDecoder.in_world at 1, JsDecoder.jsgf_parse_string at 1.
  cbn [fst snd]. rewrite Hp. fold w1. fold lw.
  destruct toprule as [tr|].
  - destruct (jsgf_get_rule rules tr) as [r|]; reflexivity.
  - destruct (jsgf_get_public_rule rules) as [r|]; reflexivity.
Qed.

Lemma py_parse_jsgf_run (H : host) (self : Config) (w : World) (text : string)
    (rules : jsgf_t) (toprule : option string) :
  jsgf_parse H text = Some rules ->
  let lw := cmd_ln_float_r (cmd_ln self) "-lw" in
  let w1 := log (_jsgf_parse_string text, 1) w in
  let freed := log (_jsgf_grammar_free, native H (trace w1) _jsgf_grammar_free) w1 in
  PyDecoder.parse_jsgf H self text toprule w
  = match toprule with
    | Some tr =>
        match jsgf_get_rule rules tr with
        | None => (Throw (RuntimeError ("Failed to find top rule " +:+ tr)), freed)
        | Some r => (Ok (native H (trace w1) (_jsgf_build_fsg r lw)), built H lw r w1)
        end
    | None =>
        match jsgf_get_public_rule rules with
        | None => (Throw (RuntimeError "No public rules found in JSGF"), freed)
        | Some r => (Ok (native H (trace w1) (_jsgf_build_fsg r lw)), built H lw r w1)
        end
    end.
Proof.
  intros Hp lw w1 freed.
  unfold PyDecoder.parse_jsgf.
  unfold bind at 1. unfold JsDecoder.jsgf_parse_string at 1. rewrite Hp. fold w1. fold lw.
  destruct toprule as [tr|].
  - destruct (jsgf_get_rule rules tr) as [r|]; reflexivity.
  - destruct (jsgf_get_public_rule rules) as [r|]; reflexivity.
Qed.

(** C4, as the claim has it, fails: the rule named [<g.none>] is not in
    the grammar, and [parse_jsgf] throws a plain [Error] (a
    [RuntimeError] in the Cython binding), not a [ReferenceError]. *)
Lemma unknown_rule_not_ReferenceError :
  fst (JsDecoder.parse_jsgf demo_host "grammar g;" (Some "<g.none>")
         (ready_decoder, empty_world))
  = Throw (Error "Failed to find top rule <g.none>")
  /\ fst (PyDecoder.parse_jsgf demo_host demo_config "grammar g;" (Some "<g.none>")
            empty_world)
     = Throw (RuntimeError "Failed to find top rule <g.none>")
  /\ ~ (exists msg,
          fst (JsDecoder.parse_jsgf demo_host "grammar g;" (Some "<g.none>")
                 (ready_decoder, empty_world))
          = Throw (ReferenceError msg)).
Proof.
  split; [reflexivity|]. split; [reflexivity|].
  intros [msg Hm]. vm_compute in Hm. discriminate.
Qed.

(** C4 (amended): with an explicit rule name, resolution fails with a
    plain [Error] (a [RuntimeError] in the Cython binding) if no rule of
    that name exists, and the automaton of the first rule of that name
    is built otherwise; with no name, the first rule marked public is
    resolved, and compilation fails with an [Error] (a [RuntimeError])
    if no rule is public.  Of two rules of which exactly one is public,
    the public one is resolved. *)
Theorem grammar_rule_resolution (H : host) (d : Decoder) (w : World) (text : string)
    (rules : jsgf_t) :
  initialized d = true ->
  jsgf_parse H text = Some rules ->
  let lw := cmd_ln_float_r (cmd_ln (config d)) "-lw" in
  let w1 := log (_jsgf_parse_string text, 1) w in
  let freed := log (_jsgf_grammar_free, native H (trace w1) _jsgf_grammar_free) w1 in
  let fsg_of r := native H (trace w1) (_jsgf_build_fsg r lw) in
  (forall n,
      (forall r, In r rules -> rule_name r <> n) ->
      JsDecoder.parse_jsgf H text (Some n) (d, w)
      = (Throw (Error ("Failed to find top rule " +:+ n)), (d, w1))
      /\ PyDecoder.parse_jsgf H (config d) text (Some n) w
         = (Throw (RuntimeError ("Failed to find top rule " +:+ n)), freed))
  /\ (forall n l1 r l2,
        rules = l1 ++ r :: l2 -> rule_name r = n ->
        (forall x, In x l1 -> rule_name x <> n) ->
        JsDecoder.parse_jsgf H text (Some n) (d, w)
        = (Ok (Grammar (fsg_of r)), (d, built H lw r w1))
        /\ PyDecoder.parse_jsgf H (config d) text (Some n) w
           = (Ok (fsg_of r), built H lw r w1))
  /\ ((forall r, In r rules -> rule_public r = false) ->
      JsDecoder.parse_jsgf H text None (d, w)
      = (Throw (Error "No public rules found in JSGF"), (d, w1))
      /\ PyDecoder.parse_jsgf H (config d) text None w
         = (Throw (RuntimeError "No public rules found in JSGF"), freed))
  /\ (forall l1 r l2,
        rules = l1 ++ r :: l2 -> rule_public r = true ->
        (forall x, In x l1 -> rule_public x = false) ->
        JsDecoder.parse_jsgf H text None (d, w)
        = (Ok (Grammar (fsg_of r)), (d, built H lw r w1))
        /\ PyDecoder.parse_jsgf H (config d) text None w
           = (Ok (fsg_of r), built H lw r w1))
  /\ (forall r1 r2,
        rules = [r1; r2] -> rule_public r1 = negb (rule_public r2) ->
        let p := if rule_public r1 then r1 else r2 in
        rule_public p = true
        /\ JsDecoder.parse_jsgf H text None (d, w)
           = (Ok (Grammar (fsg_of p)), (d, built H lw p w1))
        /\ PyDecoder.parse_jsgf H (config d) text None w
           = (Ok (fsg_of p), built H lw p w1)).
Proof.
  intros Hi Hp lw w1 freed fsg_of.
  pose proof (js_parse_jsgf_run H d w text rules) as Hjs.
  pose proof (py_parse_jsgf_run H (config d) w text rules) as Hpy.
  cbn zeta in Hjs, Hpy. fold lw w1 freed in Hjs, Hpy.
  split; [|split; [|split; [|split]]].
  - intros n Hn.
    assert (Hf : jsgf_get_rule rules n = None).
    { apply find_nowhere. intros r Hr. apply String.eqb_neq. now apply Hn. }
    rewrite (Hjs (Some n) Hi Hp), (Hpy (Some n) Hp), Hf. split; reflexivity.
  - intros n l1 r l2 -> Hr Hn.
    assert (Hf : jsgf_get_rule (l1 ++ r :: l2) n = Some r).
    { apply find_first; [now apply String.eqb_eq|].
      intros x Hx. apply String.eqb_neq. now apply Hn. }
    rewrite (Hjs (Some n) Hi Hp), (Hpy (Some n) Hp), Hf. split; reflexivity.
  - intros Hn.
    assert (Hf : jsgf_get_public_rule rules = None) by now apply find_nowhere.
    rewrite (Hjs None Hi Hp), (Hpy None Hp), Hf. split; reflexivity.
  - intros l1 r l2 -> Hr Hn.
    assert (Hf : jsgf_get_public_rule (l1 ++ r :: l2) = Some r) by now apply find_first.
    rewrite (Hjs None Hi Hp), (Hpy None Hp), Hf. split; reflexivity.
  - intros r1 r2 -> Hx p.
    assert (Hf : jsgf_get_public_rule [r1; r2] = Some p /\ rule_public p = true).
    { unfold jsgf_get_public_rule, p. cbn [List.find].
      destruct (rule_public r1) eqn:E1; [now split|].
      destruct (rule_public r2) eqn:E2; [now split|discriminate]. }
    destruct Hf as [Hf Hpub]. split; [exact Hpub|].
    rewrite (Hjs None Hi Hp), (Hpy None Hp), Hf. split; reflexivity.
Qed.

Lemma grammar_rule_resolution_witness :
  JsDecoder.parse_jsgf demo_host "grammar g;" (Some "<g.none>") (ready_decoder, empty_world)
  = (Throw (Error "Failed to find top rule <g.none>"),
     (ready_decoder, log (_jsgf_parse_string "grammar g;", 1) empty_world)).
Proof.
  apply (grammar_rule_resolution demo_host ready_decoder empty_world "grammar g;" demo_rules).
  - reflexivity.
  - reflexivity.
  - intros r [<-|[<-|[]]]; discriminate.
Defined.

(** ** Loading of the Gaussian parameters *)

(** A file is available when it can be read and memory for it can be
    allocated: [load_to_s3file] returns exactly then. *)
Lemma load_to_s3file_available (H : host) (path : jsval) (w : World) :
  is_Ok (fst (load_to_s3file H path w)) = true
  <-> exists blob,
        readFile H path = Ok blob
        /\ native H (trace w ++ [(fs_readFile path, 1)])
             (_malloc (Z.of_nat (String.length blob))) <> 0.
Proof.
  unfold load_to_s3file. destruct (readFile H path) as [blob|e].
  - unfold bind, ncall, throw. cbn [trace log fst snd].
    destruct (Z.eqb_spec (native H (trace w ++ [(fs_readFile path, 1)])
                            (_malloc (Z.of_nat (String.length blob)))) 0) as [E|E];
      cbn [fst is_Ok].
    + split; [discriminate|]. intros (b & [= <-] & Hn). contradiction.
    + split; [|reflexivity]. intros _. eauto.
  - cbn. split; [discriminate|]. intros (b & Hb & _). discriminate.
Qed.

Lemma load_gmm_run (H : host) (d : Decoder) (w : World) (mp vp sp xp : jsval) :
  JsDecoder.load_gmm H mp vp sp xp (d, w)
  = match load_to_s3file H mp w with
    | (Throw e, w1) => (Throw e, (d, w1))
    | (Ok means, w1) =>
        match load_to_s3file H vp w1 with
        | (Throw e, w2) => (Throw e, (d, w2))
        | (Ok variances, w2) =>
            let finish_ mixw sendump w' :=
              let rv := native H (trace w') (_load_gmm means variances mixw sendump) in
              (if rv <? 0 then Throw (Error "Failed to load GMM parameters") else Ok tt,
               (d, log (_load_gmm means variances mixw sendump, rv) w')) in
            match load_to_s3file H sp w2 with
            | (Ok sendump, w3) => finish_ 0 sendump w3
            | (Throw _, w3) =>
                match load_to_s3file H xp w3 with
                | (Ok mixw, w4) => finish_ mixw 0 w4
                | (Throw e, w4) => (Throw e, (d, w4))
                end
            end
        end
    end.
Proof.
  unfold JsDecoder.load_gmm.
  unfold bind at 1. unfold JsDecoder.in_world at 1. cbn [fst snd].
  destruct (load_to_s3file H mp w) as [[means|e] w1]; [|reflexivity].
  unfold bind at 1. unfold JsDecoder.in_world at 1. cbn [fst snd].
  destruct (load_to_s3file H vp w1) as [[variances|e] w2]; [|reflexivity].
  unfold bind at 1. unfold try_catch at 1. unfold bind at 1.
  unfold JsDecoder.in_world at 1. cbn [fst snd].
  destruct (load_to_s3file H sp w2) as [[sendump|e] w3].
  - unfold ret at 1. unfold bind at 1. unfold JsDecoder.in_world at 1, ncall at 1.
    cbn [fst snd]. destruct (_ <? 0); reflexivity.
  - unfold bind at 1. unfold JsDecoder.in_world at 1. cbn [fst snd].
    destruct (load_to_s3file H xp w3) as [[mixw|e'] w4]; [|reflexivity].
    unfold ret at 1. unfold bind at 1. unfold JsDecoder.in_world at 1, ncall at 1.
    cbn [fst snd]. destruct (_ <? 0); reflexivity.
Qed.

(** C2: once the means and the variances are loaded, [load_gmm] tries
    the compact file first.  If that file is available, it is handed to
    the decoder and the raw file is not touched; the raw file is loaded
    exactly when loading the compact file has failed, and loading then
    succeeds with the raw file alone.  Nothing of this is recorded: the
    decoder object is the same after the call, and the call returns no
    value. *)
Theorem gaussian_fallback (H : host) (d : Decoder) (w : World) (mp vp sp xp : jsval) :
  fst (snd (JsDecoder.load_gmm H mp vp sp xp (d, w))) = d
  /\ (forall p w0,
        is_Ok (fst (load_to_s3file H p w0)) = true
        <-> exists blob,
              readFile H p = Ok blob
              /\ native H (trace w0 ++ [(fs_readFile p, 1)])
                   (_malloc (Z.of_nat (String.length blob))) <> 0)
  /\ forall means w1 variances w2,
       load_to_s3file H mp w = (Ok means, w1) ->
       load_to_s3file H vp w1 = (Ok variances, w2) ->
       (forall sendump w3,
           load_to_s3file H sp w2 = (Ok sendump, w3) ->
           let rv := native H (trace w3) (_load_gmm means variances 0 sendump) in
           JsDecoder.load_gmm H mp vp sp xp (d, w)
           = (if rv <? 0 then Throw (Error "Failed to load GMM parameters") else Ok tt,
              (d, log (_load_gmm means variances 0 sendump, rv) w3)))
       /\ (forall e w3,
             load_to_s3file H sp w2 = (Throw e, w3) ->
             (forall mixw w4,
                 load_to_s3file H xp w3 = (Ok mixw, w4) ->
                 let rv := native H (trace w4) (_load_gmm means variances mixw 0) in
                 JsDecoder.load_gmm H mp vp sp xp (d, w)
                 = (if rv <? 0 then Throw (Error "Failed to load GMM parameters") else Ok tt,
                    (d, log (_load_gmm means variances mixw 0, rv) w4)))
             /\ (forall e' w4,
                   load_to_s3file H xp w3 = (Throw e', w4) ->
                   JsDecoder.load_gmm H mp vp sp xp (d, w) = (Throw e', (d, w4)))).
Proof.
  rewrite load_gmm_run. split; [|split; [intros p w0; apply load_to_s3file_available|]].
  - destruct (load_to_s3file H mp w) as [[means|e] w1]; [|reflexivity].
    destruct (load_to_s3file H vp w1) as [[variances|e] w2]; [|reflexivity].
    cbn zeta.
    destruct (load_to_s3file H sp w2) as [[sendump|e] w3]; [reflexivity|].
    destruct (load_to_s3file H xp w3) as [[mixw|e'] w4]; reflexivity.
  - intros means w1 variances w2 -> ->. cbn zeta. split.
    + intros sendump w3 ->. reflexivity.
    + intros e w3 ->. split.
      * intros mixw w4 ->. reflexivity.
      * intros e' w4 ->. reflexivity.
Qed.

(** With the raw file only, loading succeeds, and with both files the
    compact one is used. *)
Lemma gaussian_fallback_witness :
  JsDecoder.load_gmm raw_only_host (JStr "en-us/means") (JStr "en-us/variances")
    (JStr "en-us/sendump") (JStr "en-us/mixture_weights") (ready_decoder, empty_world)
  = (Ok tt,
     (ready_decoder,
      {| trace :=
           [(fs_readFile (JStr "en-us/means"), 1); (_malloc 2, 1); (_s3file_init 1 2, 1);
            (fs_readFile (JStr "en-us/variances"), 1); (_malloc 2, 1); (_s3file_init 1 2, 1);
            (fs_readFile (JStr "en-us/sendump"), 0);
            (fs_readFile (JStr "en-us/mixture_weights"), 1); (_malloc 2, 1);
            (_s3file_init 1 2, 1);
            (_load_gmm 1 1 1 0, 1)];
         fsg_heap := [] |})).
Proof.
  destruct (gaussian_fallback raw_only_host ready_decoder empty_world
              (JStr "en-us/means") (JStr "en-us/variances")
              (JStr "en-us/sendump") (JStr "en-us/mixture_weights")) as (_ & _ & Hc).
  edestruct Hc as [_ Hraw]; [reflexivity|reflexivity|].
  edestruct Hraw as [Hok _]; [reflexivity|].
  exact (Hok 1 _ eq_refl).
Defined.

(** ** The order of the stages *)

(** Case analysis on the first scrutinee that is not itself a case
    analysis. *)
Ltac case_scrutinee :=
  match goal with
  | |- context [match ?x with _ => _ end] =>
      lazymatch x with
      | context [match _ with _ => _ end] => fail
      | _ => destruct x
      end
  end.

Lemma load_acmod_files_stages (H : host) (s : Decoder * World) :
  JsDecoder.load_acmod_files H s
  = (stage_body H ModelDefLoaded ;;
     stage_body H TransitionMatrixLoaded ;;
     stage_body H GaussianParamsLoaded ;;
     stage_body H AcousticPostInit) s.
Proof.
  unfold JsDecoder.load_acmod_files, stage_body.
  unfold bind, JsDecoder.this, lift, ret, throw. cbn [fst snd].
  repeat (case_scrutinee; cbn [fst snd]; try reflexivity).
Qed.

Lemma prelude_then (H : host) (arg : config_arg) (k : M (Decoder * World) unit)
    (s : Decoder * World) :
  (d <- JsDecoder.this ;;
   if ps d =? 0 then throw (Error "Decoder was somehow not constructed (ps==0)")
   else
     match arg with
     | NoConfig => ret tt
     | AConfig c => JsDecoder.set_config c
     | ADict _ => cfg <- lift (JsDecoder.new_Config H arg) ;; JsDecoder.set_config cfg
     end ;;
     k) s
  = match prelude H arg s with
    | (Ok _, s0) => k s0
    | (Throw e, s0) => (Throw e, s0)
    end.
Proof.
  unfold prelude, bind, JsDecoder.this, lift, throw, ret, JsDecoder.set_config.
  cbn [fst snd].
  repeat (case_scrutinee; try reflexivity).
Qed.

Lemma initialize_pipeline (H : host) (arg : config_arg) (s : Decoder * World) :
  JsDecoder.initialize H arg s
  = match prelude H arg s with
    | (Throw e, s0) => (Throw e, s0)
    | (Ok _, s0) =>
        match snd (run_stages H declared_order s0) with
        | (Ok _, s') => (Ok tt, mark_initialized s')
        | (Throw e, s') => (Throw e, s')
        end
    end.
Proof.
  assert (Hrest : forall s0,
    (JsDecoder.init_config H ;; JsDecoder.init_fe H ;; JsDecoder.init_feat H ;;
     JsDecoder.init_acmod H ;; JsDecoder.load_acmod_files H ;; JsDecoder.init_dict H ;;
     JsDecoder.init_grammar H ;; JsDecoder.set_initialized true) s0
    = match snd (run_stages H declared_order s0) with
      | (Ok _, s') => (Ok tt, mark_initialized s')
      | (Throw e, s') => (Throw e, s')
      end).
  { intros s0. unfold declared_order. cbn [run_stages].
    change (stage_body H ConfigResolved) with (JsDecoder.init_config H).
    change (stage_body H FrontEndReady) with (JsDecoder.init_fe H).
    change (stage_body H FeatureModuleReady) with (JsDecoder.init_feat H).
    change (stage_body H AcousticPreInit) with (JsDecoder.init_acmod H).
    change (stage_body H DictionaryReady) with (JsDecoder.init_dict H).
    change (stage_body H GrammarReady) with (JsDecoder.init_grammar H).
    unfold bind at 1. destruct (JsDecoder.init_config H s0) as [[[]|e] s1]; [|reflexivity].
    unfold bind at 1. destruct (JsDecoder.init_fe H s1) as [[[]|e] s2]; [|reflexivity].
    unfold bind at 1. destruct (JsDecoder.init_feat H s2) as [[[]|e] s3]; [|reflexivity].
    unfold bind at 1. destruct (JsDecoder.init_acmod H s3) as [[[]|e] s4]; [|reflexivity].
    unfold bind at 1. rewrite load_acmod_files_stages.
    unfold bind at 1. destruct (stage_body H ModelDefLoaded s4) as [[[]|e] s5]; [|reflexivity].
    unfold bind at 1. destruct (stage_body H TransitionMatrixLoaded s5) as [[[]|e] s6]; [|reflexivity].
    unfold bind at 1. destruct (stage_body H GaussianParamsLoaded s6) as [[[]|e] s7]; [|reflexivity].
    destruct (stage_body H AcousticPostInit s7) as [[[]|e] s8]; [|reflexivity].
    unfold bind at 1. destruct (JsDecoder.init_dict H s8) as [[[]|e] s9]; [|reflexivity].
    unfold bind at 1. destruct (JsDecoder.init_grammar H s9) as [[[]|e] s10]; reflexivity. }
  unfold JsDecoder.initialize. rewrite prelude_then.
  destruct (prelude H arg s) as [[[]|e] s0]; [apply Hrest|reflexivity].
Qed.

Lemma run_stages_chain (H : host) (l : list stage) (s : Decoder * World) :
  exists smid,
    chain H (fst (run_stages H l s)) s smid
    /\ match snd (run_stages H l s) with
       | (Ok _, sf) => fst (run_stages H l s) = l /\ sf = smid
       | (Throw e, sf) =>
           exists st rest,
             l = fst (run_stages H l s) ++ st :: rest
             /\ stage_body H st smid = (Throw e, sf)
       end.
Proof.
  revert s. induction l as [|st l IH]; intros s; cbn [run_stages].
  - exists s. cbn. split; [constructor|]. split; reflexivity.
  - destruct (stage_body H st s) as [[[]|e] s1] eqn:Hst.
    + destruct (IH s1) as (smid & Hch & Hout).
      destruct (run_stages H l s1) as [done [r sf]]. cbn [fst snd] in *.
      exists smid. split; [econstructor; eauto|].
      destruct r as [[]|e].
      * destruct Hout as [-> ->]. split; reflexivity.
      * destruct Hout as (st' & rest & -> & Hthrow). exists st', rest. split; [reflexivity|exact Hthrow].
    + exists s. cbn [fst snd]. split; [constructor|].
      exists st, l. split; [reflexivity|exact Hst].
Qed.

Ltac case_all :=
  repeat match goal with
    | |- context [match ?x with _ => _ end] =>
      lazymatch x with
      | context [match _ with _ => _ end] => fail
      | _ => destruct x eqn:?
      end
    end.

Lemma read_featparams_trace (H : host) (fp : jsval) (w : World) :
  exists ev, snd (read_featparams H fp w) = log ev w /\ stage_of_call (fst ev) = None.
Proof.
  unfold read_featparams. case_all; cbn [snd]; eexists; split; reflexivity.
Qed.

Lemma init_featparams_trace (H : host) (d : Decoder) (w : World) :
  exists evs,
    trace (snd (snd (JsDecoder.init_featparams H (d, w)))) = trace w ++ evs
    /\ stages_of evs = [].
Proof.
  unfold JsDecoder.init_featparams.
  unfold bind at 1. cbn [JsDecoder.this fst snd].
  unfold bind at 1. unfold lift at 1.
  destruct (JsConfig.model_path H (config d) "featparams" "feat.params") as [fp|e].
  2:{ exists []. cbn. now rewrite app_nil_r. }
  unfold bind at 1. unfold JsDecoder.in_world at 1. cbn [fst snd].
  destruct (read_featparams_trace H fp w) as (ev & Hev & Hst).
  destruct (read_featparams H fp w) as [[gen|e] w1]; cbn [snd] in Hev; subst w1.
  - unfold bind at 1. rewrite apply_featparams_overlay. unfold lift.
    exists [ev]. cbn [snd trace log]. split; [reflexivity|].
    unfold stages_of. cbn. now rewrite Hst.
  - exists [ev]. cbn [snd trace log]. split; [reflexivity|].
    unfold stages_of. cbn. now rewrite Hst.
Qed.

(** The decoder calls a stage makes are its own, and a stage that
    completes has made one. *)
Lemma stage_body_events (H : host) (st : stage) (s s' : Decoder * World) (r : result unit) :
  stage_body H st s = (r, s') ->
  exists evs,
    trace (snd s') = trace (snd s) ++ evs
    /\ Forall (fun st' => st' = st) (stages_of evs)
    /\ (is_Ok r = true -> In st (stages_of evs)).
Proof.
  destruct s as [d w].
  destruct st; cbn [stage_body].
  { unfold JsDecoder.init_config. unfold bind at 1.
    destruct (init_featparams_trace H d w) as (evs0 & Htr & Hst).
    destruct (JsDecoder.init_featparams H (d, w)) as [[[]|e] [d1 w1]]; cbn [fst snd] in *.
    - unfold bind, JsDecoder.this, JsDecoder.in_world, ncall, throw, ret. cbn [fst snd].
      case_all; intros [= <- <-]; cbn [fst snd is_Ok trace log]; rewrite Htr; eexists;
        (split; [rewrite <- ?app_assoc; reflexivity|]);
        unfold stages_of in *; rewrite !omap_app, Hst; cbn;
        (split; [repeat constructor|intros; try discriminate; tauto]).
    - intros [= <- <-]. exists evs0. split; [exact Htr|]. rewrite Hst.
      split; [constructor|discriminate]. }
  all: unfold JsDecoder.init_fe, JsDecoder.init_feat, JsDecoder.init_acmod,
         JsDecoder.load_mdef, JsDecoder.load_tmat, JsDecoder.load_gmm,
         JsDecoder.init_dict, JsDecoder.init_grammar.
  all: unfold bind, try_catch, JsDecoder.this, lift, ret, throw, JsDecoder.in_world,
         ncall, load_to_s3file; cbn [fst snd].
  all: unfold bind, try_catch, JsDecoder.this, lift, ret, throw, JsDecoder.in_world,
         ncall; cbn [fst snd].
  all: case_all; intros [= <- <-]; cbn [fst snd is_Ok trace log].
  all: eexists;
         (split; [rewrite <- ?app_assoc; try (rewrite app_nil_r; reflexivity);
                  try reflexivity; symmetry; apply app_nil_r |]).
  all: cbn; split; [repeat constructor | intros; try discriminate; tauto].
Qed.

Lemma prelude_trace (H : host) (arg : config_arg) (s : Decoder * World) :
  trace (snd (snd (prelude H arg s))) = trace (snd s).
Proof.
  unfold prelude, bind, JsDecoder.this, lift, throw, ret, JsDecoder.set_config.
  cbn [fst snd]. repeat (case_scrutinee; try reflexivity).
Qed.

Lemma same_stage_sorted (st : stage) (l : list stage) :
  Forall (fun st' => st' = st) l ->
  StronglySorted (fun a b => (rank a <= rank b)%nat) l.
Proof.
  induction l as [|x l IH]; intros Hf; [constructor|].
  apply Forall_cons in Hf as [-> Hf]. constructor; [now apply IH|].
  eapply Forall_impl; [exact Hf|]. intros y ->. lia.
Qed.

(** Along a chain of stages whose ranks increase, the decoder calls are
    in stage order, belong to the stages of the chain, and every stage
    of the chain has made one. *)
Lemma chain_events (H : host) (l : list stage) (s s' : Decoder * World) :
  chain H l s s' ->
  StronglySorted (fun a b => (rank a < rank b)%nat) l ->
  exists evs,
    trace (snd s') = trace (snd s) ++ evs
    /\ in_stage_order evs
    /\ Forall (fun st => In st l) (stages_of evs)
    /\ Forall (fun st => In st (stages_of evs)) l.
Proof.
  unfold in_stage_order.
  induction 1 as [s|st l s s1 s2 Hst Hch IH]; intros Hs.
  - exists []. rewrite app_nil_r. repeat split; constructor.
  - apply StronglySorted_cons in Hs as [Hlt Hs].
    destruct (IH Hs) as (evs2 & Htr2 & Hso2 & Hin2 & Hall2).
    destruct (stage_body_events H st s s1 (Ok tt) Hst) as (evs1 & Htr1 & Hown & Hmade).
    exists (evs1 ++ evs2). unfold stages_of in *. rewrite omap_app.
    split; [rewrite Htr2, Htr1, app_assoc; reflexivity|]. split; [|split].
    + apply StronglySorted_app. split; [|split; [|exact Hso2]].
      * intros x1 x2 Hx1 Hx2.
        rewrite Forall_forall in Hown, Hin2, Hlt.
        rewrite (Hown x1 Hx1). specialize (Hin2 x2 Hx2).
        apply list_elem_of_In in Hin2. specialize (Hlt x2 Hin2). lia.
      * now apply (same_stage_sorted st).
    + apply Forall_app. split.
      * eapply Forall_impl; [exact Hown|]. intros x ->. now left.
      * eapply Forall_impl; [exact Hin2|]. intros x Hx. now right.
    + constructor.
      * apply in_or_app. left. now apply Hmade.
      * eapply Forall_impl; [exact Hall2|]. intros x Hx. apply in_or_app. now right.
Qed.

Lemma declared_order_sorted :
  StronglySorted (fun a b => (rank a < rank b)%nat) declared_order.
Proof. unfold declared_order. repeat constructor; cbn; lia. Qed.

(** C1: after the check of the handle and the replacement of the
    configuration, [initialize] runs the stages in their declared order:
    the stages that complete form an initial stretch of that order, each
    has run from the state its predecessor left, and either all ten have
    completed and the decoder is marked initialised, or the next stage
    has thrown and [initialize] ends with that exception in the state
    that stage left, no later stage having run.  In the history, the
    calls into the decoder are in stage order, every completed stage has
    made one, and none belongs to a stage after the one that failed. *)
Theorem initialization_order (H : host) (arg : config_arg) (s : Decoder * World) :
  (forall e s0, prelude H arg s = (Throw e, s0) ->
                JsDecoder.initialize H arg s = (Throw e, s0)
                /\ trace (snd s0) = trace (snd s))
  /\ (forall s0, prelude H arg s = (Ok tt, s0) ->
        exists done smid evs,
          chain H done s0 smid
          /\ trace (snd smid) = trace (snd s) ++ evs
          /\ in_stage_order evs
          /\ Forall (fun st => In st done) (stages_of evs)
          /\ Forall (fun st => In st (stages_of evs)) done
          /\ ((done = declared_order
               /\ JsDecoder.initialize H arg s = (Ok tt, mark_initialized smid))
              \/ (exists st rest e sf evs',
                    declared_order = done ++ st :: rest
                    /\ stage_body H st smid = (Throw e, sf)
                    /\ JsDecoder.initialize H arg s = (Throw e, sf)
                    /\ trace (snd sf) = trace (snd smid) ++ evs'
                    /\ Forall (fun st' => st' = st) (stages_of evs')))).
Proof.
  split.
  - intros e s0 Hp. rewrite initialize_pipeline, Hp. split; [reflexivity|].
    pose proof (prelude_trace H arg s) as Ht. now rewrite Hp in Ht.
  - intros s0 Hp. rewrite initialize_pipeline, Hp.
    pose proof (prelude_trace H arg s) as Ht. rewrite Hp in Ht. cbn [snd] in Ht.
    destruct (run_stages_chain H declared_order s0) as (smid & Hch & Hout).
    assert (Hsorted : StronglySorted (fun a b => (rank a < rank b)%nat)
                        (fst (run_stages H declared_order s0))).
    { destruct (snd (run_stages H declared_order s0)) as [[[]|e] sf].
      - destruct Hout as [-> _]. apply declared_order_sorted.
      - destruct Hout as (st & rest & Hl & _).
        pose proof declared_order_sorted as Hd. rewrite Hl in Hd.
        now apply StronglySorted_app_1_l in Hd. }
    destruct (chain_events H _ _ _ Hch Hsorted) as (evs & Htr & Hord & Hin & Hall).
    exists (fst (run_stages H declared_order s0)), smid, evs.
    split; [exact Hch|]. split; [rewrite Htr, Ht; reflexivity|].
    split; [exact Hord|]. split; [exact Hin|]. split; [exact Hall|].
    destruct (snd (run_stages H declared_order s0)) as [[[]|e] sf].
    + left. destruct Hout as [-> ->]. split; reflexivity.
    + right. destruct Hout as (st & rest & Hl & Hthrow).
      destruct (stage_body_events H st smid sf (Throw e) Hthrow) as (evs' & Htr' & Hown & _).
      exists st, rest, e, sf, evs'. repeat split; assumption.
Qed.

Lemma initialization_order_witness :
  let s := (ready_decoder, empty_world) in
  exists done smid evs,
    chain model_host done s smid
    /\ trace (snd smid) = trace (snd s) ++ evs
    /\ in_stage_order evs
    /\ Forall (fun st => In st done) (stages_of evs)
    /\ Forall (fun st => In st (stages_of evs)) done
    /\ ((done = declared_order
         /\ JsDecoder.initialize model_host NoConfig s = (Ok tt, mark_initialized smid))
        \/ (exists st rest e sf evs',
              declared_order = done ++ st :: rest
              /\ stage_body model_host st smid = (Throw e, sf)
              /\ JsDecoder.initialize model_host NoConfig s = (Throw e, sf)
              /\ trace (snd sf) = trace (snd smid) ++ evs'
              /\ Forall (fun st' => st' = st) (stages_of evs'))).
Proof.
  apply (proj2 (initialization_order model_host NoConfig (ready_decoder, empty_world))).
  reflexivity.
Defined.

(** ** The initialised flag *)

Lemma keeps_ret {A} (a : A) : keeps_flag (ret a).
Proof. intros s. reflexivity. Qed.

Lemma keeps_throw {A} (e : exn) : keeps_flag (@throw _ A e).
Proof. intros s. reflexivity. Qed.

Lemma keeps_lift {A} (r : result A) : keeps_flag (lift r).
Proof. intros s. reflexivity. Qed.

Lemma keeps_this : keeps_flag JsDecoder.this.
Proof. intros s. reflexivity. Qed.

Lemma keeps_in_world {A} (m : M World A) : keeps_flag (JsDecoder.in_world m).
Proof. intros s. unfold JsDecoder.in_world. destruct (m (snd s)). reflexivity. Qed.

Lemma keeps_set_config (c : Config) : keeps_flag (JsDecoder.set_config c).
Proof. intros s. reflexivity. Qed.

Lemma keeps_set_ps (p : Z) : keeps_flag (JsDecoder.set_ps p).
Proof. intros s. reflexivity. Qed.

Lemma keeps_bind {A B} (m : M (Decoder * World) A) (k : A -> M (Decoder * World) B) :
  keeps_flag m -> (forall a, keeps_flag (k a)) -> keeps_flag (bind m k).
Proof.
  intros Hm Hk s. unfold bind. specialize (Hm s).
  destruct (m s) as [[a|e] s1]; cbn [fst snd] in *.
  - rewrite <- Hm. apply Hk.
  - exact Hm.
Qed.

Lemma keeps_try_catch {A} (m : M (Decoder * World) A) (h : exn -> M (Decoder * World) A) :
  keeps_flag m -> (forall e, keeps_flag (h e)) -> keeps_flag (try_catch m h).
Proof.
  intros Hm Hh s. unfold try_catch. specialize (Hm s).
  destruct (m s) as [[a|e] s1]; cbn [fst snd] in *.
  - exact Hm.
  - rewrite <- Hm. apply Hh.
Qed.

Lemma keeps_void {A} (m : M (Decoder * World) A) : keeps_flag m -> keeps_flag (void m).
Proof. intros Hm. unfold void. apply keeps_bind; [exact Hm|]. intros a. apply keeps_ret. Qed.

Create HintDb keeps.
#[local] Hint Resolve keeps_ret keeps_throw keeps_lift keeps_this keeps_in_world
  keeps_set_config keeps_set_ps keeps_void : keeps.

(** Decompose a method into its primitive steps. *)
Ltac keeps :=
  repeat first
    [ progress intros
    | apply keeps_bind
    | apply keeps_try_catch
    | solve [auto with keeps]
    | match goal with
      | |- keeps_flag (if ?b then _ else _) => destruct b
      | |- keeps_flag (match ?x with _ => _ end) => destruct x
      end ].

Lemma keeps_apply_featparams (H : host) (pairs : list (string * string)) :
  keeps_flag (JsDecoder.apply_featparams H pairs).
Proof. intros [d w]. rewrite apply_featparams_overlay. reflexivity. Qed.

#[local] Hint Resolve keeps_apply_featparams : keeps.

Lemma keeps_stage (H : host) (st : stage) : keeps_flag (stage_body H st).
Proof.
  destruct st; cbn [stage_body];
    unfold JsDecoder.init_config, JsDecoder.init_featparams, JsDecoder.init_fe,
      JsDecoder.init_feat, JsDecoder.init_acmod, JsDecoder.load_mdef, JsDecoder.load_tmat,
      JsDecoder.load_gmm, JsDecoder.init_dict, JsDecoder.init_grammar;
    keeps.
Qed.

Lemma keeps_prelude (H : host) (arg : config_arg) : keeps_flag (prelude H arg).
Proof. unfold prelude. keeps. Qed.

Lemma chain_flag (H : host) (l : list stage) (s s' : Decoder * World) :
  chain H l s s' -> initialized (fst s') = initialized (fst s).
Proof.
  induction 1 as [|st l s s1 s2 Hst _ IH]; [reflexivity|].
  rewrite IH. pose proof (keeps_stage H st s) as Hk. now rewrite Hst in Hk.
Qed.

(** How [initialize] ends, and what it does to the flag. *)
Lemma initialize_flag (H : host) (arg : config_arg) (s s' : Decoder * World) (r : result unit) :
  JsDecoder.initialize H arg s = (r, s') ->
  match r with
  | Ok _ =>
      initialized (fst s') = true
      /\ exists s0 smid,
           prelude H arg s = (Ok tt, s0)
           /\ chain H declared_order s0 smid
           /\ s' = mark_initialized smid
  | Throw _ => initialized (fst s') = initialized (fst s)
  end.
Proof.
  rewrite initialize_pipeline.
  pose proof (keeps_prelude H arg s) as Hp.
  destruct (prelude H arg s) as [[[]|e] s0]; cbn [fst snd] in Hp.
  - destruct (run_stages_chain H declared_order s0) as (smid & Hch & Hout).
    destruct (snd (run_stages H declared_order s0)) as [[[]|e] sf].
    + destruct Hout as [Hd ->]. rewrite Hd in Hch. intros [= <- <-].
      split; [reflexivity|]. exists s0, smid. repeat split. exact Hch.
    + destruct Hout as (st & rest & _ & Hthrow). intros [= <- <-].
      pose proof (keeps_stage H st smid) as Hk. rewrite Hthrow in Hk. cbn [fst snd] in Hk.
      rewrite Hk, (chain_flag H _ _ _ Hch). exact Hp.
  - intros [= <- <-]. exact Hp.
Qed.

(** Every operation but [initialize] leaves the flag alone. *)
Lemma keeps_run_op (H : host) (o : op) :
  match o with OpInitialize _ => True | _ => keeps_flag (run_op H o) end.
Proof.
  destruct o; [exact I|..]; cbn [run_op];
    unfold JsDecoder.reinitialize_audio, JsDecoder.delete, JsDecoder.start, JsDecoder.stop,
      JsDecoder.process, JsDecoder.get_hyp, JsDecoder.get_hypseg, JsDecoder.lookup_word,
      JsDecoder.add_word, JsDecoder.create_fsg, JsDecoder.parse_jsgf, JsDecoder.set_fsg,
      JsDecoder.assert_initialized;
    keeps.
Qed.

Lemma guarded {A} (k : unit -> M (Decoder * World) A) (s : Decoder * World) :
  initialized (fst s) = false ->
  bind JsDecoder.assert_initialized k s = (Throw (Error "Decoder not yet initialized"), s).
Proof.
  destruct s as [d w]. cbn [fst]. intros Hf.
  unfold JsDecoder.assert_initialized. unfold bind, JsDecoder.this, throw. cbn [fst snd].
  rewrite Hf. reflexivity.
Qed.

Lemma run_op_flag (H : host) (o : op) (s s' : Decoder * World) (r : result unit) :
  run_op H o s = (r, s') ->
  (initialized (fst s') = true
   <-> initialized (fst s) = true \/ ((exists arg, o = OpInitialize arg) /\ r = Ok tt)).
Proof.
  intros Hr.
  assert (Hk : (exists arg, o = OpInitialize arg)
               \/ ((forall arg, o <> OpInitialize arg) /\ keeps_flag (run_op H o))).
  { pose proof (keeps_run_op H o) as Hk. destruct o; try (right; split; [discriminate|exact Hk]).
    left. eauto. }
  destruct Hk as [[arg ->]|[Hne Hk]].
  - cbn [run_op] in Hr. apply initialize_flag in Hr. destruct r as [[]|e].
    + destruct Hr as [Hr _]. split; [intros _; right; eauto|intros _; exact Hr].
    + rewrite Hr. split; [tauto|]. intros [Hx|[_ Hx]]; [exact Hx|discriminate].
  - specialize (Hk s). rewrite Hr in Hk. cbn [fst snd] in Hk. rewrite Hk.
    split; [tauto|]. intros [Hx|[[arg Hx] _]]; [exact Hx|]. exfalso. now apply (Hne arg).
Qed.

Lemma run_ops_flag (H : host) (ops : list op) (s : Decoder * World) :
  initialized (fst (snd (run_ops H ops s))) = true
  <-> initialized (fst s) = true
      \/ exists i arg, ops !! i = Some (OpInitialize arg)
                       /\ fst (run_ops H ops s) !! i = Some (Ok tt).
Proof.
  revert s. induction ops as [|o ops IH]; intros s; cbn [run_ops].
  - cbn. split; [tauto|]. intros [Hx|(i & arg & Hx & _)]; [exact Hx|discriminate].
  - destruct (run_op H o s) as [r s1] eqn:Hr.
    specialize (IH s1). destruct (run_ops H ops s1) as [rs s2]. cbn [fst snd] in *.
    rewrite IH, (run_op_flag H o s s1 r Hr). split.
    + intros [[Hx|[[arg ->] ->]]|(i & arg & Hi & Hri)].
      * now left.
      * right. exists 0%nat, arg. split; reflexivity.
      * right. exists (S i), arg. split; assumption.
    + intros [Hx|(i & arg & Hi & Hri)]; [left; now left|].
      destruct i as [|i]; cbn in Hi, Hri.
      * injection Hi as ->. injection Hri as ->. left. right. eauto.
      * right. eauto.
Qed.

(** C8: a decoder is constructed with the flag false; any sequence of
    calls on it leaves the flag true exactly when one of them was an
    [initialize] that returned, and [initialize] returns exactly when
    all ten stages have completed; while the flag is false, each of
    [start], [stop], [process], [get_hyp], [get_hypseg], [lookup_word],
    [add_word], [create_fsg], [parse_jsgf], [set_fsg] and
    [reinitialize_audio] throws the error "Decoder not yet initialized"
    and leaves the state as it was. *)
Theorem initialized_flag_guard (H : host) :
  (forall arg w d w', JsDecoder.constructor H arg w = (Ok d, w') -> initialized d = false)
  /\ (forall arg w d w0 ops,
        JsDecoder.constructor H arg w = (Ok d, w0) ->
        initialized (fst (snd (run_ops H ops (d, w0)))) = true
        <-> exists i arg', ops !! i = Some (OpInitialize arg')
                           /\ fst (run_ops H ops (d, w0)) !! i = Some (Ok tt))
  /\ (forall arg s s',
        JsDecoder.initialize H arg s = (Ok tt, s') ->
        initialized (fst s') = true
        /\ exists s0 smid,
             prelude H arg s = (Ok tt, s0)
             /\ chain H declared_order s0 smid
             /\ s' = mark_initialized smid)
  /\ (forall arg s e s',
        JsDecoder.initialize H arg s = (Throw e, s') ->
        initialized (fst s') = initialized (fst s))
  /\ (forall s, initialized (fst s) = false ->
        let not_yet {A} : result A * (Decoder * World) :=
          (Throw (Error "Decoder not yet initialized"), s) in
        JsDecoder.start H s = not_yet
        /\ JsDecoder.stop H s = not_yet
        /\ (forall pcm no_search full_utt,
              JsDecoder.process H pcm no_search full_utt s = not_yet)
        /\ JsDecoder.get_hyp H s = not_yet
        /\ JsDecoder.get_hypseg H s = not_yet
        /\ (forall wd, JsDecoder.lookup_word H wd s = not_yet)
        /\ (forall wd pron update, JsDecoder.add_word H wd pron update s = not_yet)
        /\ (forall name start_state final_state transitions,
              JsDecoder.create_fsg H name start_state final_state transitions s = not_yet)
        /\ (forall jsgf_string toprule, JsDecoder.parse_jsgf H jsgf_string toprule s = not_yet)
        /\ (forall g, JsDecoder.set_fsg H g s = not_yet)
        /\ JsDecoder.reinitialize_audio H s = not_yet).
Proof.
  split; [|split; [|split; [|split]]].
  - intros arg w d w'. unfold JsDecoder.constructor, bind, lift, ncall, throw, ret.
    destruct (JsDecoder.new_Config H arg) as [cfg|e]; [|discriminate].
    destruct (_ =? 0); [discriminate|]. intros [= <- _]. reflexivity.
  - intros arg w d w0 ops Hc.
    assert (Hd : initialized d = false).
    { revert Hc. unfold JsDecoder.constructor, bind, lift, ncall, throw, ret.
      destruct (JsDecoder.new_Config H arg) as [cfg|e]; [|discriminate].
      destruct (_ =? 0); [discriminate|]. intros [= <- _]. reflexivity. }
    rewrite run_ops_flag. cbn [fst]. rewrite Hd. split; [|now right].
    intros [Hx|Hx]; [discriminate|exact Hx].
  - intros arg s s' Hi. exact (initialize_flag H arg s s' (Ok tt) Hi).
  - intros arg s e s' Hi. exact (initialize_flag H arg s s' (Throw e) Hi).
  - intros s Hf not_yet. unfold not_yet.
    repeat split; intros; apply guarded; exact Hf.
Qed.

Lemma initialized_flag_guard_witness :
  JsDecoder.start demo_host ({| config := demo_config; initialized := false; ps := 1 |}, empty_world)
  = (Throw (Error "Decoder not yet initialized"),
     ({| config := demo_config; initialized := false; ps := 1 |}, empty_world)).
Proof.
  apply (initialized_flag_guard demo_host).
  reflexivity.
Defined.

(** ** Fatal diagnostics *)

(** C6, as the claim has it, fails: [E_FATAL] writes its entry and ends
    the process with [EXIT_FAILURE]; it returns nothing to its caller. *)
Lemma fatal_exits_process :
  @E_FATAL Z "s3file.c" 217 "not enough data" quiet_process
  = (Exits 1,
     {| loglevel := ERR_INFO;
        stream := [{| d_lvl := ERR_FATAL; d_path := Some "s3file.c"; d_ln := 217;
                      d_text := "not enough data"; d_system := false |}] |})
  /\ ~ (exists (r : Z) p',
          @E_FATAL Z "s3file.c" 217 "not enough data" quiet_process = (Returns r, p')).
Proof.
  split; [reflexivity|]. intros (r & p' & Hr). discriminate.
Qed.

(** C6 (amended): [E_FATAL] hands its fatal-level entry to [err_msg],
    which writes it to the diagnostic stream unless the minimum logging
    level is above the fatal level, and then ends the hosting process
    with the non-zero status [EXIT_FAILURE], whatever the logging level:
    control does not return to the caller, no error result is returned,
    and nothing that follows the macro runs.  [E_FATAL_SYSTEM], and
    [E_SYSCALL] when its condition holds, end the process as well. *)
Theorem fatal_terminates_process (file : string) (line : Z) (text : string) (p : process) :
  let entry := {| d_lvl := ERR_FATAL; d_path := Some file; d_ln := line;
                  d_text := text; d_system := false |} in
  EXIT_FAILURE <> 0
  /\ (forall A,
        @E_FATAL A file line text p
        = (Exits EXIT_FAILURE,
           {| loglevel := loglevel p;
              stream := match loglevel p with
                        | ERR_MAX => stream p
                        | _ => stream p ++ [entry]
                        end |}))
  /\ (forall A B (k : A -> C B),
        seq (E_FATAL file line text) k p = E_FATAL file line text p)
  /\ (forall A, exists status p', @E_FATAL_SYSTEM A file line text p = (Exits status, p'))
  /\ (forall stmt, stmt <> 0 ->
        exists status p', E_SYSCALL stmt file line text p = (Exits status, p')).
Proof.
  intros entry. split; [discriminate|]. split; [|split; [|split]].
  - intros A. unfold E_FATAL, seq, err_msg, emit, exit. cbn.
    destruct p as [lvl st]. destruct lvl; reflexivity.
  - intros A B k. reflexivity.
  - intros A. eexists _, _. reflexivity.
  - intros stmt Hne. unfold E_SYSCALL, truthy.
    destruct (Z.eqb_spec stmt 0) as [E|_]; [contradiction|]. eexists _, _. reflexivity.
Qed.

(** With the minimum logging level above the fatal level nothing is
    written, and the process ends all the same. *)
Example fatal_exits_silently :
  @E_FATAL Z "s3file.c" 217 "not enough data" {| loglevel := ERR_MAX; stream := [] |}
  = (Exits 1, {| loglevel := ERR_MAX; stream := [] |}).
Proof. reflexivity. Qed.

(** The macros of the lower levels return to what follows them. *)
Lemma lower_levels_return (file : string) (line : Z) (text : string) (p : process) :
  exists p1 p2 p3,
    E_ERROR file line text p = (Returns tt, p1)
    /\ E_WARN file line text p = (Returns tt, p2)
    /\ E_INFO file line text p = (Returns tt, p3).
Proof. eexists _, _, _. repeat split. Qed.

(** ** Evaluations on the example hosts *)

(** The tokens of a line: quoted stretches, a quoted character, bare
    runs; a quote that is not closed begins a bare run. *)
Example tokens_of_line :
  matchAll_args (list_ascii_of_string "-agc  'x' -dither yes 'no -x")
  = ["-agc"; "x"; "-dither"; "yes"; "'no"; "-x"].
Proof. reflexivity. Qed.

(** The pairs of a parameter file: a key may stand on the line before its
    value, and the token [#] ends a line. *)
Example pairs_of_file :
  lines_loop (lines_from [] (list_ascii_of_string "-lowerf
130 # Hz
-upperf 6800 -nfilt")) None
  = (Some "-nfilt", [("-lowerf", "130"); ("-upperf", "6800")]).
Proof. reflexivity. Qed.

(** The overlay on the example store writes [-lw] and [-frate] and
    leaves out [-upperf], which the store does not have. *)
Example overlay_of_demo_file :
  let c := overlay demo_host demo_config [("-lw", "7"); ("-upperf", "6800"); ("-frate", "50")] in
  dom (cmd_ln c) = dom demo_args
  /\ cmd_ln c !! "-upperf" = None
  /\ cmd_ln_int_r (cmd_ln c) "-frate" = ToInt32 demo_host (JStr "50")
  /\ JsConfig.get c "frate" = Ok (JNum (50 # 1))
  /\ JsConfig.get c "lw" = Ok (JNum (7 # 1)).
Proof. vm_compute. repeat split. Qed.

Example set_then_get :
  let c := snd (JsConfig.set demo_host demo_config "frate" (JNum (inject_Z 50))) in
  JsConfig.get c "-frate" = Ok (JNum (inject_Z 50))
  /\ JsConfig.get c "nfft" = Ok (JNum (inject_Z 512))
  /\ JsConfig.get c "-nfft" = Ok (JNum (inject_Z 512))
  /\ JsConfig.get c "_nfft" = Ok (JNum (inject_Z 512)).
Proof. vm_compute. repeat split. Qed.

(** A decoder constructed on the host with a model directory, then
    initialised: all ten stages complete, in order. *)
Example full_initialization :
  exists d w,
    JsDecoder.constructor model_host NoConfig empty_world = (Ok d, w)
    /\ initialized d = false
    /\ fst (JsDecoder.initialize model_host NoConfig (d, w)) = Ok tt
    /\ initialized (fst (snd (JsDecoder.initialize model_host NoConfig (d, w)))) = true
    /\ fst (run_stages model_host declared_order (d, w)) = declared_order
    /\ stages_of (trace (snd (snd (JsDecoder.initialize model_host NoConfig (d, w)))))
       = [ConfigResolved; ConfigResolved; FrontEndReady; FeatureModuleReady;
          AcousticPreInit; ModelDefLoaded; ModelDefLoaded; TransitionMatrixLoaded;
          TransitionMatrixLoaded; GaussianParamsLoaded; AcousticPostInit;
          DictionaryReady; GrammarReady].
Proof. eexists. eexists. split; [reflexivity|]. vm_compute. repeat split. Qed.

(** Without a parameter file or a model directory the first stage fails,
    and no other runs. *)
Example failed_initialization :
  fst (JsDecoder.initialize demo_host NoConfig (ready_decoder, empty_world))
  = Throw (Error "Could not get featparams from config or model directory")
  /\ fst (run_stages demo_host declared_order (ready_decoder, empty_world)) = []
  /\ stages_of (trace (snd (snd (JsDecoder.initialize demo_host NoConfig
                                   (ready_decoder, empty_world))))) = [].
Proof. vm_compute. repeat split. Qed.

(** With both Gaussian files the compact one goes to the decoder. *)
Example compact_preferred :
  last (trace (snd (snd (JsDecoder.load_gmm model_host (JStr "en-us/means")
                           (JStr "en-us/variances") (JStr "en-us/sendump")
                           (JStr "en-us/mixture_weights") (ready_decoder, empty_world)))))
  = Some (_load_gmm 1 1 0 1, 1)
  /\ ~ In (fs_readFile (JStr "en-us/mixture_weights"), 1)
          (trace (snd (snd (JsDecoder.load_gmm model_host (JStr "en-us/means")
                              (JStr "en-us/variances") (JStr "en-us/sendump")
                              (JStr "en-us/mixture_weights") (ready_decoder, empty_world))))).
Proof.
  split; [reflexivity|]. vm_compute. intros HH.
  repeat (destruct HH as [HH|HH]; [discriminate|]). exact HH.
Qed.

(** On the host whose word tables hold one word, the second word of the
    example cannot be added: the automaton is released and the number 0
    is returned. *)
Example word_table_full :
  let run := JsDecoder.create_fsg tight_host "ab" 0 2 ab_transitions
               (ready_decoder, empty_world) in
  fst run = Ok Zero
  /\ fst (snd run) = ready_decoder
  /\ fsg_heap (snd (snd run)) = [None]
  /\ In (_fsg_model_word_add 1 "b", -1) (trace (snd (snd run))).
Proof. vm_compute. repeat split. tauto. Qed.

(** An empty transition list: one state in the JavaScript binding, an
    exception in the Cython binding. *)
Example empty_transition_list :
  let run := JsDecoder.create_fsg demo_host "e" 0 0 [] (ready_decoder, empty_world) in
  fst run = Ok (Grammar 1)
  /\ option_map n_state (fsg_at (snd (snd run)) 1) = Some 1
  /\ fst (PyDecoder.create_fsg demo_host demo_config "e" 0 0 [] empty_world)
     = Throw (ValueError "max() arg is an empty sequence").
Proof. vm_compute. repeat split. Qed.

(** * Further properties of the bindings *)

(** ** Keys and their normalisation *)

Lemma prefixed (a : ascii) (s : string) : String a EmptyString +:+ s = String a s.
Proof. reflexivity. Qed.

(** X1: normalising a key twice is normalising it once, in both
    bindings; the result is one of the spellings of the key, and only
    the prefix can have changed: the name without its prefix is that of
    the key. *)
Theorem normalize_key_idempotent (c : Config) (key : string) :
  JsConfig.normalize_key c (JsConfig.normalize_key c key) = JsConfig.normalize_key c key
  /\ PyConfig._normalize_key c (PyConfig._normalize_key c key) = PyConfig._normalize_key c key
  /\ In (JsConfig.normalize_key c key) (spellings key)
  /\ JsConfig.normalize_ckey (JsConfig.normalize_key c key) = JsConfig.normalize_ckey key.
Proof.
  rewrite !py_normalize_key_eq.
  assert (Hidem : JsConfig.normalize_key c (JsConfig.normalize_key c key)
                  = JsConfig.normalize_key c key).
  { destruct key as [|k0 rest]; [reflexivity|].
    remember (JsConfig.normalize_key c (String k0 rest)) as n eqn:Hn.
    unfold JsConfig.normalize_key in Hn. rewrite ?prefixed in Hn.
    destruct (Ascii.eqb k0 "_") eqn:Hu; [subst n; cbn; now rewrite Hu|].
    destruct (Ascii.eqb k0 "-") eqn:Hd.
    - destruct (truthy (JsConfig.has c (String "_" rest))) eqn:Hh; subst n; [reflexivity|].
      cbn. rewrite Hu, Hd. rewrite prefixed. now rewrite Hh.
    - destruct (truthy (JsConfig.has c (String "_" (String k0 rest)))) eqn:Hh;
        [subst n; reflexivity|].
      destruct (truthy (JsConfig.has c (String "-" (String k0 rest)))) eqn:Hh2; subst n.
      + cbn. rewrite prefixed. now rewrite Hh.
      + cbn. rewrite Hu, Hd. rewrite !prefixed. now rewrite Hh, Hh2. }
  split; [exact Hidem|]. split; [exact Hidem|].
  destruct key as [|k0 rest]; [cbn; auto|].
  unfold JsConfig.normalize_key, spellings.
  destruct (Ascii.eqb k0 "_") eqn:Hu.
  { split; [left; reflexivity|reflexivity]. }
  destruct (Ascii.eqb k0 "-") eqn:Hd.
  - rewrite prefixed. apply Ascii.eqb_eq in Hd. subst k0.
    destruct (truthy (JsConfig.has c (String "_" rest))); cbn; auto.
  - rewrite !prefixed.
    destruct (truthy (JsConfig.has c (String "_" (String k0 rest))));
      [|destruct (truthy (JsConfig.has c (String "-" (String k0 rest))))];
      cbn; rewrite ?Hu, ?Hd; cbn; auto.
Qed.

(** X2: [set] changes at most the parameter its key resolves to.  The
    names and the kinds of the parameters stay as they are, so that every
    key resolves as before; a key that resolves to another parameter
    reads as before; and a [set] that throws changes nothing. *)
Theorem set_changes_one_parameter (H : host) (c c' : Config) (key : string) (v : jsval)
    (r : result jsval) :
  JsConfig.set H c key v = (r, c') ->
  (forall k, JsConfig.has c' k = JsConfig.has c k)
  /\ (forall n, kind <$> (cmd_ln c' !! n) = kind <$> (cmd_ln c !! n))
  /\ (forall k, JsConfig.normalize_key c' k = JsConfig.normalize_key c k)
  /\ (forall n, n <> JsConfig.normalize_key c key -> cmd_ln c' !! n = cmd_ln c !! n)
  /\ (forall k, JsConfig.normalize_key c k <> JsConfig.normalize_key c key ->
                JsConfig.get c' k = JsConfig.get c k)
  /\ (forall e, r = Throw e -> c' = c).
Proof.
  intros Hset.
  pose proof (set_names H c c' key v r Hset) as Hn.
  split; [exact Hn|]. split; [intros n; exact (set_kinds H c c' key v r n Hset)|].
  split; [intros k; apply normalize_key_names; exact Hn|].
  split; [intros n Hne; exact (set_other_entries H c c' key v r n Hset Hne)|].
  split.
  - intros k Hne. apply get_same_entry; [exact Hn|].
    exact (set_other_entries H c c' key v r _ Hset Hne).
  - intros e ->. revert Hset. unfold JsConfig.set.
    repeat match goal with
           | |- context [if ?b then _ else _] => destruct b
           | |- context [match allocateUTF8OnStack H v with _ => _ end] =>
               destruct (allocateUTF8OnStack H v)
           end; intros Heq; inversion Heq; reflexivity.
Qed.

Lemma set_changes_one_parameter_witness :
  JsConfig.get (snd (JsConfig.set demo_host demo_config "lw" (JNum (7 # 1)))) "frate"
  = JsConfig.get demo_config "frate".
Proof.
  refine (proj1 (proj2 (proj2 (proj2 (proj2
            (set_changes_one_parameter demo_host demo_config _ "lw" (JNum (7 # 1)) _ _))))) "frate" _).
  - reflexivity.
  - vm_compute. discriminate.
Defined.

Lemma known_normalize (c : Config) (key : string) :
  known c key = truthy (cmd_ln_exists_r (cmd_ln c) (JsConfig.normalize_key c key)).
Proof.
  destruct key as [|k0 rest]; [cbn; now rewrite orb_false_r|].
  unfold known, spellings, JsConfig.normalize_key, JsConfig.has.
  destruct (Ascii.eqb k0 "_"); [cbn; now rewrite orb_false_r|].
  destruct (Ascii.eqb k0 "-"); rewrite ?prefixed; cbn [existsb]; rewrite orb_false_r.
  - destruct (truthy (cmd_ln_exists_r (cmd_ln c) (String "_" rest))) eqn:Hh;
      cbn [orb]; [now rewrite Hh|reflexivity].
  - destruct (truthy (cmd_ln_exists_r (cmd_ln c) (String "_" (String k0 rest)))) eqn:Hh;
      cbn [orb]; [now rewrite Hh|].
    destruct (truthy (cmd_ln_exists_r (cmd_ln c) (String "-" (String k0 rest)))) eqn:Hh2;
      cbn [orb]; [now rewrite Hh2|reflexivity].
Qed.

Lemma get_known_entry (c : Config) (key : string) (e : cmd_ln_val_t) :
  cmd_ln c !! JsConfig.normalize_key c key = Some e ->
  exists v, JsConfig.get c key = Ok v.
Proof.
  intros He. unfold JsConfig.get, cmd_ln_type_r. rewrite He, type_ne_0.
  destruct (type_tests e) as (-> & -> & -> & -> & _).
  destruct (kind e); [eexists; reflexivity..| |eexists; reflexivity].
  destruct (cmd_ln_str_r (cmd_ln c) (JsConfig.normalize_key c key)); eexists; reflexivity.
Qed.

(** X3: in the JavaScript binding [get] returns a value exactly when
    the key is known, that is when one of its spellings names a
    parameter.  [has] tests the name as it is written: where it holds
    the key is known, but a key without prefix is known, and not found
    by [has], when the parameter is stored under the dashed name. *)
Theorem get_returns_iff_known (c : Config) (key : string) :
  (known c key = true <-> exists v, JsConfig.get c key = Ok v)
  /\ (truthy (JsConfig.has c key) = true -> known c key = true)
  /\ (plain key = true -> cmd_ln c !! key = None -> is_Some (cmd_ln c !! ("-" +:+ key)) ->
      truthy (JsConfig.has c key) = false /\ exists v, JsConfig.get c key = Ok v).
Proof.
  assert (Hk : known c key = true <-> exists v, JsConfig.get c key = Ok v).
  { rewrite known_normalize, exists_lookup. split.
    - intros [e He]. exact (get_known_entry c key e He).
    - intros [v Hv]. destruct (cmd_ln c !! JsConfig.normalize_key c key) as [e|] eqn:He; [eauto|].
      exfalso. unfold JsConfig.get in Hv.
      rewrite (proj2 (type_r_0 (cmd_ln c) _) He) in Hv. discriminate. }
  split; [exact Hk|]. split.
  - intros Hh. pose proof (has_resolves c key Hh) as Hs.
    rewrite known_normalize. now apply exists_lookup.
  - intros Hp Hnone Hdash. split.
    + unfold JsConfig.has. now apply not_exists_lookup.
    + apply Hk. unfold known. apply existsb_exists. exists ("-" +:+ key). split.
      * destruct key as [|k0 rest]; [discriminate|]. unfold spellings.
        cbn in Hp. apply andb_prop in Hp as [Hu Hd].
        apply negb_true_iff in Hu, Hd. rewrite Hu, Hd. right; left; reflexivity.
      * now apply exists_lookup.
Qed.

Lemma get_returns_iff_known_witness :
  truthy (JsConfig.has demo_config "hmm") = false
  /\ exists v, JsConfig.get demo_config "hmm" = Ok v.
Proof.
  apply (proj2 (proj2 (get_returns_iff_known demo_config "hmm"))).
  - reflexivity.
  - reflexivity.
  - vm_compute. eauto.
Defined.

(** ** The Cython [Config] as a mapping *)

Lemma py_names_alter (c : Config) (f : cmd_ln_val_t -> cmd_ln_val_t) (n k : string) :
  PyConfig._normalize_key {| cmd_ln := alter f n (cmd_ln c) |} k = PyConfig._normalize_key c k.
Proof.
  rewrite !py_normalize_key_eq. apply normalize_key_names.
  intros k'. cbn. apply exists_alter.
Qed.

Lemma py_getitem_same_entry (c c' : Config) (key : string) :
  PyConfig._normalize_key c' key = PyConfig._normalize_key c key ->
  cmd_ln c' !! PyConfig._normalize_key c key = cmd_ln c !! PyConfig._normalize_key c key ->
  PyConfig.__getitem__ c' key = PyConfig.__getitem__ c key.
Proof.
  intros Hn He. unfold PyConfig.__getitem__, cmd_ln_access_r, cmd_ln_str_r, cmd_ln_int_r,
    cmd_ln_float_r. rewrite Hn, He. reflexivity.
Qed.

Lemma py_getitem_written (c : Config) (key : string) (e : cmd_ln_val_t) (a : anytype) :
  cmd_ln c !! PyConfig._normalize_key c key = Some e ->
  PyConfig.__getitem__
    {| cmd_ln := alter (with_val a) (PyConfig._normalize_key c key) (cmd_ln c) |} key
  = match kind e with
    | KString => match a with Ptr (Some s) => Ok (PyStr s) | _ => Ok PyNone end
    | KInteger => Ok (PyInt (match a with Int i => i | _ => 0 end))
    | KFloating => Ok (PyFloat (match a with Fl x => x | _ => 0%Q end))
    | KBoolean => Ok (PyBool (negb (match a with Int i => i | _ => 0 end =? 0)))
    end.
Proof.
  intros He. unfold PyConfig.__getitem__, cmd_ln_access_r, cmd_ln_str_r, cmd_ln_int_r,
    cmd_ln_float_r. rewrite py_names_alter. cbn [cmd_ln].
  rewrite lookup_alter_eq, He. cbn [fmap option_fmap option_map].
  destruct (type_tests (with_val a e)) as (-> & -> & -> & -> & _).
  cbn [with_val kind val]. destruct (kind e); try reflexivity.
  destruct a as [[s|]| |]; reflexivity.
Qed.

(** X4: the Cython [Config] read after it is written.  For a key that
    resolves to a parameter, [config[key] = v] either stores [v] coerced
    to the kind of the parameter, and [config[key]] then returns that
    value while every key that resolves to another parameter reads as
    before, or the coercion raises and the store is as it was. *)
Theorem py_setitem_getitem (H : host) (c : Config) (key : string) (v : pyval)
    (e : cmd_ln_val_t) :
  cmd_ln c !! PyConfig._normalize_key c key = Some e ->
  match py_stored_as H (kind e) v with
  | Ok stored =>
      exists c',
        PyConfig.__setitem__ H c key v = (Ok tt, c')
        /\ PyConfig.__getitem__ c' key = Ok stored
        /\ (forall k, PyConfig._normalize_key c k <> PyConfig._normalize_key c key ->
                      PyConfig.__getitem__ c' k = PyConfig.__getitem__ c k)
  | Throw ex => PyConfig.__setitem__ H c key v = (Throw ex, c)
  end.
Proof.
  intros He.
  assert (Hframe : forall a k,
            PyConfig._normalize_key c k <> PyConfig._normalize_key c key ->
            PyConfig.__getitem__
              {| cmd_ln := alter (with_val a) (PyConfig._normalize_key c key) (cmd_ln c) |} k
            = PyConfig.__getitem__ c k).
  { intros a k Hne. apply py_getitem_same_entry; [apply py_names_alter|].
    cbn [cmd_ln]. apply lookup_alter_ne. congruence. }
  unfold PyConfig.__setitem__, cmd_ln_access_r, py_stored_as,
    cmd_ln_set_str_r, cmd_ln_set_int_r, cmd_ln_set_float_r.
  rewrite He. destruct (type_tests e) as (-> & -> & -> & -> & _).
  destruct (kind e) eqn:Hk.
  - destruct (py_as_long H v) as [i|ex]; [|reflexivity].
    eexists. split; [reflexivity|]. split; [|apply Hframe].
    rewrite (py_getitem_written c key e _ He), Hk. reflexivity.
  - destruct (py_as_double H v) as [x|ex]; [|reflexivity].
    eexists. split; [reflexivity|]. split; [|apply Hframe].
    rewrite (py_getitem_written c key e _ He), Hk. reflexivity.
  - destruct v; cbn [PyConfig.encode]; try reflexivity;
      (eexists; split; [reflexivity|]; split; [|apply Hframe]);
      rewrite (py_getitem_written c key e _ He), Hk; reflexivity.
  - eexists. split; [reflexivity|]. split; [|apply Hframe].
    rewrite (py_getitem_written c key e _ He), Hk.
    destruct (PyConfig.ne_zero v); reflexivity.
Qed.

Lemma py_setitem_getitem_witness :
  exists c',
    PyConfig.__setitem__ demo_host demo_config "frate" (PyInt 50) = (Ok tt, c')
    /\ PyConfig.__getitem__ c' "frate" = Ok (PyInt 50)
    /\ (forall k, PyConfig._normalize_key demo_config k
                  <> PyConfig._normalize_key demo_config "frate" ->
                  PyConfig.__getitem__ c' k = PyConfig.__getitem__ demo_config k).
Proof.
  exact (py_setitem_getitem demo_host demo_config "frate" (PyInt 50) (int_param 100) eq_refl).
Defined.

(** X5: in the Cython binding [key in config], and [config.exists(key)]
    with it, holds exactly when [config[key]] returns a value, and fails
    exactly when [config[key]] raises [KeyError]; it is the test that
    one of the spellings of the key names a parameter. *)
Theorem py_contains_iff_getitem (c : Config) (key : string) :
  (PyConfig.__contains__ c key = true <-> exists v, PyConfig.__getitem__ c key = Ok v)
  /\ (PyConfig.__contains__ c key = false
      <-> PyConfig.__getitem__ c key = Throw (KeyError ("Unknown key " +:+ key)))
  /\ PyConfig.__contains__ c key = known c key
  /\ PyConfigKeys.exists_ c key = PyConfig.__contains__ c key.
Proof.
  assert (Hget : match cmd_ln c !! PyConfig._normalize_key c key with
                 | Some _ => exists v, PyConfig.__getitem__ c key = Ok v
                 | None => PyConfig.__getitem__ c key = Throw (KeyError ("Unknown key " +:+ key))
                 end).
  { unfold PyConfig.__getitem__, cmd_ln_access_r.
    destruct (cmd_ln c !! PyConfig._normalize_key c key) as [e|]; [|reflexivity].
    destruct (type_tests e) as (-> & -> & -> & -> & _).
    destruct (kind e); [eexists; reflexivity..| |eexists; reflexivity].
    destruct (cmd_ln_str_r (cmd_ln c) (PyConfig._normalize_key c key)); eexists; reflexivity. }
  unfold PyConfigKeys.exists_, PyConfig.__contains__, cmd_ln_exists_r in *.
  rewrite known_normalize, <- py_normalize_key_eq. unfold cmd_ln_exists_r.
  destruct (cmd_ln c !! PyConfig._normalize_key c key) as [e|]; cbn.
  - split; [tauto|]. split; [|auto]. split; [discriminate|].
    destruct Hget as [v Hv]. rewrite Hv. discriminate.
  - split; [|tauto]. split; [discriminate|]. intros [v Hv]. rewrite Hget in Hv. discriminate.
Qed.

(** ** Iteration over a configuration *)

Lemma not_in_added (k key : string) (seen : gset string) :
  k <> key -> k ∉ seen -> k ∉ ({[key]} ∪ seen : gset string).
Proof.
  intros Hne Hout Hin. apply elem_of_union in Hin as [Hin|Hin]; [|exact (Hout Hin)].
  apply elem_of_singleton in Hin. exact (Hne Hin).
Qed.

(** Concrete lists of names. *)
Ltac not_among :=
  let Hin := fresh "Hin" in
  intros Hin;
  repeat (apply elem_of_cons in Hin as [Hin|Hin]; [discriminate Hin|]);
  now apply elem_of_nil in Hin.

Ltac distinct_names :=
  repeat (apply NoDup_cons; split; [not_among|]); apply NoDup_nil; exact I.

Lemma in_added (key : string) (seen : gset string) : key ∈ ({[key]} ∪ seen : gset string).
Proof. apply elem_of_union; left. now apply elem_of_singleton. Qed.

Lemma iterator_distinct (ht : list string) :
  forall (fuel : nat) (seen : gset string),
    NoDup (JsConfig.normalize_ckey <$> ht) ->
    (forall k, k ∈ JsConfig.normalize_ckey <$> ht -> k ∉ seen) ->
    (length ht < fuel)%nat ->
    JsConfigKeys.iterator fuel ht seen = (JsConfig.normalize_ckey <$> ht, true).
Proof.
  induction ht as [|ckey next IH]; intros fuel seen Hnd Hseen Hfuel;
    (destruct fuel as [|fuel]; [cbn in Hfuel; lia|]); [reflexivity|].
  cbn [JsConfigKeys.iterator]. rewrite fmap_cons in *.
  apply NoDup_cons in Hnd as [Hnew Hnd].
  rewrite bool_decide_eq_false_2 by (apply Hseen; left).
  rewrite (IH fuel); [reflexivity|exact Hnd| |cbn in Hfuel; lia].
  intros k Hk. apply not_in_added; [|apply Hseen; now right].
  intros ->. exact (Hnew Hk).
Qed.

(** X6: when no two names of the table differ only in their prefix, the
    iterator of the JavaScript [Config] yields the name of every
    parameter without its prefix, once and in the order of the table,
    and ends. *)
Theorem iterator_ends_on_distinct_names (ht : list string) (fuel : nat) :
  NoDup (JsConfig.normalize_ckey <$> ht) ->
  (length ht < fuel)%nat ->
  JsConfigKeys.iterator fuel ht ∅ = (JsConfig.normalize_ckey <$> ht, true).
Proof.
  intros Hnd Hfuel. apply iterator_distinct; [exact Hnd| |exact Hfuel].
  intros k _. apply not_elem_of_empty.
Qed.

Lemma iterator_ends_on_distinct_names_witness :
  JsConfigKeys.iterator 4 ["-hmm"; "_nfft"; "-lw"] ∅ = (["hmm"; "nfft"; "lw"], true).
Proof.
  apply (iterator_ends_on_distinct_names ["-hmm"; "_nfft"; "-lw"] 4).
  - cbn. distinct_names.
  - cbn. lia.
Defined.

Lemma iterator_spins (ckey : string) (next : list string) (seen : gset string) :
  JsConfig.normalize_ckey ckey ∈ seen ->
  forall fuel, JsConfigKeys.iterator fuel (ckey :: next) seen = ([], false).
Proof.
  intros Hin fuel. induction fuel as [|fuel IH]; [reflexivity|].
  cbn [JsConfigKeys.iterator]. now rewrite bool_decide_eq_true_2.
Qed.

Lemma iterator_clash (l1 : list string) (ckey : string) (l2 : list string) :
  forall (fuel : nat) (seen : gset string),
    NoDup (JsConfig.normalize_ckey <$> l1) ->
    (forall k, k ∈ JsConfig.normalize_ckey <$> l1 -> k ∉ seen) ->
    JsConfig.normalize_ckey ckey ∈ JsConfig.normalize_ckey <$> l1
    \/ JsConfig.normalize_ckey ckey ∈ seen ->
    (length l1 < fuel)%nat ->
    JsConfigKeys.iterator fuel (l1 ++ ckey :: l2) seen
    = (JsConfig.normalize_ckey <$> l1, false).
Proof.
  induction l1 as [|a l1 IH]; intros fuel seen Hnd Hseen Hclash Hfuel.
  - destruct Hclash as [Hc|Hc]; [now apply elem_of_nil in Hc|]. now apply iterator_spins.
  - destruct fuel as [|fuel]; [cbn in Hfuel; lia|].
    cbn [JsConfigKeys.iterator app]. rewrite fmap_cons in *.
    apply NoDup_cons in Hnd as [Hnew Hnd].
    rewrite bool_decide_eq_false_2 by (apply Hseen; left).
    rewrite (IH fuel); [reflexivity|exact Hnd| | |cbn in Hfuel; lia].
    + intros k Hk. apply not_in_added; [|apply Hseen; now right].
      intros ->. exact (Hnew Hk).
    + destruct Hclash as [Hc|Hc].
      * apply elem_of_cons in Hc as [Hc|Hc]; [|now left].
        right. rewrite Hc. apply in_added.
      * right. apply elem_of_union. now right.
Qed.

Lemma iterator_never_ends (fuel : nat) :
  forall (ht : list string) (seen : gset string),
    ~ (NoDup (JsConfig.normalize_ckey <$> ht)
       /\ forall k, k ∈ JsConfig.normalize_ckey <$> ht -> k ∉ seen) ->
    snd (JsConfigKeys.iterator fuel ht seen) = false.
Proof.
  induction fuel as [|fuel IH]; intros ht seen Hbad; [reflexivity|].
  destruct ht as [|ckey next].
  - exfalso. apply Hbad. split; [apply NoDup_nil; exact I|].
    intros k Hk. now apply elem_of_nil in Hk.
  - cbn [JsConfigKeys.iterator].
    destruct (bool_decide (JsConfig.normalize_ckey ckey ∈ seen)) eqn:Hd.
    + apply IH. exact Hbad.
    + apply bool_decide_eq_false in Hd.
      destruct (JsConfigKeys.iterator fuel next ({[JsConfig.normalize_ckey ckey]} ∪ seen))
        as [ys ended] eqn:Hrun.
      cbn [snd]. change ended with (snd (ys, ended)). rewrite <- Hrun. apply IH.
      intros [Hnd Hseen]. apply Hbad. rewrite fmap_cons. split.
      * apply NoDup_cons. split; [|exact Hnd]. intros Hin. apply (Hseen _ Hin), in_added.
      * intros k Hk. apply elem_of_cons in Hk as [->|Hk]; [exact Hd|].
        intros Hin. apply (Hseen k Hk). apply elem_of_union. now right.
Qed.

(** X7: when two names of the table differ only in their prefix, the
    iterator of the JavaScript [Config] never ends: at the second of the
    two names the loop takes its [continue] without advancing, so that
    the names before it are yielded and the next request is never
    answered, however long the loop runs. *)
Theorem iterator_hangs_on_clash (ht : list string) :
  ~ NoDup (JsConfig.normalize_ckey <$> ht) ->
  (forall fuel, snd (JsConfigKeys.iterator fuel ht ∅) = false)
  /\ (forall l1 ckey l2 fuel,
        ht = l1 ++ ckey :: l2 ->
        NoDup (JsConfig.normalize_ckey <$> l1) ->
        JsConfig.normalize_ckey ckey ∈ JsConfig.normalize_ckey <$> l1 ->
        (length l1 < fuel)%nat ->
        JsConfigKeys.iterator fuel ht ∅ = (JsConfig.normalize_ckey <$> l1, false)).
Proof.
  intros Hdup. split.
  - intros fuel. apply iterator_never_ends. intros [Hnd _]. exact (Hdup Hnd).
  - intros l1 ckey l2 fuel -> Hnd Hin Hfuel.
    apply iterator_clash; [exact Hnd| |now left|exact Hfuel].
    intros k _. apply not_elem_of_empty.
Qed.

Lemma iterator_hangs_on_clash_witness :
  JsConfigKeys.iterator 1000 ["-nfft"; "-lw"; "_nfft"; "-hmm"] ∅ = (["nfft"; "lw"], false).
Proof.
  refine (proj2 (iterator_hangs_on_clash ["-nfft"; "-lw"; "_nfft"; "-hmm"] _)
            ["-nfft"; "-lw"] "_nfft" ["-hmm"] 1000%nat eq_refl _ _ _).
  - cbn. intros Hnd. apply NoDup_cons in Hnd as [Hnew _]. apply Hnew.
    right. left.
  - cbn. distinct_names.
  - cbn. left.
  - cbn. lia.
Defined.

Lemma iterator_yields_names (fuel : nat) :
  forall (ht : list string) (seen : gset string) (key : string),
    key ∈ fst (JsConfigKeys.iterator fuel ht seen) ->
    exists ckey, ckey ∈ ht /\ JsConfig.normalize_ckey ckey = key.
Proof.
  induction fuel as [|fuel IH]; intros ht seen key Hin; [now apply elem_of_nil in Hin|].
  destruct ht as [|ckey next]; [now apply elem_of_nil in Hin|].
  cbn [JsConfigKeys.iterator] in Hin.
  destruct (bool_decide (JsConfig.normalize_ckey ckey ∈ seen)).
  - exact (IH _ _ _ Hin).
  - destruct (JsConfigKeys.iterator fuel next ({[JsConfig.normalize_ckey ckey]} ∪ seen))
      as [ys ended] eqn:Hrun.
    cbn [fst] in Hin. apply elem_of_cons in Hin as [->|Hin].
    + exists ckey. split; [left|reflexivity].
    + destruct (IH next ({[JsConfig.normalize_ckey ckey]} ∪ seen) key) as (ck & Hck & Hkey);
        [now rewrite Hrun|].
      exists ck. split; [now right|exact Hkey].
Qed.

Lemma py_iter_set (ht : list string) :
  PyConfigKeys.__iter__ ht = list_to_set (PyConfigKeys._normalize_ckey <$> ht).
Proof.
  unfold PyConfigKeys.__iter__.
  assert (Hgen : forall acc : gset (option string),
             fold_left (fun keys ckey => {[PyConfigKeys._normalize_ckey ckey]} ∪ keys) ht acc
             = list_to_set (PyConfigKeys._normalize_ckey <$> ht) ∪ acc).
  { induction ht as [|a ht IH]; intros acc; cbn [fold_left].
    - cbn. now rewrite (left_id_L ∅ (∪)).
    - rewrite IH, fmap_cons. cbn [list_to_set].
      rewrite (comm_L (∪) {[PyConfigKeys._normalize_ckey a]}
                 (list_to_set (PyConfigKeys._normalize_ckey <$> ht))).
      now rewrite (assoc_L (∪)). }
  rewrite Hgen. apply (right_id_L ∅ (∪)).
Qed.

Lemma stripped_is_spelled (ckey key : string) :
  plain key = true ->
  JsConfig.normalize_ckey ckey = key ->
  In ckey (spellings key).
Proof.
  intros Hp Hk. destruct key as [|k0 rest]; [discriminate|].
  cbn in Hp. apply andb_prop in Hp as [Hu Hd]. apply negb_true_iff in Hu, Hd.
  unfold spellings. rewrite Hu, Hd. rewrite !prefixed.
  destruct ckey as [|c0 crest]; [discriminate|]. cbn in Hk.
  destruct (Ascii.eqb c0 "-") eqn:Hcd.
  - apply Ascii.eqb_eq in Hcd. cbn in Hk. subst. right; left; reflexivity.
  - destruct (Ascii.eqb c0 "_") eqn:Hcu.
    + apply Ascii.eqb_eq in Hcu. cbn in Hk. subst. left; reflexivity.
    + cbn in Hk. right; right; left. symmetry. exact Hk.
Qed.

Lemma known_spelled (c : Config) (ckey key : string) :
  In ckey (spellings key) -> is_Some (cmd_ln c !! ckey) -> known c key = true.
Proof.
  intros Hin Hs. unfold known. apply existsb_exists. exists ckey.
  split; [exact Hin|now apply exists_lookup].
Qed.

(** X8: what iteration yields can be read.  A key that the iterator of
    either binding yields, and that carries no further prefix, is a key
    that [get], or [config[key]], returns a value for. *)
Theorem iterated_keys_readable (c : Config) (ht : list string) (key : string) :
  (forall ckey, ckey ∈ ht -> is_Some (cmd_ln c !! ckey)) ->
  plain key = true ->
  (forall fuel, key ∈ fst (JsConfigKeys.iterator fuel ht ∅) ->
                exists v, JsConfig.get c key = Ok v)
  /\ (Some key ∈ PyConfigKeys.__iter__ ht -> exists v, PyConfig.__getitem__ c key = Ok v).
Proof.
  intros Hstore Hp. split.
  - intros fuel Hin. apply iterator_yields_names in Hin as (ckey & Hck & Hkey).
    assert (Hk : known c key = true).
    { apply (known_spelled c ckey); [now apply stripped_is_spelled|now apply Hstore]. }
    rewrite known_normalize in Hk. apply exists_lookup in Hk as [e He].
    exact (get_known_entry c key e He).
  - rewrite py_iter_set. intros Hin. apply elem_of_list_to_set in Hin.
    apply list_elem_of_fmap in Hin as (ckey & Hkey & Hck).
    assert (Hk : known c key = true).
    { apply (known_spelled c ckey); [|now apply Hstore].
      apply stripped_is_spelled; [exact Hp|].
      destruct ckey as [|c0 crest]; [cbn in Hkey; injection Hkey as ->; discriminate Hp|].
      unfold PyConfigKeys._normalize_ckey in Hkey. unfold JsConfig.normalize_ckey.
      destruct (Ascii.eqb c0 "-"), (Ascii.eqb c0 "_"); cbn in Hkey |- *; congruence. }
    rewrite known_normalize, <- py_normalize_key_eq in Hk.
    apply exists_lookup in Hk as [e He].
    unfold PyConfig.__getitem__, cmd_ln_access_r. rewrite He.
    destruct (type_tests e) as (-> & -> & -> & -> & _).
    destruct (kind e); [eexists; reflexivity..| |eexists; reflexivity].
    destruct (cmd_ln_str_r (cmd_ln c) (PyConfig._normalize_key c key)); eexists; reflexivity.
Qed.

Lemma iterated_keys_readable_witness :
  exists v, JsConfig.get demo_config "lw" = Ok v.
Proof.
  refine (proj1 (iterated_keys_readable demo_config ["-lw"; "_nfft"] "lw" _ eq_refl) 3%nat _).
  - intros ckey Hin. apply elem_of_cons in Hin as [->|Hin]; [vm_compute; eauto|].
    apply elem_of_cons in Hin as [->|Hin]; [vm_compute; eauto|]. now apply elem_of_nil in Hin.
  - cbn. left.
Defined.

Lemma size_list_to_set_le (l : list (option string)) :
  (size (list_to_set l : gset (option string)) <= length l)%nat.
Proof.
  induction l as [|a l IH]; [cbn; rewrite size_empty; lia|].
  cbn [list_to_set length]. rewrite size_union_alt, size_singleton.
  pose proof (subseteq_size (list_to_set l ∖ {[a]}) (list_to_set l : gset (option string))
                (subseteq_difference_l _ _ _ (reflexivity _))). lia.
Qed.

Lemma size_list_to_set_full (l : list (option string)) :
  size (list_to_set l : gset (option string)) = length l -> NoDup l.
Proof.
  induction l as [|a l IH]; [intros _; apply NoDup_nil; exact I|].
  cbn [list_to_set length]. intros Hsize. pose proof (size_list_to_set_le l) as Hle.
  destruct (decide (a ∈ l)) as [Hin|Hout].
  - exfalso.
    assert (Heq : ({[a]} ∪ list_to_set l : gset (option string)) = list_to_set l).
    { apply subseteq_union_1_L, singleton_subseteq_l, elem_of_list_to_set. exact Hin. }
    rewrite Heq in Hsize. lia.
  - apply NoDup_cons. split; [exact Hout|]. apply IH.
    rewrite size_union, size_singleton in Hsize; [lia|].
    apply disjoint_singleton_l. now rewrite elem_of_list_to_set.
Qed.

(** X9: [len(config)] in the Cython binding is the number of distinct
    results of [_normalize_ckey] over the names of the table.  It never
    exceeds the number of parameters, and equals it exactly when no two
    names have the same result; names that differ only in their prefix
    have the same result, and so have all names without a prefix, for
    which the result is [None]. *)
Theorem py_len_counts_distinct_names (ht : list string) :
  PyConfigKeys.__iter__ ht = list_to_set (PyConfigKeys._normalize_ckey <$> ht)
  /\ (PyConfigKeys.__len__ ht <= length ht)%nat
  /\ (PyConfigKeys.__len__ ht = length ht <-> NoDup (PyConfigKeys._normalize_ckey <$> ht))
  /\ (forall b, PyConfigKeys._normalize_ckey ("-" +:+ b) = Some b
                /\ PyConfigKeys._normalize_ckey ("_" +:+ b) = Some b)
  /\ (forall a, plain a = true <-> PyConfigKeys._normalize_ckey a = None).
Proof.
  split; [apply py_iter_set|]. unfold PyConfigKeys.__len__. rewrite py_iter_set.
  split; [|split; [|split]].
  - pose proof (size_list_to_set_le (PyConfigKeys._normalize_ckey <$> ht)) as Hle.
    now rewrite length_fmap in Hle.
  - split.
    + intros Hsize. apply size_list_to_set_full. now rewrite length_fmap.
    + intros Hnd. rewrite size_list_to_set by exact Hnd. apply length_fmap.
  - intros b. split; reflexivity.
  - intros [|a0 rest]; cbn; [split; discriminate|].
    destruct (Ascii.eqb a0 "_"), (Ascii.eqb a0 "-"); cbn; split; congruence.
Qed.

(** ** The tokens and pairs of a parameter file *)

(** X10: a parameter file that can be read is paired off token by
    token.  The tokens that count are those of each line up to a token
    [#]; they are taken two by two, key then value, whatever the lines
    they stand on.  [read_featparams] yields these pairs, half as many as
    there are tokens, and then throws if a last key is left without a
    value. *)
Theorem read_featparams_pairs_tokens (H : host) (featparams : jsval) (w : World)
    (fpdata : string) :
  (if RUNNING_ON_WEB H
   then exists statusText, fetch_response H featparams = Ok (true, statusText, fpdata)
   else readFile H featparams = Ok fpdata) ->
  let tokens := effective_tokens fpdata in
  exists gen w',
    read_featparams H featparams w = (Ok gen, w')
    /\ yields gen = snd (pair_up None tokens)
    /\ length (yields gen) = Nat.div2 (length tokens)
    /\ finish gen
       = if Nat.odd (length tokens)
         then Throw (Error ("Odd number of arguments in " +:+ ToString H featparams))
         else Ok tt.
Proof. exact (read_featparams_readable H featparams w fpdata). Qed.

Lemma read_featparams_pairs_tokens_witness :
  exists gen w',
    read_featparams model_host (JStr "en-us/feat.params") empty_world = (Ok gen, w')
    /\ yields gen = [("-lw", "7"); ("-upperf", "6800"); ("-frate", "50")]
    /\ length (yields gen) = 3%nat
    /\ finish gen = Ok tt.
Proof.
  exact (read_featparams_pairs_tokens model_host (JStr "en-us/feat.params") empty_world _
           eq_refl).
Defined.

Lemma break_at_length (p : ascii -> bool) (l : list ascii) :
  (length (snd (break_at p l)) <= length l)%nat.
Proof.
  induction l as [|c r IH]; cbn [break_at]; [cbn; lia|].
  destruct (p c); [cbn; lia|]. destruct (break_at p r) as [a b]. cbn [snd length] in *. lia.
Qed.

Lemma match_arg_shorter (l tok rest : list ascii) :
  match_arg l = Some (tok, rest) -> (length rest < length l)%nat.
Proof.
  destruct l as [|c r]; [discriminate|].
  assert (Hbare : forall tok rest,
            (if is_space c then None else Some (break_at is_space (c :: r))) = Some (tok, rest) ->
            (length rest < length (c :: r))%nat).
  { intros tok' rest'. destruct (is_space c) eqn:Hc; [discriminate|].
    cbn [break_at]. rewrite Hc. pose proof (break_at_length is_space r) as Hle.
    destruct (break_at is_space r) as [a b]. intros [= <- <-]. cbn [snd length] in *. lia. }
  unfold match_arg. destruct (is_dquote c).
  - pose proof (break_at_length is_dquote r) as Hle.
    destruct (break_at is_dquote r) as [a [|q b]]; [apply Hbare|].
    intros [= <- <-]. cbn [snd length] in *. lia.
  - destruct (is_squote c); [|apply Hbare].
    destruct r as [|x [|q rest']]; [apply Hbare..|].
    destruct (negb (is_squote x) && is_squote q); [|apply Hbare].
    intros [= <- <-]. cbn [length]. lia.
Qed.

(** The length of the line is fuel enough; more changes nothing. *)
Lemma matchAll_from_fuel (n : nat) :
  forall (m : nat) (l : list ascii),
    (length l <= n)%nat -> (length l <= m)%nat -> matchAll_from n l = matchAll_from m l.
Proof.
  induction n as [|n IH]; intros m l Hn Hm.
  - destruct l; [|cbn in Hn; lia]. now destruct m.
  - destruct l as [|c r]; [now destruct m|].
    destruct m as [|m]; [cbn in Hm; lia|].
    cbn [matchAll_from]. cbn [length] in Hn, Hm.
    destruct (match_arg (c :: r)) as [[tok rest]|] eqn:Harg.
    + apply match_arg_shorter in Harg. cbn [length] in Harg.
      f_equal. apply IH; lia.
    + apply IH; lia.
Qed.

Lemma matchAll_args_step (l tok rest : list ascii) :
  match_arg l = Some (tok, rest) ->
  matchAll_args l = string_of_list_ascii tok :: matchAll_args rest.
Proof.
  intros Harg. pose proof (match_arg_shorter _ _ _ Harg) as Hlt.
  unfold matchAll_args. destruct l as [|c r]; [discriminate|].
  cbn [length matchAll_from]. rewrite Harg. f_equal.
  cbn [length] in Hlt. apply matchAll_from_fuel; lia.
Qed.

Lemma matchAll_args_skip (c : ascii) (r : list ascii) :
  is_space c = true -> matchAll_args (c :: r) = matchAll_args r.
Proof.
  intros Hc. unfold matchAll_args. cbn [length matchAll_from].
  assert (Harg : match_arg (c :: r) = None).
  { unfold match_arg. rewrite Hc.
    destruct (is_dquote c) eqn:Hd.
    - destruct (break_at is_dquote r) as [a [|q b]]; [reflexivity|].
      exfalso. revert Hc Hd. unfold is_space, is_dquote.
      destruct (Nat.eqb_spec (nat_of_ascii c) 34) as [->|]; [cbn; discriminate|discriminate].
    - destruct (is_squote c) eqn:Hs; [|reflexivity].
      apply Ascii.eqb_eq in Hs. subst c. discriminate. }
  now rewrite Harg.
Qed.

Lemma break_at_token (t r : list ascii) :
  forallb (fun x => negb (is_space x)) t = true ->
  match r with [] => True | c :: _ => is_space c = true end ->
  break_at is_space (t ++ r) = (t, r).
Proof.
  intros Ht Hr. induction t as [|c t IH]; cbn [app].
  - destruct r as [|c r]; [reflexivity|]. cbn [break_at]. now rewrite Hr.
  - cbn [forallb] in Ht. apply andb_prop in Ht as [Hc Ht]. apply negb_true_iff in Hc.
    cbn [break_at]. rewrite Hc, (IH Ht). reflexivity.
Qed.

Lemma match_arg_bare (t : string) (r : list ascii) :
  bare_token t = true ->
  match r with [] => True | c :: _ => is_space c = true end ->
  match_arg (list_ascii_of_string t ++ r) = Some (list_ascii_of_string t, r).
Proof.
  unfold bare_token. intros Ht Hr.
  destruct (list_ascii_of_string t) as [|c t'] eqn:Hl; [discriminate|].
  apply andb_prop in Ht as [Hq Hsp]. apply andb_prop in Hq as [Hd Hs].
  apply negb_true_iff in Hd, Hs.
  pose proof (break_at_token (c :: t') r Hsp Hr) as Hb.
  cbn [forallb] in Hsp. apply andb_prop in Hsp as [Hc _]. apply negb_true_iff in Hc.
  unfold match_arg. cbn [app] in *. rewrite Hd, Hs, Hc, Hb. reflexivity.
Qed.

Lemma matchAll_args_nil : matchAll_args [] = [].
Proof. reflexivity. Qed.

Lemma string_of_list_of_string (s : string) :
  string_of_list_ascii (list_ascii_of_string s) = s.
Proof. apply string_of_list_ascii_of_string. Qed.

Lemma list_ascii_of_append (a b : string) :
  list_ascii_of_string (a +:+ b) = list_ascii_of_string a ++ list_ascii_of_string b.
Proof. induction a as [|c a IH]; cbn; [reflexivity|now rewrite <- IH]. Qed.

(** X11: tokens that stand for themselves, written on a line with one
    blank between them, are the tokens [read_featparams] finds on that
    line, in order. *)
Theorem tokens_of_joined_line (ts : list string) :
  Forall (fun t => bare_token t = true) ts ->
  matchAll_args (list_ascii_of_string (String.concat " " ts)) = ts.
Proof.
  induction ts as [|t ts IH]; intros Hts; [reflexivity|].
  apply Forall_cons in Hts as [Ht Hts]. specialize (IH Hts).
  destruct ts as [|t2 ts].
  - cbn [String.concat].
    pose proof (match_arg_bare t [] Ht I) as Harg. rewrite app_nil_r in Harg.
    rewrite (matchAll_args_step _ _ _ Harg), matchAll_args_nil, string_of_list_of_string.
    reflexivity.
  - change (String.concat " " (t :: t2 :: ts))
      with (t ++ " " ++ String.concat " " (t2 :: ts))%string.
    change (t ++ " " ++ String.concat " " (t2 :: ts))%string
      with (t +:+ " " +:+ String.concat " " (t2 :: ts)).
    rewrite !list_ascii_of_append.
    change (list_ascii_of_string " ") with [" "%char]. cbn [app].
    pose proof (match_arg_bare t (" "%char :: list_ascii_of_string (String.concat " " (t2 :: ts)))
                  Ht eq_refl) as Harg.
    rewrite (matchAll_args_step _ _ _ Harg), string_of_list_of_string.
    rewrite matchAll_args_skip by reflexivity. now rewrite IH.
Qed.

Lemma tokens_of_joined_line_witness :
  matchAll_args (list_ascii_of_string "-lowerf 130 -upperf 6800")
  = ["-lowerf"; "130"; "-upperf"; "6800"].
Proof.
  apply (tokens_of_joined_line ["-lowerf"; "130"; "-upperf"; "6800"]).
  repeat (apply Forall_cons; split; [reflexivity|]). apply Forall_nil. exact I.
Defined.

Lemma break_at_quote (p : ascii -> bool) (s : list ascii) (q : ascii) (r : list ascii) :
  Forall (fun c => p c = false) s -> p q = true ->
  break_at p (s ++ q :: r) = (s, q :: r).
Proof.
  intros Hs Hq. induction Hs as [|c s Hc Hs IH]; cbn [app break_at].
  - now rewrite Hq.
  - now rewrite Hc, IH.
Qed.

Lemma break_at_all (p : ascii -> bool) (s : list ascii) :
  Forall (fun c => p c = false) s -> break_at p s = (s, []).
Proof.
  intros Hs. induction Hs as [|c s Hc Hs IH]; cbn [break_at]; [reflexivity|].
  now rewrite Hc, IH.
Qed.

(** X12: quotes in a parameter file.  A stretch between two double
    quotes is one token, without the quotes, blanks and all, and it may
    be empty; a single character between two single quotes is that
    character; but a word of two or more characters between single
    quotes is no quoted token: it is read as a bare token that keeps its
    quotes. *)
Theorem quoted_tokens (q : ascii) :
  is_dquote q = true ->
  (forall s, Forall (fun c => is_dquote c = false) s ->
             matchAll_args (q :: s ++ [q]) = [string_of_list_ascii s])
  /\ (forall x, is_squote x = false ->
                matchAll_args ["'"%char; x; "'"%char] = [string_of_list_ascii [x]])
  /\ (forall s, (2 <= length s)%nat ->
                Forall (fun c => is_squote c = false) s ->
                Forall (fun c => is_space c = false) s ->
                matchAll_args ("'"%char :: s ++ ["'"%char])
                = [string_of_list_ascii ("'"%char :: s ++ ["'"%char])]).
Proof.
  intros Hq. split; [|split].
  - intros s Hs.
    assert (Harg : match_arg (q :: s ++ [q]) = Some (s, [])).
    { unfold match_arg. rewrite Hq, (break_at_quote is_dquote s q [] Hs Hq). reflexivity. }
    now rewrite (matchAll_args_step _ _ _ Harg), matchAll_args_nil.
  - intros x Hx.
    assert (Harg : match_arg ["'"%char; x; "'"%char] = Some ([x], [])).
    { unfold match_arg. cbn [is_dquote is_squote]. rewrite Hx. reflexivity. }
    now rewrite (matchAll_args_step _ _ _ Harg), matchAll_args_nil.
  - intros s Hlen Hsq Hsp.
    assert (Hall : Forall (fun c => is_space c = false) ("'"%char :: s ++ ["'"%char])).
    { apply Forall_cons. split; [reflexivity|]. apply Forall_app. split; [exact Hsp|].
      apply Forall_cons. split; [reflexivity|apply Forall_nil; exact I]. }
    assert (Harg : match_arg ("'"%char :: s ++ ["'"%char])
                   = Some ("'"%char :: s ++ ["'"%char], [])).
    { unfold match_arg. rewrite (break_at_all is_space _ Hall).
      change (is_dquote "'"%char) with false. change (is_squote "'"%char) with true.
      change (is_space "'"%char) with false. cbn iota.
      destruct s as [|x [|y s']]; [cbn in Hlen; lia..|]. cbn [app].
      apply Forall_cons in Hsq as [_ Hsq]. apply Forall_cons in Hsq as [Hy _].
      rewrite Hy, andb_false_r. reflexivity. }
    now rewrite (matchAll_args_step _ _ _ Harg), matchAll_args_nil.
Qed.

Lemma quoted_tokens_witness :
  matchAll_args (list_ascii_of_string "'yes'") = ["'yes'"].
Proof.
  refine (proj2 (proj2 (quoted_tokens (ascii_of_nat 34) eq_refl))
            (list_ascii_of_string "yes") _ _ _).
  - cbn. lia.
  - repeat (apply Forall_cons; split; [reflexivity|]). apply Forall_nil. exact I.
  - repeat (apply Forall_cons; split; [reflexivity|]). apply Forall_nil. exact I.
Defined.

(** ** [load_model] *)

Lemma push_if_within (cond : bool) (entry : string * string * string)
    (files : list (string * string * string)) (dir : string) (names : list string) :
  fst (fst entry) = dir ->
  files_within dir names files ->
  files_within dir (names ++ [snd (fst entry)]) (push_if cond entry files).
Proof.
  intros He [Hsub Hdir]. unfold push_if. destruct cond; split.
  - rewrite map_app. apply sublist_app; [exact Hsub|reflexivity].
  - apply Forall_app. split; [exact Hdir|]. apply Forall_cons. split; [exact He|].
    apply Forall_nil. exact I.
  - now apply sublist_inserts_r.
  - exact Hdir.
Qed.

Lemma push_if_In (cond : bool) (entry x : string * string * string)
    (files : list (string * string * string)) :
  In x (push_if cond entry files) <-> In x files \/ (cond = true /\ x = entry).
Proof.
  unfold push_if. destruct cond.
  - rewrite in_app_iff. cbn. intuition congruence.
  - intuition congruence.
Qed.

(** The files [load_model] requests. *)
Lemma load_model_files (H : host) (statSync : string -> bool)
    (join : string -> string -> string) (model_name model_path : string)
    (dict_path : option string) :
  exists files,
    snd (load_model H statSync join model_name model_path dict_path)
    = FS_createPath "/" model_name true true
      :: map (fun f => file_request H (fst (fst f)) (snd (fst f)) (snd f)) files
    /\ files_within ("/" +:+ model_name)
         (if RUNNING_ON_WEB H
          then ["means"; "transition_matrices"; "variances"; "noisedict";
                "mdef"; "mdef.txt"; "mdef.bin"; "sendump"; "phoneset.txt";
                "mixture_weights"; "dict.txt"]
          else ["means"; "transition_matrices"; "variances"; "noisedict";
                "sendump"; "mixture_weights"; "mdef.bin"; "mdef.txt"; "mdef";
                "phoneset.txt"; "dict.txt"]) files
    /\ (forall name, In name ["means"; "transition_matrices"; "variances"; "noisedict"] ->
                     In ("/" +:+ model_name, name, model_path +:+ "/" +:+ name) files)
    /\ (forall dp, dict_path = Some dp -> In ("/" +:+ model_name, "dict.txt", dp) files)
    /\ (RUNNING_ON_WEB H = false ->
        forall url,
          In ("/" +:+ model_name, "phoneset.txt", url) files
          <-> statSync (join model_path "mdef") = true /\ url = join model_path "mdef").
Proof.
  unfold load_model. cbn [snd map app].
  match goal with
  | |- exists files, _ :: map _ ?fs = _ /\ _ => exists fs
  end.
  split.
  { f_equal. apply map_ext. intros [[parent name] url]. reflexivity. }
  set (base := [("/" +:+ model_name, "means", model_path +:+ "/means");
                ("/" +:+ model_name, "transition_matrices",
                 model_path +:+ "/transition_matrices");
                ("/" +:+ model_name, "variances", model_path +:+ "/variances");
                ("/" +:+ model_name, "noisedict", model_path +:+ "/noisedict")]).
  assert (Hbase : files_within ("/" +:+ model_name)
                    ["means"; "transition_matrices"; "variances"; "noisedict"] base).
  { split; [reflexivity|].
    repeat (apply Forall_cons; split; [reflexivity|]). apply Forall_nil. exact I. }
  assert (Hbase_in : forall name,
             In name ["means"; "transition_matrices"; "variances"; "noisedict"] ->
             In ("/" +:+ model_name, name, model_path +:+ "/" +:+ name) base).
  { intros name Hin. cbn in Hin. unfold base.
    destruct Hin as [<-|[<-|[<-|[<-|[]]]]]; cbn; auto. }
  assert (Hbase_names : forall url, ~ In ("/" +:+ model_name, "phoneset.txt", url) base).
  { intros url Hin. unfold base in Hin. cbn in Hin.
    destruct Hin as [Hin|[Hin|[Hin|[Hin|[]]]]]; discriminate Hin. }
  destruct (RUNNING_ON_WEB H).
  - split; [|split; [|split]].
    + destruct dict_path as [dp|]; (split; [reflexivity|]);
        repeat (apply Forall_cons; split; [reflexivity|]); apply Forall_nil; exact I.
    + intros name Hin. apply Hbase_in in Hin. unfold base in Hin. cbn [In] in Hin.
      destruct dict_path as [dp|]; cbn [In app];
        destruct Hin as [Hin|[Hin|[Hin|[Hin|[]]]]]; auto.
    + intros dp ->. cbn [In app]. auto 20.
    + discriminate.
  - split; [|split; [|split]].
    + destruct dict_path as [dp|];
        [match goal with
         | |- files_within _ _ (?fs ++ [?e]) => change (fs ++ [e]) with (push_if true e fs)
         end|];
        repeat match type of Hbase with
               | files_within _ _ ?fs =>
                   match goal with
                   | |- context [push_if ?b ?e fs] =>
                       apply (push_if_within b e) in Hbase; [|reflexivity];
                       cbn [app fst snd] in Hbase
                   end
               end;
        exact Hbase.
    + intros name Hin. apply Hbase_in in Hin.
      destruct dict_path as [dp|]; [apply in_or_app; left|];
        repeat (apply push_if_In; left); exact Hin.
    + intros dp ->. apply in_or_app. right. left. reflexivity.
    + intros _ url.
      destruct dict_path as [dp|]; rewrite ?in_app_iff, ?push_if_In; cbn [In];
        (split;
         [intros Hin;
          repeat match goal with
                 | Hx : _ \/ _ |- _ => destruct Hx as [Hx|Hx]
                 | Hx : _ /\ _ |- _ => destruct Hx as [? Hx]
                 | Hx : In _ base |- _ => exact (False_ind _ (Hbase_names _ Hx))
                 | Hx : (_, _, _) = (_, _, _) |- _ => inversion Hx; clear Hx
                 | Hx : False |- _ => destruct Hx
                 end; subst; auto
         |intros [Hc ->]; auto 20]).
Qed.

Lemma requested_files (H : host) (files : list (string * string * string)) :
  omap requested_file
    (map (fun f => file_request H (fst (fst f)) (snd (fst f)) (snd f)) files)
  = files.
Proof.
  induction files as [|[[parent name] url] files IH]; [reflexivity|].
  rewrite <- IH at 2. unfold file_request. cbn [map fst snd].
  destruct (RUNNING_ON_WEB H); reflexivity.
Qed.

Lemma model_file_names :
  let on_web := ["means"; "transition_matrices"; "variances"; "noisedict";
                 "mdef"; "mdef.txt"; "mdef.bin"; "sendump"; "phoneset.txt";
                 "mixture_weights"; "dict.txt"] in
  let on_node := ["means"; "transition_matrices"; "variances"; "noisedict";
                  "sendump"; "mixture_weights"; "mdef.bin"; "mdef.txt"; "mdef";
                  "phoneset.txt"; "dict.txt"] in
  NoDup on_web /\ NoDup on_node /\ forall name : string, name ∈ on_node -> In name on_web.
Proof.
  cbn zeta. split; [distinct_names|]. split; [distinct_names|].
  intros name Hin.
  repeat (apply elem_of_cons in Hin as [->|Hin]; [cbn [In]; auto 20|]).
  now apply elem_of_nil in Hin.
Qed.

(** X13: what [load_model] asks of the file system.  The first request
    creates the directory of the model; every other request creates a
    file in that directory, lazily on the Web and preloaded under Node;
    no file is requested twice; the four files every model has are
    always requested, and a dictionary given by the caller is requested
    from the path given; and no file outside the eleven names below, so
    never [feat.params], is requested. *)
Theorem load_model_requests (H : host) (statSync : string -> bool)
    (join : string -> string -> string) (model_name model_path : string)
    (dict_path : option string) :
  let requests := snd (load_model H statSync join model_name model_path dict_path) in
  let names := map (fun f => snd (fst f)) (omap requested_file requests) in
  (exists rest,
      requests = FS_createPath "/" model_name true true :: rest
      /\ Forall (fun o => exists name url,
                           o = file_request H ("/" +:+ model_name) name url) rest)
  /\ NoDup names
  /\ (forall name, In name ["means"; "transition_matrices"; "variances"; "noisedict"] ->
                   In (file_request H ("/" +:+ model_name) name (model_path +:+ "/" +:+ name))
                      requests)
  /\ (forall dp, dict_path = Some dp ->
                 In (file_request H ("/" +:+ model_name) "dict.txt" dp) requests)
  /\ Forall (fun name =>
               In name ["means"; "transition_matrices"; "variances"; "noisedict";
                        "mdef"; "mdef.txt"; "mdef.bin"; "sendump"; "phoneset.txt";
                        "mixture_weights"; "dict.txt"]) names.
Proof.
  intros requests names. subst names requests.
  destruct (load_model_files H statSync join model_name model_path dict_path)
    as (files & -> & [Hsub Hdir] & Hbase & Hdict & _).
  destruct model_file_names as (Hweb & Hnode & Hsame).
  replace (omap requested_file
             (FS_createPath "/" model_name true true
              :: map (fun f => file_request H (fst (fst f)) (snd (fst f)) (snd f)) files))
    with files by (symmetry; exact (requested_files H files)).
  split; [|split; [|split; [|split]]].
  - eexists. split; [reflexivity|]. apply List.Forall_forall. intros o Ho.
    apply in_map_iff in Ho as ([[parent name] url] & <- & Hf).
    rewrite List.Forall_forall in Hdir. specialize (Hdir _ Hf). cbn [fst snd] in *.
    subst parent. eauto.
  - destruct (RUNNING_ON_WEB H);
      [exact (sublist_NoDup _ _ Hweb Hsub)|exact (sublist_NoDup _ _ Hnode Hsub)].
  - intros name Hin. right.
    exact (in_map (fun f => file_request H (fst (fst f)) (snd (fst f)) (snd f)) _ _
             (Hbase name Hin)).
  - intros dp Hdp. right.
    exact (in_map (fun f => file_request H (fst (fst f)) (snd (fst f)) (snd f)) _ _
             (Hdict dp Hdp)).
  - apply List.Forall_forall. intros name Hin. apply list_elem_of_In in Hin.
    pose proof (elem_of_sublist _ _ _ Hin Hsub) as Hmax.
    destruct (RUNNING_ON_WEB H); [now apply list_elem_of_In|now apply Hsame].
Qed.

(** X14: [load_model] records the path of the model, and [model_path]
    resolves through the record.  After [load_model] of a model, a file
    of the model whose parameter is unset, in a configuration whose [hmm]
    is the name of the model, resolves to the path given to [load_model]
    followed by the name of the file, also when the name is that of a
    property every object inherits; configurations of other models
    resolve as before.  The one name under which nothing is recorded is
    [__proto__]: the assignment of a string to it is ignored, and the
    files of such a model resolve as they did before. *)
Theorem load_model_then_model_path (H : host) (statSync : string -> bool)
    (join : string -> string -> string) (model_name model_path : string)
    (dict_path : option string) (c : Config) (key modelfile : string) :
  JsConfig.get c key = Ok JNull ->
  JsConfig.get c "hmm" = Ok (JStr model_name) ->
  let H' := fst (load_model H statSync join model_name model_path dict_path) in
  (model_name <> "__proto__" ->
   JsConfig.model_path H' c key modelfile = Ok (JStr (model_path +:+ "/" +:+ modelfile)))
  /\ (model_name = "__proto__" ->
      JsConfig.model_path H' c key modelfile = JsConfig.model_path H c key modelfile)
  /\ (forall c' key' file' other,
        JsConfig.get c' "hmm" = Ok (JStr other) -> other <> model_name ->
        JsConfig.model_path H' c' key' file' = JsConfig.model_path H c' key' file').
Proof.
  intros Hkey Hhmm H'. subst H'. unfold load_model. cbn [fst].
  destruct (String.eqb_spec model_name "__proto__") as [Hp|Hp].
  - split; [intros Hne; contradiction|]. split; reflexivity.
  - split; [|split].
    + intros _. unfold JsConfig.model_path. rewrite Hkey, Hhmm.
      cbn [ToString with_model_paths model_paths]. now rewrite lookup_insert_eq.
    + intros Heq. contradiction.
    + intros c' key' file' other Hother Hne. unfold JsConfig.model_path.
      rewrite Hother. cbn [ToString with_model_paths model_paths].
      now rewrite lookup_insert_ne by congruence.
Qed.

Lemma load_model_then_model_path_witness :
  JsConfig.model_path
    (fst (load_model demo_host (fun _ => true) (fun a b => a +:+ "/" +:+ b)
            "en-us" "/usr/share/en-us" None))
    (snd (JsConfig.set demo_host demo_config "hmm" (JStr "en-us"))) "mdef" "mdef.bin"
  = Ok (JStr "/usr/share/en-us/mdef.bin").
Proof.
  refine (proj1 (load_model_then_model_path demo_host (fun _ => true)
                   (fun a b => a +:+ "/" +:+ b) "en-us" "/usr/share/en-us" None
                   (snd (JsConfig.set demo_host demo_config "hmm" (JStr "en-us")))
                   "mdef" "mdef.bin" _ _) _).
  - reflexivity.
  - reflexivity.
  - intros Heq. discriminate Heq.
Defined.

(** Models named after an inherited property: before [load_model] the
    file of a model [constructor] resolves through what every object
    inherits under that name, afterwards through the recorded path; a
    model [__proto__] is never recorded. *)
Example inherited_model_names :
  let named name := snd (JsConfig.set demo_host demo_config "hmm" (JStr name)) in
  let loaded name :=
    fst (load_model demo_host (fun _ => true) (fun a b => a +:+ "/" +:+ b)
           name "/usr/share/model" None) in
  JsConfig.model_path demo_host (named "constructor") "mdef" "mdef.bin"
  = Ok (JStr "function Object() { [native code] }/mdef.bin")
  /\ JsConfig.model_path (loaded "constructor") (named "constructor") "mdef" "mdef.bin"
     = Ok (JStr "/usr/share/model/mdef.bin")
  /\ JsConfig.model_path (loaded "__proto__") (named "__proto__") "mdef" "mdef.bin"
     = Ok (JStr "[object Object]/mdef.bin")
  /\ JsConfig.model_path demo_host (named "en-us") "mdef" "mdef.bin"
     = Ok (JStr "en-us/mdef.bin").
Proof. vm_compute. repeat split. Qed.

(** X15: under Node the file [phoneset.txt] of the model directory is
    requested exactly when the file [mdef] exists under the model path,
    and it is then filled from that file [mdef]: the test and the source
    of the request are the path of [mdef], not that of [phoneset.txt]. *)
Theorem load_model_phoneset_from_mdef (H : host) (statSync : string -> bool)
    (join : string -> string -> string) (model_name model_path : string)
    (dict_path : option string) (url : string) :
  RUNNING_ON_WEB H = false ->
  In (FS_createPreloadedFile ("/" +:+ model_name) "phoneset.txt" url true true)
     (snd (load_model H statSync join model_name model_path dict_path))
  <-> statSync (join model_path "mdef") = true /\ url = join model_path "mdef".
Proof.
  intros Hnode.
  destruct (load_model_files H statSync join model_name model_path dict_path)
    as (files & -> & _ & _ & _ & Hphone).
  rewrite <- (Hphone Hnode url). split.
  - intros [Hin|Hin]; [discriminate Hin|].
    apply in_map_iff in Hin as ([[parent name] url'] & Heq & Hf).
    unfold file_request in Heq. rewrite Hnode in Heq. cbn [fst snd] in Heq.
    now inversion Heq; subst.
  - intros Hin. right.
    apply (in_map (fun f => file_request H (fst (fst f)) (snd (fst f)) (snd f))) in Hin.
    unfold file_request at 1 in Hin. rewrite Hnode in Hin. exact Hin.
Qed.

Lemma load_model_phoneset_from_mdef_witness :
  In (FS_createPreloadedFile "/en-us" "phoneset.txt" "model/en-us/mdef" true true)
     (snd (load_model demo_host (fun p => String.eqb p "model/en-us/mdef")
             (fun a b => a +:+ "/" +:+ b) "en-us" "model/en-us" None))
  <-> String.eqb "model/en-us/mdef" "model/en-us/mdef" = true
      /\ "model/en-us/mdef" = "model/en-us/mdef".
Proof.
  exact (load_model_phoneset_from_mdef demo_host (fun p => String.eqb p "model/en-us/mdef")
           (fun a b => a +:+ "/" +:+ b) "en-us" "model/en-us" None "model/en-us/mdef"
           eq_refl).
Defined.

(** ** The constructor of [Config] and the default model *)

Lemma get_same_name (c : Config) (k1 k2 : string) (v : jsval) :
  JsConfig.normalize_key c k1 = JsConfig.normalize_key c k2 ->
  JsConfig.get c k1 = Ok v -> JsConfig.get c k2 = Ok v.
Proof.
  unfold JsConfig.get. intros <-.
  destruct (cmd_ln_type_r (cmd_ln c) (JsConfig.normalize_key c k1) =? 0); [discriminate|].
  repeat match goal with
         | |- context [if ?b then _ else _] => destruct b; [exact (fun Hv => Hv)|]
         end.
  discriminate.
Qed.

(** X16: the default model overrides a model given under the key
    [-hmm].  The constructor adds the default model under the key [hmm]
    whenever the object it is given has no property of that very name,
    and writes it last; when the parameter is stored as [-hmm], a value
    the caller gave as [-hmm] is therefore replaced by the default. *)
Theorem default_model_overrides_dash_hmm (H : host) (dict : list (string * jsval))
    (m : string) (e : cmd_ln_val_t) (c : Config) :
  defaultModel H = Some m ->
  JsConfig.in_dict "hmm" dict = false ->
  ps_args H !! "_hmm" = None ->
  ps_args H !! "-hmm" = Some e ->
  kind e = KString ->
  JsConfig.constructor H (Some dict) = Ok c ->
  JsConfig.get c "hmm" = Ok (JStr m) /\ JsConfig.get c "-hmm" = Ok (JStr m).
Proof.
  intros Hm Hdict Hunder Hdash Hkind Hc.
  apply constructor_set_all in Hc. unfold given in Hc. rewrite Hm, Hdict in Hc.
  set (defaults := {| cmd_ln := ps_args H |}) in *.
  assert (Hn : JsConfig.normalize_key defaults "hmm" = "-hmm").
  { unfold JsConfig.normalize_key, JsConfig.has, cmd_ln_exists_r, defaults.
    cbn [Ascii.eqb Bool.eqb cmd_ln]. rewrite !prefixed. now rewrite Hunder, Hdash. }
  assert (Hget : JsConfig.get c "hmm" = Ok (JStr m)).
  { rewrite (set_all_wins H dict [] defaults c "hmm" (JStr m) e Hc).
    - now rewrite Hkind.
    - now rewrite Hn.
    - apply Forall_nil. exact I. }
  split; [exact Hget|].
  apply (get_same_name c "hmm" "-hmm"); [|exact Hget].
  rewrite !(normalize_key_names defaults c) by exact (set_all_names H _ defaults c _ Hc).
  rewrite Hn. unfold JsConfig.normalize_key, JsConfig.has, cmd_ln_exists_r, defaults.
  cbn [Ascii.eqb Bool.eqb cmd_ln]. rewrite !prefixed. now rewrite Hunder.
Qed.

Lemma default_model_overrides_dash_hmm_witness :
  exists c, JsConfig.constructor demo_host (Some [("-hmm", JStr "fr-fr")]) = Ok c
            /\ JsConfig.get c "hmm" = Ok (JStr "en-us")
            /\ JsConfig.get c "-hmm" = Ok (JStr "en-us").
Proof.
  eexists. split; [reflexivity|].
  apply (default_model_overrides_dash_hmm demo_host [("-hmm", JStr "fr-fr")] "en-us"
           (str_param None)); reflexivity.
Defined.

(** ** Release of a parsed grammar *)




(** ** The state count of an automaton *)




(** The edge itself: a transition to state 2^31 - 1 makes the JavaScript
    binding ask for -2^31 states and pass the state on as it is, one to
    state 2^32 + 1 is passed on as a transition to state 1, and the
    Cython binding refuses both before it has called anything. *)
Example state_index_overflow :
  let edge := [{| t_from := 0; t_to := 2147483647; t_prob := None; t_word := None |}] in
  let wrapped := [{| t_from := 0; t_to := 4294967297; t_prob := None; t_word := None |}] in
  let lw := cmd_ln_float_r demo_args "-lw" in
  trace (snd (snd (JsDecoder.create_fsg demo_host "edge" 0 0 edge (ready_decoder, empty_world))))
  = [(_fsg_model_init "edge" lw (-2147483648), 1); (_fsg_set_states 1 0 0, 0);
     (_fsg_model_null_trans_add 1 0 2147483647 0, 0)]
  /\ trace (snd (snd (JsDecoder.create_fsg demo_host "wrapped" 0 0 wrapped
                        (ready_decoder, empty_world))))
     = [(_fsg_model_init "wrapped" lw 2, 1); (_fsg_set_states 1 0 0, 0);
        (_fsg_model_null_trans_add 1 0 1 0, 0)]
  /\ (exists msg,
        PyDecoder.create_fsg demo_host demo_config "edge" 0 0
          [{| p_source := 0; p_dest := 2147483647; p_prob := 1%Q; p_word := None |}]
          empty_world
        = (Throw (OverflowError msg), empty_world)).
Proof. vm_compute. repeat split. eexists. reflexivity. Qed.

(** ** The handle of a decoder *)

Lemma handle_ret {A} (a : A) : keeps_handle (ret a).
Proof. intros s. reflexivity. Qed.

Lemma handle_throw {A} (e : exn) : keeps_handle (@throw _ A e).
Proof. intros s. reflexivity. Qed.

Lemma handle_lift {A} (r : result A) : keeps_handle (lift r).
Proof. intros s. reflexivity. Qed.

Lemma handle_this : keeps_handle JsDecoder.this.
Proof. intros s. reflexivity. Qed.

Lemma handle_in_world {A} (m : M World A) : keeps_handle (JsDecoder.in_world m).
Proof. intros s. unfold JsDecoder.in_world. destruct (m (snd s)). reflexivity. Qed.

Lemma handle_set_config (c : Config) : keeps_handle (JsDecoder.set_config c).
Proof. intros s. reflexivity. Qed.

Lemma handle_set_initialized (b : bool) : keeps_handle (JsDecoder.set_initialized b).
Proof. intros s. reflexivity. Qed.

Lemma handle_bind {A B} (m : M (Decoder * World) A) (k : A -> M (Decoder * World) B) :
  keeps_handle m -> (forall a, keeps_handle (k a)) -> keeps_handle (bind m k).
Proof.
  intros Hm Hk s. unfold bind. specialize (Hm s).
  destruct (m s) as [[a|e] s1]; cbn [fst snd] in *.
  - rewrite <- Hm. apply Hk.
  - exact Hm.
Qed.

Lemma handle_try_catch {A} (m : M (Decoder * World) A) (h : exn -> M (Decoder * World) A) :
  keeps_handle m -> (forall e, keeps_handle (h e)) -> keeps_handle (try_catch m h).
Proof.
  intros Hm Hh s. unfold try_catch. specialize (Hm s).
  destruct (m s) as [[a|e] s1]; cbn [fst snd] in *.
  - exact Hm.
  - rewrite <- Hm. apply Hh.
Qed.

Lemma handle_void {A} (m : M (Decoder * World) A) : keeps_handle m -> keeps_handle (void m).
Proof. intros Hm. unfold void. apply handle_bind; [exact Hm|]. intros a. apply handle_ret. Qed.

Lemma handle_apply_featparams (H : host) (pairs : list (string * string)) :
  keeps_handle (JsDecoder.apply_featparams H pairs).
Proof. intros [d w]. rewrite apply_featparams_overlay. reflexivity. Qed.

Create HintDb handle.
#[local] Hint Resolve handle_ret handle_throw handle_lift handle_this handle_in_world
  handle_set_config handle_set_initialized handle_void handle_apply_featparams : handle.

Ltac handle_kept :=
  repeat first
    [ progress intros
    | apply handle_bind
    | apply handle_try_catch
    | solve [auto with handle]
    | match goal with
      | |- keeps_handle (if ?b then _ else _) => destruct b
      | |- keeps_handle (match ?x with _ => _ end) => destruct x
      end ].

(** Every operation but [delete] leaves the handle alone. *)
Lemma handle_run_op (H : host) (o : op) :
  match o with OpDelete => True | _ => keeps_handle (run_op H o) end.
Proof.
  destruct o; [..|exact I| | | | | | | | | |]; cbn [run_op];
    unfold JsDecoder.initialize, JsDecoder.init_config, JsDecoder.init_featparams,
      JsDecoder.init_fe, JsDecoder.init_feat, JsDecoder.init_acmod,
      JsDecoder.load_acmod_files, JsDecoder.load_mdef, JsDecoder.load_tmat,
      JsDecoder.load_gmm, JsDecoder.init_dict, JsDecoder.init_grammar,
      JsDecoder.reinitialize_audio, JsDecoder.start, JsDecoder.stop,
      JsDecoder.process, JsDecoder.get_hyp, JsDecoder.get_hypseg, JsDecoder.lookup_word,
      JsDecoder.add_word, JsDecoder.create_fsg, JsDecoder.parse_jsgf, JsDecoder.set_fsg,
      JsDecoder.assert_initialized;
    handle_kept.
Qed.

Lemma delete_clears_handle (H : host) (s : Decoder * World) :
  ps (fst (snd (JsDecoder.delete H s))) = 0.
Proof.
  unfold JsDecoder.delete, bind, JsDecoder.this, JsDecoder.set_ps, JsDecoder.in_world, ret, ncall.
  cbn [fst snd]. destruct (truthy (ps (fst s))); reflexivity.
Qed.

Lemma run_op_handle (H : host) (o : op) (s : Decoder * World) :
  ps (fst (snd (run_op H o s))) = if is_delete o then 0 else ps (fst s).
Proof.
  pose proof (handle_run_op H o) as Hk.
  destruct o; cbn [is_delete]; try exact (Hk s).
  cbn [run_op]. apply delete_clears_handle.
Qed.

Lemma initialize_without_handle (H : host) (arg : config_arg) (s : Decoder * World) :
  ps (fst s) = 0 ->
  JsDecoder.initialize H arg s
  = (Throw (Error "Decoder was somehow not constructed (ps==0)"), s).
Proof.
  intros Hps. unfold JsDecoder.initialize. unfold bind at 1. unfold JsDecoder.this at 1.
  cbn [fst]. rewrite Hps. reflexivity.
Qed.

Lemma run_ops_without_handle (H : host) (ops : list op) :
  forall (s : Decoder * World) (j : nat) (arg : config_arg),
    ps (fst s) = 0 ->
    ops !! j = Some (OpInitialize arg) ->
    fst (run_ops H ops s) !! j
    = Some (Throw (Error "Decoder was somehow not constructed (ps==0)")).
Proof.
  induction ops as [|o ops IH]; intros s j arg Hps Hj; [discriminate|].
  cbn [run_ops]. pose proof (run_op_handle H o s) as Hh.
  destruct (run_op H o s) as [r s1] eqn:Hr. cbn [fst snd] in Hh.
  specialize (IH s1). destruct (run_ops H ops s1) as [rs s2]. cbn [fst snd] in *.
  destruct j as [|j]; cbn in Hj |- *.
  - injection Hj as ->. cbn [run_op] in Hr.
    rewrite (initialize_without_handle H arg s Hps) in Hr. now injection Hr as <- _.
  - apply (IH j arg); [|exact Hj]. rewrite Hh, Hps. now destruct (is_delete o).
Qed.

(** X19: [delete] is final.  Over any sequence of calls the handle of
    the decoder is the one it had until [delete] is called and 0 from
    then on: no operation brings it back, every [initialize] that comes
    after a [delete] throws "Decoder was somehow not constructed
    (ps==0)", and a [delete] that follows a [delete] does nothing.
    [delete] does not reset the initialised flag. *)
Theorem delete_is_final (H : host) (ops : list op) (s : Decoder * World) :
  ps (fst (snd (run_ops H ops s))) = (if existsb is_delete ops then 0 else ps (fst s))
  /\ (forall i j arg,
        (i < j)%nat -> ops !! i = Some OpDelete -> ops !! j = Some (OpInitialize arg) ->
        fst (run_ops H ops s) !! j
        = Some (Throw (Error "Decoder was somehow not constructed (ps==0)")))
  /\ JsDecoder.delete H (snd (JsDecoder.delete H s)) = (Ok tt, snd (JsDecoder.delete H s))
  /\ initialized (fst (snd (JsDecoder.delete H s))) = initialized (fst s).
Proof.
  split; [|split; [|split]].
  - revert s. induction ops as [|o ops IH]; intros s; [reflexivity|].
    cbn [run_ops existsb]. pose proof (run_op_handle H o s) as Hh.
    destruct (run_op H o s) as [r s1]. cbn [fst snd] in Hh.
    specialize (IH s1). destruct (run_ops H ops s1) as [rs s2]. cbn [fst snd] in *.
    rewrite IH, Hh. destruct (is_delete o), (existsb is_delete ops); reflexivity.
  - revert s. induction ops as [|o ops IH]; intros s i j arg Hlt Hi Hj; [discriminate|].
    destruct j as [|j]; [lia|].
    cbn [run_ops]. pose proof (run_op_handle H o s) as Hh.
    destruct (run_op H o s) as [r s1]. cbn [fst snd] in Hh.
    pose proof (run_ops_without_handle H ops s1 j arg) as Hnull.
    specialize (IH s1). destruct (run_ops H ops s1) as [rs s2]. cbn [fst snd] in *.
    destruct i as [|i]; cbn in Hi, Hj |- *.
    + injection Hi as ->. apply Hnull; [exact Hh|exact Hj].
    + apply (IH i j arg); [lia|exact Hi|exact Hj].
  - pose proof (delete_clears_handle H s) as Hps.
    destruct (snd (JsDecoder.delete H s)) as [[c b p] w]. cbn [fst ps] in Hps.
    subst p. reflexivity.
  - exact (keeps_run_op H OpDelete s).
Qed.

(** ** The arguments of the Cython [Config] *)

Lemma append_kwargs_app (str : pyval -> string) (kwargs : list (string * pyval)) :
  forall args,
    PyConfigInit.append_kwargs str args kwargs
    = args ++ PyConfigInit.append_kwargs str [] kwargs.
Proof.
  induction kwargs as [|[k v] kwargs IH]; intros args; cbn [PyConfigInit.append_kwargs].
  - now rewrite app_nil_r.
  - rewrite IH. symmetry. rewrite IH. destruct v; cbn [app]; now rewrite <- !app_assoc.
Qed.

(** X20: keyword arguments of the Cython [Config] are positional
    arguments in disguise.  A keyword and its value are passed to the
    parser as the name, with a dash put before it unless it begins with
    one, followed by the value as a string; so a configuration made from
    keywords, none of them [None], is the one made from the same
    arguments written out. *)
Theorem cinit_keywords_as_arguments (str : pyval -> string)
    (cmd_ln_parse_r : list (option string) -> option cmd_ln_t)
    (args : list pyval) (kwargs : list (string * pyval)) :
  (forall s, str (PyStr s) = s) ->
  Forall (fun kv => snd kv <> PyNone) kwargs ->
  PyConfigInit.__cinit__ str cmd_ln_parse_r args kwargs
  = PyConfigInit.__cinit__ str cmd_ln_parse_r (args ++ as_arguments kwargs) [].
Proof.
  intros Hstr Hvals.
  assert (Hflat : PyConfigInit.append_kwargs str [] kwargs
                  = map (fun k => Some (str k)) (as_arguments kwargs)).
  { induction Hvals as [|[k v] kwargs Hv _ IH]; [reflexivity|].
    cbn [snd] in Hv.
    destruct v; try contradiction;
      cbn [PyConfigInit.append_kwargs as_arguments flat_map fst snd app map];
      rewrite append_kwargs_app, IH, !Hstr; reflexivity. }
  destruct kwargs as [|kv kwargs].
  - cbn [as_arguments flat_map]. now rewrite app_nil_r.
  - assert (Hleft : PyConfigInit.__cinit__ str cmd_ln_parse_r args (kv :: kwargs)
                    = cmd_ln_parse_r
                        (PyConfigInit.append_kwargs str (map (fun k => Some (str k)) args)
                           (kv :: kwargs)))
      by now destruct args.
    assert (Hright : forall l, l <> [] ->
                PyConfigInit.__cinit__ str cmd_ln_parse_r l []
                = cmd_ln_parse_r (map (fun k => Some (str k)) l))
      by (intros [|a l] Hl; [contradiction|reflexivity]).
    rewrite Hleft, Hright, append_kwargs_app, Hflat, map_app; [reflexivity|].
    destruct args; [|discriminate]. destruct kv. discriminate.
Qed.

Lemma cinit_keywords_as_arguments_witness :
  let str := fun v => match v with PyStr s => s | _ => "1" end in
  PyConfigInit.__cinit__ str (fun argv => if decide (argv = []) then None else Some ∅)
    [] [("hmm", PyStr "en-us"); ("-lw", PyStr "7")]
  = PyConfigInit.__cinit__ str (fun argv => if decide (argv = []) then None else Some ∅)
      [PyStr "-hmm"; PyStr "en-us"; PyStr "-lw"; PyStr "7"] [].
Proof.
  apply (cinit_keywords_as_arguments
           (fun v => match v with PyStr s => s | _ => "1" end)
           (fun argv => if decide (argv = []) then None else Some ∅)
           [] [("hmm", PyStr "en-us"); ("-lw", PyStr "7")]).
  - reflexivity.
  - repeat (apply Forall_cons; split; [discriminate|]). apply Forall_nil. exact I.
Defined.

(** ** The configuration through [initialize] *)

Lemma config_ret {A} (a : A) : keeps_config (ret a).
Proof. intros s. reflexivity. Qed.

Lemma config_throw {A} (e : exn) : keeps_config (@throw _ A e).
Proof. intros s. reflexivity. Qed.

Lemma config_lift {A} (r : result A) : keeps_config (lift r).
Proof. intros s. reflexivity. Qed.

Lemma config_this : keeps_config JsDecoder.this.
Proof. intros s. reflexivity. Qed.

Lemma config_in_world {A} (m : M World A) : keeps_config (JsDecoder.in_world m).
Proof. intros s. unfold JsDecoder.in_world. destruct (m (snd s)). reflexivity. Qed.

Lemma config_bind {A B} (m : M (Decoder * World) A) (k : A -> M (Decoder * World) B) :
  keeps_config m -> (forall a, keeps_config (k a)) -> keeps_config (bind m k).
Proof.
  intros Hm Hk s. unfold bind. specialize (Hm s).
  destruct (m s) as [[a|e] s1]; cbn [fst snd] in *.
  - rewrite <- Hm. apply Hk.
  - exact Hm.
Qed.

Lemma config_try_catch {A} (m : M (Decoder * World) A) (h : exn -> M (Decoder * World) A) :
  keeps_config m -> (forall e, keeps_config (h e)) -> keeps_config (try_catch m h).
Proof.
  intros Hm Hh s. unfold try_catch. specialize (Hm s).
  destruct (m s) as [[a|e] s1]; cbn [fst snd] in *.
  - exact Hm.
  - rewrite <- Hm. apply Hh.
Qed.

Create HintDb config.
#[local] Hint Resolve config_ret config_throw config_lift config_this config_in_world : config.

Ltac config_kept :=
  repeat first
    [ progress intros
    | apply config_bind
    | apply config_try_catch
    | solve [auto with config]
    | match goal with
      | |- keeps_config (if ?b then _ else _) => destruct b
      | |- keeps_config (match ?x with _ => _ end) => destruct x
      end ].

Lemma config_set_initialized (b : bool) : keeps_config (JsDecoder.set_initialized b).
Proof. intros s. reflexivity. Qed.

(** After a method that leaves the configuration alone, whatever has
    come before it stands. *)
Lemma config_after {A B} (m : M (Decoder * World) A) (k : A -> M (Decoder * World) B)
    (s : Decoder * World) :
  (forall a, keeps_config (k a)) ->
  config (fst (snd (bind m k s))) = config (fst (snd (m s))).
Proof.
  intros Hk. unfold bind. destruct (m s) as [[a|e] s1]; cbn [fst snd]; [apply Hk|reflexivity].
Qed.

(** The stages after the overlay of the parameter file leave the
    configuration alone. *)
Lemma config_after_featparams (H : host) :
  keeps_config
    (d <- JsDecoder.this ;;
     rv <- JsDecoder.in_world (ncall H (_ps_init_config (cmd_ln (config d)))) ;;
     if rv <? 0 then throw (Error "Failed to initialize basic configuration")
     else
       rv <- JsDecoder.in_world (ncall H _ps_init_cleanup) ;;
       if rv <? 0 then throw (Error "Failed to clean up decoder internals")
       else ret tt)
  /\ keeps_config
       (JsDecoder.init_fe H ;;
        JsDecoder.init_feat H ;;
        JsDecoder.init_acmod H ;;
        JsDecoder.load_acmod_files H ;;
        JsDecoder.init_dict H ;;
        JsDecoder.init_grammar H ;;
        JsDecoder.set_initialized true).
Proof.
  split; [config_kept|].
  unfold JsDecoder.init_fe, JsDecoder.init_feat, JsDecoder.init_acmod,
    JsDecoder.load_acmod_files, JsDecoder.load_mdef, JsDecoder.load_tmat,
    JsDecoder.load_gmm, JsDecoder.init_dict, JsDecoder.init_grammar.
  pose proof config_set_initialized. config_kept.
Qed.

(** From [init_config] on, the configuration at the end of [initialize]
    is the one [init_featparams] leaves. *)
Lemma initialize_config (H : host) (s : Decoder * World) :
  config (fst (snd ((JsDecoder.init_config H ;;
                     JsDecoder.init_fe H ;;
                     JsDecoder.init_feat H ;;
                     JsDecoder.init_acmod H ;;
                     JsDecoder.load_acmod_files H ;;
                     JsDecoder.init_dict H ;;
                     JsDecoder.init_grammar H ;;
                     JsDecoder.set_initialized true) s)))
  = config (fst (snd (JsDecoder.init_featparams H s))).
Proof.
  destruct (config_after_featparams H) as [Hcfg Hrest].
  rewrite config_after by (intros _; exact Hrest).
  unfold JsDecoder.init_config. apply config_after. intros _. exact Hcfg.
Qed.

(** X21: the configuration a decoder ends up with.  When the parameter
    file of the model can be read, [initialize] on a constructed decoder
    leaves the decoder with the configuration it has run with, overlaid
    with the pairs of that file, whether or not a later stage fails:
    given no argument, the configuration of the decoder; given a plain
    object (one without a property [cmd_ln]), the [Config] constructed
    from it, in which what the decoder was configured with before has no
    part. *)
Theorem initialize_installs_configuration (H : host) (d : Decoder) (w : World)
    (fp : jsval) (fpdata : string) :
  ps d <> 0 ->
  reads_as H fp fpdata ->
  (JsConfig.model_path H (config d) "featparams" "feat.params" = Ok fp ->
   config (fst (snd (JsDecoder.initialize H NoConfig (d, w))))
   = overlay H (config d) (file_pairs fpdata))
  /\ (forall dict c,
        JsConfig.in_dict "cmd_ln" dict = false ->
        JsConfig.constructor H (Some dict) = Ok c ->
        JsConfig.model_path H c "featparams" "feat.params" = Ok fp ->
        config (fst (snd (JsDecoder.initialize H (ADict dict) (d, w))))
        = overlay H c (file_pairs fpdata)).
Proof.
  intros Hps Hread. apply Z.eqb_neq in Hps. split.
  - intros Hp. unfold JsDecoder.initialize.
    unfold bind at 1. unfold JsDecoder.this at 1. cbn [fst snd]. rewrite Hps.
    unfold bind at 1. unfold ret at 1.
    rewrite initialize_config.
    destruct (init_featparams_readable H d w fp fpdata Hp Hread) as [w' ->].
    reflexivity.
  - intros dict c _ Hc Hp. unfold JsDecoder.initialize.
    unfold bind at 1. unfold JsDecoder.this at 1. cbn [fst snd]. rewrite Hps.
    unfold bind at 1. unfold bind at 1. unfold lift at 1. cbn [JsDecoder.new_Config].
    rewrite Hc. unfold JsDecoder.set_config at 1. cbn [fst snd].
    rewrite initialize_config.
    destruct (init_featparams_readable H (with_config c d) w fp fpdata Hp Hread) as [w' Hw].
    unfold with_config in Hw at 1. rewrite Hw. reflexivity.
Qed.

Lemma initialize_installs_configuration_witness :
  config (fst (snd (JsDecoder.initialize model_host NoConfig (model_decoder, empty_world))))
  = overlay model_host model_config [("-lw", "7"); ("-upperf", "6800"); ("-frate", "50")].
Proof.
  refine (proj1 (initialize_installs_configuration model_host model_decoder empty_world
                   (JStr "en-us/feat.params") demo_featparams _ _) _).
  - intros Heq. discriminate Heq.
  - reflexivity.
  - reflexivity.
Defined.

(** X22: a parameter file that cannot be read stops [initialize] at
    once.  When the path of the parameter file resolves and the read
    fails, under Node with the exception of the read and on the Web with
    an error that carries the status text of the response, [initialize]
    throws that exception; the decoder is as it was, and nothing has
    been called but the read. *)
Theorem unreadable_featparams_stops_initialize (H : host) (d : Decoder) (w : World)
    (fp : jsval) :
  ps d <> 0 ->
  JsConfig.model_path H (config d) "featparams" "feat.params" = Ok fp ->
  (forall e, RUNNING_ON_WEB H = false -> readFile H fp = Throw e ->
             JsDecoder.initialize H NoConfig (d, w)
             = (Throw e, (d, log (fs_readFile fp, 0) w)))
  /\ (forall statusText body,
        RUNNING_ON_WEB H = true -> fetch_response H fp = Ok (false, statusText, body) ->
        JsDecoder.initialize H NoConfig (d, w)
        = (Throw (Error ("Failed to fetch " +:+ ToString H fp +:+ " :" +:+ statusText)),
           (d, log (fetch fp, 0) w))).
Proof.
  intros Hps Hp. apply Z.eqb_neq in Hps.
  assert (Hstop : forall e w',
             read_featparams H fp w = (Ok {| yields := []; finish := Throw e |}, w') ->
             JsDecoder.initialize H NoConfig (d, w) = (Throw e, (d, w'))).
  { intros e w' Hr. rewrite initialize_pipeline.
    unfold prelude, bind, JsDecoder.this, ret. cbn [fst snd]. rewrite Hps.
    cbn [declared_order run_stages stage_body].
    unfold JsDecoder.init_config. unfold bind at 1.
    rewrite (init_featparams_outcome H d w w' fp _ Hp Hr). cbn [yields finish overlay fold_left].
    destruct d. reflexivity. }
  split.
  - intros e Hnode Hread. apply Hstop. unfold read_featparams. now rewrite Hnode, Hread.
  - intros statusText body Hweb Hresp. apply Hstop. unfold read_featparams.
    now rewrite Hweb, Hresp.
Qed.

Lemma unreadable_featparams_stops_initialize_witness :
  JsDecoder.initialize demo_host NoConfig
    ({| config := snd (JsConfig.set demo_host demo_config "hmm" (JStr "en-us"));
        initialized := false; ps := 1 |}, empty_world)
  = (Throw (Error "ENOENT: no such file or directory"),
     ({| config := snd (JsConfig.set demo_host demo_config "hmm" (JStr "en-us"));
         initialized := false; ps := 1 |},
      log (fs_readFile (JStr "en-us/feat.params"), 0) empty_world)).
Proof.
  refine (proj1 (unreadable_featparams_stops_initialize demo_host
                   {| config := snd (JsConfig.set demo_host demo_config "hmm" (JStr "en-us"));
                      initialized := false; ps := 1 |}
                   empty_world (JStr "en-us/feat.params") _ _) _ _ _).
  - discriminate.
  - reflexivity.
  - reflexivity.
  - reflexivity.
Defined.
